(* ===== verification/_CoqProject ===== *)
-Q . S2P
Prelude.v
GoString.v
Utf8.v
Externals.v
Instances.v
Tabwriter.v
TabwriterText.v
TabwriterLayout.v
TabwriterTable.v
Reconciler.v
Renderer.v
Images.v
Output.v
Calls.v
Flags.v
Invariants.v
Machine.v
