(* ===== verification/Prelude.v ===== *)
(** * Verification of [docker images] (api/client/images.go)

    ** The program

    [src/api/client/images.go] holds one handler, the method [CmdImages]
    of [DockerCli], the implementation of the command [docker images].  In
    one pass it
      - reads the parsed command line (four boolean flags, the list of
        [--filter] values, at most one positional argument);
      - folds the filter values into one criteria set with
        [filters.ParseFlag], returning at the first error;
      - builds [types.ImageListOptions] and asks the daemon for the image
        records ([cli.client.ImageList]), returning its error unchanged;
      - creates a [text/tabwriter] writer over [cli.out] and writes the
        header line unless [--quiet];
      - for every record: shortens the id unless [--no-trunc], drops the
        digest list of a dangling record, concatenates tags and digests and,
        for each of these reference strings, resolves it to a
        (repository, tag, digest) triple (parsing it with
        [reference.ParseNamed] unless it starts with "<none>", returning at
        the first parse error) and writes one row, reading the clock for the
        age column of that row;
      - flushes the writer unless [--quiet].

    The specification (spec.md) names two components of this pass, the
    Reference Reconciler and the Row Renderer, and treats everything the
    handler calls as an external collaborator.

    ** The files

    - [Prelude] (this file): Go's [(value, error)] results as [outcome],
      the error-propagating list traversals [mapM] and [foldM], the
      state-and-error monad [M] in which the handler is written, [forM_]
      (a [for range] loop whose body may [return err]), their run lemmas,
      the hint and rewrite databases [go] and the tactic
      [destruct_outcome].
    - [GoString]: Go strings as [string]; the tab and newline characters,
      [HasPrefix] with its characterisation, append and length lemmas,
      [count_char] and the predicate [plain] (no character that
      [text/tabwriter] interprets).
    - [Utf8]: [utf8.RuneCount], the measure of the width of a cell: the
      well-formed encodings count once, every other byte by itself.
    - [Externals]: the data of api/types and reference as the handler sees
      it ([Image], [ImageListOptions], [Named] with its optional [Tagged]
      and [Digested] capabilities), instants and Go's saturating
      [time.Time.Sub] ([time_Unix], [time_Sub]), the conversion of an
      integer to [float64] ([float64_of_int64]) with the integers that
      are a float64 ([representable]), and the class [Collab] of
      the operations the handler calls ([ParseFlag], [ImageList],
      [ParseNamed], [TruncateID], [HumanDuration], [HumanSize], the clock
      [Now]) with the class [CollabPlain] of what the theorems on the shape
      of the table assume of them.  The handler is written against
      [Collab]; every theorem on it holds for every instance.
    - [Instances]: one instance of [Collab], [testCollab], on which the
      handler evaluates, with the proof that it satisfies [CollabPlain],
      and the records and flag-independent fixtures of the examples.  Its
      parser and formatters are test fixtures, not models of the packages.
    - [Tabwriter]: the part of [text/tabwriter] the handler drives: the
      split of written text into cells and lines, the flush of a line that
      has a single cell, [Flush]; the sink is the list of flushed blocks,
      each with the parameters of the writer that flushed it.
    - [TabwriterText]: two facts on that writer whatever is written: the
      well-formedness [state_wf] that every operation keeps, and the text
      [written] read back from the cells, which a write extends by the
      text written.
    - [TabwriterLayout]: the bytes a flushed block is written as
      ([layout]): the width of a cell in runes ([cell_width]), the width
      of a column block ([column_width]), the recursion over the columns
      ([format]), the padding ([writePadding]); the reference table
      [aligned], defined without the algorithm, and the proof that the
      layout of lines with the same number of plain cells is that table.
    - [TabwriterTable]: the layout of any lines without the recursion:
      the column block of a cell is the run of lines around its line
      that have a cell at its position ([block_around]), every cell but
      the last of its line is padded to the width of its block
      ([table]); [format] computes that table ([format_table]).
    - [Reconciler]: the Reference Reconciler (images.go lines 77-106):
      [isDangling], [collapseDigests], [tagsAndDigests], [namedTriple],
      [resolveRef], and the pure function [reconcile] of a record.
    - [Renderer]: the Row Renderer (lines 62-75 and 108-116): the flags
      [ImagesFlags], the header, the displayed id, the duration of the age
      column, the text of a row and its fields.
    - [Images]: the handler [CmdImages] itself (lines 22-124), written in
      [M] over the state [World], statement by statement
      ([consolidateFilters], [matchNameOf], [listOptions], [newTabWriter],
      [writeHeader], [writeRow], [imageRows], [finish]); the abstract
      specification [listing] with [recordRows] and [listingRows]; the
      refinement theorem and what follows from it, up to the bytes on
      the output.
    - [Output]: what the calls on the writer send as bytes, that the
      flush ends, and that the columns of the listing line up.
    - [Flags]: the command line (lines 22-33): the flag declarations as
      data ([imagesFlagSet]), the bound on the positional arguments
      ([maxArgs]), the parser of pkg/mflag as the collaborator
      [FlagParser], the values read after the parse ([flagsOf]) and the
      method on its arguments ([CmdImagesArgs]).
    - [Calls]: the handler and the state around a call: the stream is
      written and never read ([frame]), the states that differ in the
      dead local [w] only are equivalent and [CmdImages] respects the
      equivalence (a [Proper] instance), and two calls in a row.
    - [Invariants]: the text that went through the writer, read back
      from the stream and the writer ([shown]), is the text the handler
      wrote; the handler from the header on ([run_header], [run_body]).
    - [Machine]: the body of [CmdImages] as a transition system.  A
      configuration [Config] is a program point [Ctl] (in the filter loop
      of line 38, before the header of line 62, in the loop over the
      records of line 71, in the loop over the references of line 87,
      after a [return]) with the values live there, and the state
      [World].  [Step] has one rule per statement and outcome (a filter
      flag accepted or refused, the listing call answered or failed, the
      header, a record taken up, a row written or its reference refused,
      the end of a record, the flush), labelled by [Label]; its loop
      bodies are the definitions of [Images].  [step] and [run] are the
      executable form, [remaining] bounds the transitions left, [denote]
      is the result of running the rest of the handler in [M];
      [failed_trace] describes the labels of a run that ends with an
      error; [hidden] and [rectangular] are the invariants of a listing
      outside quiet mode, on the stream and on the table in the writer
      ([holds_table]).

    ** Correspondence of state and operations

    - [cli.out] is the field [out] of [World]: the sequence of blocks
      (tables of cells) that reached the stream, one per flush, each with
      the parameters of [NewWriter] that decide its layout.  The bytes on
      the stream are [bytes (out s)], the layouts of the blocks in order.
    - the local [w] is the field [tw].  Before line 62 and after the return
      its value is meaningless to the caller; the theorems read it to state
      what stayed buffered.
    - [time.Now()] is called once per row written in non-quiet mode; the
      model counts the calls in [ticks] and the collaborator [Now] gives
      the time of the k-th call.
    - a Go [error] is a value of the collaborators' type [error]; the
      handler never inspects it.
    - [append(repoTags, repoDigests...)] is list append: the slice it may
      overwrite is never read again.
    - writes to [cli.out] are taken to succeed ([CmdImages] discards the
      results of [Fprintln], [Fprintf] and [Flush]).
    - the arguments of a call are evaluated before the call: the clock is
      read, then the row is written.

    ** What the theorems show

    - Refinement ([Images.CmdImages_refines]): in every state and for all
      flags the handler returns what [listing] returns and leaves the
      state [listing] describes.  The other theorems on the handler are
      read off [listing].
    - Reconciler: a dangling record gives one all-none triple
      ([reconcile_dangling], [isDangling_iff]); otherwise a record with N
      tags and M digests that all resolve gives N+M triples, tags first, in
      order ([reconcile_tags_then_digests], [reconcile_length]); a triple
      never carries both a tag and a digest ([reconcile_never_both]); what
      a parsed reference and a "<none>" string are shown as
      ([resolveRef_parsed], [resolveRef_sentinel]); the first reference
      that does not parse decides the error ([reconcile_Err_iff]).
    - Renderer: the fields of a row and their order ([rowText_fields]); a
      row has as many cells as the header ([rowText_columns]); the
      size given to the formatter is the float64 nearest to the size of
      the record, the even one of two that are as near
      ([sizeOf_nearest]), and the conversion keeps the order of the
      sizes ([Externals.float64_of_int64_mono]).
    - Handler, results: the table written outside quiet mode, in one flush
      ([CmdImages_table]); the ids written in quiet mode, one flush per row
      ([CmdImages_quiet]); the digest switch has no effect in quiet mode
      ([CmdImages_quiet_ignores_digests]).
    - Handler, errors: the three ways to fail and no other
      ([CmdImages_Err_iff]); a failing filter or listing call leaves the
      state untouched ([CmdImages_filter_error], [CmdImages_list_error]);
      a parse failure shows nothing outside quiet mode
      ([CmdImages_parse_error_hidden]) and leaves the rows before it on the
      stream in quiet mode ([CmdImages_quiet_partial]).
    - Handler, effects: the stream is only appended to
      ([CmdImages_out_append_only]); the clock is read once per row outside
      quiet mode, each row with its own reading, and never in quiet mode
      ([CmdImages_clock_reads], [imageRows_clock]); the filter flags are
      folded in order ([consolidateFilters_Err_iff],
      [consolidateFilters_snoc]); the name pattern ([matchNameOf_cases]),
      which for a command line that the parser accepts is the positional
      argument or empty ([Flags.CmdImagesArgs_matchName]); the listing of
      a command line without arguments ([Flags.CmdImagesArgs_defaults]).
    - Handler, bytes: outside quiet mode the output is the header and the
      rows as a table whose columns are as wide as their widest entry in
      runes plus three, and 20 at least ([CmdImages_table_bytes]); the
      columns line up ([Output.CmdImages_columns]); in quiet mode it is the
      ids, each followed by a newline ([CmdImages_quiet_bytes]).
    - Table writer: writing the lines of a table and flushing sends the
      reference table ([Output.emit_flush_table]); a flush ends, and its
      bytes do not depend on the fuel of [format] ([Output.flushW_bytes]);
      whatever the writer holds, a flush writes the table of the column
      blocks ([Output.flushW_table]), in which lines next to each other
      agree on the widths of the columns they share
      ([TabwriterTable.widths_at_adjacent]).
    - Handler, state: every call makes its own writer
      ([CmdImages_fresh_writer]), and nothing but the stream and the
      clock crosses from one call to the next
      ([Calls.CmdImages_no_cross_state], [Calls.CmdImages_twice]); the
      text on the stream and in the writer after a call is the text
      before it, the header and the rows, nothing lost or reordered
      ([CmdImages_shown], from the round trip [writes_shown] of a single
      write).
    - Machine, agreement: the function [step] computes the relation
      [Step] ([step_iff_Step]); the machine reaches the return with a
      result and a state exactly when [CmdImages] returns them
      ([machine_CmdImages]).  The proof is by the invariance of [denote]
      under a transition.
    - Machine, termination: every transition lowers [remaining], so
      [run] with that much fuel ends at a return ([run_terminates]).
    - Machine, what holds on the way: outside quiet mode the stream is
      untouched until the successful return, at error returns too
      ([reachable_hidden]), and in the loop over the records the writer
      holds one table, the header and one line per reference shown so
      far, each with one cell per column ([reachable_rectangular]); the
      calls of a successful run come in the
      order filter flags, listing, header, records with their references,
      flush ([run_trace]); a run that fails stops at the call that failed:
      its calls are those up to the first filter flag refused, or up to
      the listing call, or up to the first reference that does not parse,
      and no run ends with an error otherwise ([run_trace_failed]).
    - Each theorem with hypotheses has a witness, named after it, that
      applies it to the test instance.

    ** Where the code and the specification differ

    - In quiet mode every row is flushed when it is written, so a parse
      failure leaves earlier ids on the stream; the specification says
      there is no partial output ([CmdImages_quiet_partial]).
    - The clock is read for every row, not once per listing
      ([imageRows_clock], [CmdImages_default_run]).
    - A reference that is both tagged and digested is shown with its
      digest only; a bare name with neither ([resolveRef_parsed]).
    - The test for "<none>" on a reference string is a prefix test
      ([resolveRef_sentinel]), the dangling test compares whole strings
      ([isDangling_iff]).
    - Quiet mode never calls [Flush] and relies on the writer flushing a
      line of one cell; an id that holds a tab is lost
      ([CmdImages_quiet_tab_id]).

    ** Bounds

    [Created] and [Size] are 64-bit integers kept in [Z].  An instant is
    its number of nanoseconds since the Unix epoch, in [Z]; this is exact
    for the instants Go's [time.Unix] represents without wrapping the
    64-bit seconds of its internal representation, that is for [Created]
    below 2^63 - 62135596800.  [time.Time.Sub] saturates at the bounds of
    [time.Duration] ([Externals.time_Sub]).  [float64(image.Size)] is
    the nearest value with a mantissa of 53 bits, ties to even, kept as
    the integer it is ([Externals.float64_of_int64]): exact up to 2^53
    bytes, within one part in 2^53 beyond
    ([Externals.float64_of_int64_small], [float64_of_int64_error]), and
    no float64 is nearer ([Externals.float64_of_int64_nearest]).  The
    conversion is of the language, not of the repository, and is
    modelled after the language specification.  The handler of [Images] uses
    no fuel: every loop ranges over a finite list and is a structural
    recursion, so the handler is a total function and every theorem on
    its result is about a result it does produce.  The only fuel is the
    argument of [Machine.run], a number of transitions.
    [Machine.remaining] is enough of it from any configuration
    ([run_terminates]): from the first program point it is the number of
    filter flags, plus one for the listing call, and when the records are
    known one for the header, per record two and one per reference, and
    one for the flush.  [TabwriterLayout.format] recurses once per
    column; [layout] gives it the number of cells of the longest line as
    fuel, which is enough, and more changes nothing ([format_fuel],
    [Output.flushW_bytes]).  The width of a cell is a number of runes,
    not of bytes or of terminal columns.  The vertical tab and the form feed end a cell or
    a line in [text/tabwriter] without being kept in it; the round trip
    theorems are for text without them ([TabwriterText.textual]), which
    is all the handler writes when the collaborators return plain text.

    ** Not modelled

    Everything under src/ is modelled: the one file there is the
    handler.  What is left is code of other packages, which the
    specification names as external collaborators and of which it gives
    no behaviour to model:
    - command-line parsing (pkg/mflag: the syntax of the arguments,
      usage and exit): [Flags.FlagParser] keeps the parser abstract, and
      the theorems on [CmdImagesArgs] assume of it that [cmd.Require] is
      enforced and that a flag that is not given keeps its default; the
      theorems on [CmdImages] are for every value of the flags;
    - the network transport behind [ImageList];
    - the table writer under flags other than 0 (HTML filter, stripping
      of escapes, right alignment, discarding of empty columns, tab
      indent, debug bars), which the handler does not set, and errors of
      the underlying stream, which the handler does not read; text/tabwriter
      and unicode/utf8 are not under src/ either: they are modelled after
      the documented behaviour of the packages, since the bytes the user
      sees depend on them;
    - the bodies of the collaborators (pkg/units, pkg/stringid,
      distribution/reference, api/types/filters): the short form of an id
      and the formats of durations and sizes are implementation-defined
      in the specification, so [Collab] keeps them abstract and every
      theorem holds for every instance. *)

From Stdlib Require Import Ascii ZArith Lia.
From stdpp Require Import ssreflect base tactics option list strings numbers.

Set Default Proof Using "Type".
Set Warnings "-rewrite-rw,-clear-no-such-hyp".

(** ** Results of fallible calls *)

(** A Go call returning [(T, error)]: either the value or the error. *)
Inductive outcome (E A : Type) : Type :=
  | Ok (a : A)
  | Err (e : E).
Arguments Ok {E A} a.
Arguments Err {E A} e.

#[export] Instance outcome_eq_dec `{EqDecision E, EqDecision A} :
  EqDecision (outcome E A).
Proof. solve_decision. Defined.

#[export] Instance outcome_ret {E} : MRet (outcome E) := λ A a, Ok a.
#[export] Instance outcome_bind {E} : MBind (outcome E) := λ A B f m,
  match m with Ok a => f a | Err e => Err e end.
#[export] Instance outcome_fmap {E} : FMap (outcome E) := λ A B f m,
  match m with Ok a => Ok (f a) | Err e => Err e end.

Definition is_Ok {E A} (m : outcome E A) : bool :=
  match m with Ok _ => true | Err _ => false end.

(** [mapM f l]: apply [f] to the elements in order, stop at the first error. *)
Fixpoint mapM {E A B} (f : A → outcome E B) (l : list A) : outcome E (list B) :=
  match l with
  | [] => Ok []
  | x :: l' => y ← f x; ys ← mapM f l'; mret (y :: ys)
  end.

(** [foldM f a l]: a loop [for _, x := range l { a, err = f(a, x); if err != nil
    { return err } }]. *)
Fixpoint foldM {E A B} (f : A → B → outcome E A) (a : A) (l : list B) : outcome E A :=
  match l with
  | [] => Ok a
  | x :: l' => a' ← f a x; foldM f a' l'
  end.

(** ** The state-and-error monad of the handler *)

Definition M (S E A : Type) : Type := S → outcome E A * S.

#[export] Instance M_ret {S E} : MRet (M S E) := λ A a s, (Ok a, s).
#[export] Instance M_bind {S E} : MBind (M S E) := λ A B f m s,
  match m s with
  | (Ok a, s') => f a s'
  | (Err e, s') => (Err e, s')
  end.

Definition lift {S E A} (r : outcome E A) : M S E A := λ s, (r, s).
Definition get {S E} : M S E S := λ s, (Ok s, s).
Definition modify {S E} (f : S → S) : M S E unit := λ s, (Ok tt, f s).

(** [when b m]: Go's [if b { m }] for a statement [m]. *)
Definition when {S E} (b : bool) (m : M S E unit) : M S E unit :=
  if b then m else mret tt.

(** [forM_ l f]: a [for range] loop over [l] whose body may return an error,
    which ends the loop and the function. *)
Fixpoint forM_ {S E A} (l : list A) (f : A → M S E unit) : M S E unit :=
  match l with
  | [] => mret tt
  | x :: l' => f x ;; forM_ l' f
  end.

(** ** Automation *)

Create HintDb go discriminated.
Create Rewrite HintDb go.

(** Case analysis on every outcome that is scrutinised in the goal or in a
    hypothesis. *)
Ltac destruct_outcome :=
  repeat match goal with
  | |- context [match ?m with Ok _ => _ | Err _ => _ end] =>
      let H := fresh "Hm" in destruct m eqn:H; simpl
  | H : context [match ?m with Ok _ => _ | Err _ => _ end] |- _ =>
      let H' := fresh "Hm" in destruct m eqn:H'; simpl in H
  end.

(** ** Lemmas on outcomes *)

Section outcome.
Context {E A B : Type}.
Implicit Types (f : A → outcome E B) (l : list A) (e : E).

Lemma outcome_bind_Ok_inv (g : A → outcome E B) (m : outcome E A) b :
  m ≫= g = Ok b ↔ ∃ a, m = Ok a ∧ g a = Ok b.
Proof.
  destruct m as [a|e]; simpl.
  - split; [intros ?; by exists a|by intros (? & [= <-] & ?)].
  - split; [done|by intros (? & ? & ?)].
Qed.

Lemma outcome_bind_Err_inv (g : A → outcome E B) (m : outcome E A) e :
  m ≫= g = Err e ↔ m = Err e ∨ ∃ a, m = Ok a ∧ g a = Err e.
Proof.
  destruct m as [a|e']; simpl.
  - split; [intros ?; right; by exists a|by intros [?|(? & [= <-] & ?)]].
  - split; [intros [= ->]; by left|by intros [[= ->]|(? & ? & ?)]].
Qed.

Lemma mapM_cons_Ok f x l y ys :
  f x = Ok y → mapM f l = Ok ys → mapM f (x :: l) = Ok (y :: ys).
Proof. intros Hx Hl. simpl. by rewrite Hx /= Hl. Qed.

Lemma mapM_cons_Err_hd f x l e : f x = Err e → mapM f (x :: l) = Err e.
Proof. intros Hx. simpl. by rewrite Hx. Qed.

Lemma mapM_cons_Err_tl f x l y e :
  f x = Ok y → mapM f l = Err e → mapM f (x :: l) = Err e.
Proof. intros Hx Hl. simpl. by rewrite Hx /= Hl. Qed.

(** Success of the traversal: element-wise success, in order. *)
Lemma mapM_Ok_iff f l ys :
  mapM f l = Ok ys ↔ Forall2 (λ x y, f x = Ok y) l ys.
Proof.
  revert ys. induction l as [|x l IH]; intros ys; simpl.
  - split; [intros [= <-]; constructor | by inversion 1].
  - split.
    + destruct (f x) as [y|] eqn:Hx; [simpl|done].
      destruct (mapM f l) as [ys'|] eqn:Hl; [simpl|done].
      intros [= <-]. constructor; [done|by apply IH].
    + inversion 1 as [|? y ? ys' Hx Hl]; subst.
      apply IH in Hl. by rewrite Hx /= Hl.
Qed.

Lemma mapM_Ok_length f l ys : mapM f l = Ok ys → length ys = length l.
Proof. rewrite mapM_Ok_iff. intros H. symmetry. by eapply Forall2_length. Qed.

Lemma mapM_app f l1 l2 :
  mapM f (l1 ++ l2) = ys1 ← mapM f l1; ys2 ← mapM f l2; mret (ys1 ++ ys2).
Proof.
  induction l1 as [|x l1 IH]; simpl.
  - by destruct (mapM f l2).
  - destruct (f x); simpl; [|done]. rewrite IH.
    destruct (mapM f l1); simpl; [|done]. by destruct (mapM f l2).
Qed.

(** Failure of the traversal: the first element on which [f] fails. *)
Lemma mapM_Err_iff f l e :
  mapM f l = Err e ↔
  ∃ l1 x l2 ys, l = l1 ++ x :: l2 ∧ mapM f l1 = Ok ys ∧ f x = Err e.
Proof.
  split.
  - induction l as [|x l IH]; simpl; [done|].
    destruct (f x) as [y|e'] eqn:Hx; simpl.
    + destruct (mapM f l) as [ys|e'] eqn:Hl; simpl; [done|]. intros [= ->].
      destruct (IH eq_refl) as (l1 & x' & l2 & ys & -> & H1 & H2).
      exists (x :: l1), x', l2, (y :: ys). by rewrite /= Hx /= H1.
    + intros [= ->]. by exists [], x, l, [].
  - intros (l1 & x & l2 & ys & -> & H1 & Hx).
    by rewrite mapM_app H1 /= Hx.
Qed.

(** A total [f] makes [mapM] a [map]. *)
Lemma mapM_total f (g : A → B) l :
  (∀ x, x ∈ l → f x = Ok (g x)) → mapM f l = Ok (g <$> l).
Proof.
  induction l as [|x l IH]; intros H; simpl; [done|].
  rewrite H; [|by left]. simpl. rewrite IH; [done|].
  intros y ?. apply H. by right.
Qed.
End outcome.

Section foldM.
Context {E A B : Type}.
Implicit Types (f : A → B → outcome E A) (l : list B).

Lemma foldM_app f a l1 l2 :
  foldM f a (l1 ++ l2) = a' ← foldM f a l1; foldM f a' l2.
Proof.
  revert a. induction l1 as [|x l1 IH]; intros a; simpl; [done|].
  destruct (f a x); simpl; [apply IH|done].
Qed.

(** An invariant of the accumulator that every successful step keeps holds
    of the result. *)
Lemma foldM_invariant (P : A → Prop) f a l a' :
  (∀ a x a', P a → f a x = Ok a' → P a') →
  P a → foldM f a l = Ok a' → P a'.
Proof.
  intros Hstep. revert a. induction l as [|x l IH]; intros a Ha; simpl.
  - by intros [= <-].
  - destruct (f a x) as [a1|] eqn:Hx; simpl; [|done]. eauto.
Qed.

(** The loop fails exactly when some step fails on the accumulator the
    steps before it produced. *)
Lemma foldM_Err_iff f a l e :
  foldM f a l = Err e ↔
  ∃ l1 x l2 a1, l = l1 ++ x :: l2 ∧ foldM f a l1 = Ok a1 ∧ f a1 x = Err e.
Proof.
  split.
  - revert a. induction l as [|x l IH]; intros a; simpl; [done|].
    destruct (f a x) as [a'|e'] eqn:Hx; simpl.
    + intros (l1 & x' & l2 & a1 & -> & H1 & H2)%IH.
      exists (x :: l1), x', l2, a1. by rewrite /= Hx.
    + intros [= ->]. by exists [], x, l, a.
  - intros (l1 & x & l2 & a1 & -> & H1 & Hx).
    by rewrite foldM_app H1 /= Hx.
Qed.
End foldM.

(** ** Run lemmas of the monad *)

Section monad.
Context {S E : Type}.
Implicit Types (s : S).

Lemma run_ret {A} (a : A) s : (mret a : M S E A) s = (Ok a, s).
Proof. done. Qed.

Lemma run_bind {A B} (m : M S E A) (k : A → M S E B) s :
  (m ≫= k) s =
  match m s with (Ok a, s') => k a s' | (Err e, s') => (Err e, s') end.
Proof. done. Qed.

Lemma run_bind_Ok {A B} (m : M S E A) (k : A → M S E B) s a s' :
  m s = (Ok a, s') → (m ≫= k) s = k a s'.
Proof. intros H. by rewrite run_bind H. Qed.

Lemma run_bind_Err {A B} (m : M S E A) (k : A → M S E B) s e s' :
  m s = (Err e, s') → (m ≫= k) s = (Err e, s').
Proof. intros H. by rewrite run_bind H. Qed.

Lemma run_lift_Ok {A B} (a : A) (k : A → M S E B) s :
  (lift (Ok a) ≫= k) s = k a s.
Proof. done. Qed.

Lemma run_lift_Err {A B} e (k : A → M S E B) s :
  (lift (Err e) ≫= k) s = (Err e, s).
Proof. done. Qed.

Lemma run_when_true (m : M S E unit) s : when true m s = m s.
Proof. done. Qed.

Lemma run_when_false (m : M S E unit) s : when false m s = (Ok tt, s).
Proof. done. Qed.

Lemma forM__nil {A} (f : A → M S E unit) s : forM_ [] f s = (Ok tt, s).
Proof. done. Qed.

Lemma forM__cons {A} (f : A → M S E unit) x l s :
  forM_ (x :: l) f s =
  match f x s with (Ok _, s') => forM_ l f s' | (Err e, s') => (Err e, s') end.
Proof. done. Qed.

Lemma forM__app {A} (f : A → M S E unit) l1 l2 s :
  forM_ (l1 ++ l2) f s =
  match forM_ l1 f s with
  | (Ok _, s') => forM_ l2 f s'
  | (Err e, s') => (Err e, s')
  end.
Proof.
  revert s. induction l1 as [|x l1 IH]; intros s; [done|].
  cbn [app]. rewrite !forM__cons. destruct (f x s) as [[[]|e] s']; [apply IH|done].
Qed.

(** A loop whose bodies all succeed, each moving the state by [step]. *)
Lemma forM__Ok {A} (f : A → M S E unit) (step : A → S → S) l s :
  (∀ x s, x ∈ l → f x s = (Ok tt, step x s)) →
  forM_ l f s = (Ok tt, foldl (flip step) s l).
Proof.
  revert s. induction l as [|x l IH]; intros s H; [done|].
  rewrite forM__cons H; [|by left]. rewrite IH; [done|].
  intros y s' ?. apply H. by right.
Qed.

(** An invariant of the state that every body keeps, whatever it returns,
    holds when the loop ends. *)
Lemma forM__invariant {A} (P : S → Prop) (f : A → M S E unit) l s :
  (∀ x s, x ∈ l → P s → P (f x s).2) → P s → P (forM_ l f s).2.
Proof.
  revert s. induction l as [|x l IH]; intros s H Hs; [done|].
  rewrite forM__cons. pose proof (H x s ltac:(by left) Hs) as Hx.
  destruct (f x s) as [[[]|e] s']; simpl in *; [|done].
  apply IH; [|done]. intros y s'' ?. apply H. by right.
Qed.
End monad.

#[export] Hint Rewrite @run_ret @run_lift_Ok @run_lift_Err
  @run_when_true @run_when_false @forM__nil : go.
