(* ===== verification/GoString.v ===== *)
(** * Go strings

    A Go [string] is a sequence of bytes; it is modelled as [string], a
    list of [ascii] (8-bit) characters.  This file holds the characters and
    the string functions the handler uses ([strings.HasPrefix], [+], [len])
    with their lemmas, and the predicates on characters that the table
    writer gives a meaning to. *)

From Stdlib Require Import Ascii ZArith DecimalString.
From stdpp Require Import ssreflect base tactics option list strings numbers.
From S2P Require Import Prelude.

Set Default Proof Using "Type".
Set Warnings "-rewrite-rw,-clear-no-such-hyp".

(** ** Characters *)

Definition TAB : ascii := "009"%char.   (* '\t' *)
Definition NL  : ascii := "010"%char.   (* '\n' *)
Definition VT  : ascii := "011"%char.   (* '\v' *)
Definition FF  : ascii := "012"%char.   (* '\f' *)
Definition ESC : ascii := "255"%char.   (* tabwriter.Escape, '\xff' *)

Declare Scope gostr_scope.
Delimit Scope gostr_scope with gostr.
Notation "'\t'" := (String TAB EmptyString) : gostr_scope.
Notation "'\n'" := (String NL EmptyString) : gostr_scope.
#[global] Open Scope gostr_scope.

(** ** Functions of package strings *)

(** [strings.HasPrefix(s, prefix)]. *)
Definition HasPrefix (s prefix : string) : bool := String.prefix prefix s.

(** [strings.Join(l, "")], the text of a sequence of writes. *)
Definition concat_str (l : list string) : string := foldr String.app "" l.

Fixpoint count_char (c : ascii) (s : string) : nat :=
  match s with
  | EmptyString => 0
  | String a s' => (if decide (a = c) then 1 else 0) + count_char c s'
  end.

Fixpoint all_chars (P : ascii → bool) (s : string) : bool :=
  match s with
  | EmptyString => true
  | String a s' => P a && all_chars P s'
  end.

(** [cut c s]: the text before and after the first [c] of [s], as
    [strings.SplitN(s, c, 2)] gives them when [c] occurs in [s]. *)
Fixpoint cut (c : ascii) (s : string) : option (string * string) :=
  match s with
  | EmptyString => None
  | String a s' =>
      if decide (a = c) then Some (EmptyString, s')
      else match cut c s' with
           | Some (l, r) => Some (String a l, r)
           | None => None
           end
  end.

(** [cut_last c s]: the same around the last [c] of [s]. *)
Fixpoint cut_last (c : ascii) (s : string) : option (string * string) :=
  match s with
  | EmptyString => None
  | String a s' =>
      match cut_last c s' with
      | Some (l, r) => Some (String a l, r)
      | None => if decide (a = c) then Some (EmptyString, s') else None
      end
  end.

(** [strconv.Itoa]: the decimal text of an integer. *)
Definition Itoa (z : Z) : string := NilZero.string_of_int (Z.to_int z).

(** The characters [text/tabwriter] interprets when its flags are 0: the
    cell and line terminators and the escape character. *)
Definition special (a : ascii) : bool :=
  bool_decide (a = TAB) || bool_decide (a = VT) || bool_decide (a = NL)
  || bool_decide (a = FF) || bool_decide (a = ESC).

(** A string the writer takes as the text of one cell. *)
Definition plain (s : string) : bool := all_chars (λ a, negb (special a)) s.

(** ** Lemmas *)

Section strings.
Implicit Types (s p r : string) (a c : ascii).

Lemma str_app_nil_l s : "" +:+ s = s.
Proof. done. Qed.

Lemma str_app_cons a s p : String a s +:+ p = String a (s +:+ p).
Proof. done. Qed.

Lemma str_app_nil_r s : s +:+ "" = s.
Proof. induction s as [|a s IH]; [done|]. by rewrite str_app_cons IH. Qed.

Lemma str_app_assoc s p r : (s +:+ p) +:+ r = s +:+ (p +:+ r).
Proof. induction s as [|a s IH]; [done|]. by rewrite !str_app_cons IH. Qed.

Lemma str_length_app s p :
  String.length (s +:+ p) = String.length s + String.length p.
Proof. induction s as [|a s IH]; [done|]. by rewrite str_app_cons /= IH. Qed.

Lemma str_app_inv_nil s p : s +:+ p = "" → s = "" ∧ p = "".
Proof. by destruct s. Qed.

(** [HasPrefix s p] holds exactly when [s] is [p] followed by a rest. *)
Lemma HasPrefix_spec s p : HasPrefix s p = true ↔ ∃ r, s = p +:+ r.
Proof.
  rewrite /HasPrefix. revert s. induction p as [|a p IH]; intros s.
  - split; [by exists s|by destruct s].
  - destruct s as [|b s]; [split; [done|by intros [? ?]]|]. simpl.
    destruct (Ascii.ascii_dec a b) as [->|Hne].
    + rewrite IH. split; intros [r Hr]; exists r; [by rewrite str_app_cons Hr|].
      rewrite str_app_cons in Hr. by simplify_eq.
    + split; [done|]. intros [r Hr]. rewrite str_app_cons in Hr. by simplify_eq.
Qed.

Lemma HasPrefix_app p r : HasPrefix (p +:+ r) p = true.
Proof. apply HasPrefix_spec. by exists r. Qed.

Lemma HasPrefix_false s p : HasPrefix s p = false ↔ ∀ r, s ≠ p +:+ r.
Proof.
  rewrite -not_true_iff_false HasPrefix_spec. split.
  - intros H r ->. apply H. by exists r.
  - intros H [r ->]. by apply (H r).
Qed.

Lemma HasPrefix_refl s : HasPrefix s s = true.
Proof. apply HasPrefix_spec. exists "". by rewrite str_app_nil_r. Qed.

Lemma concat_str_app (l1 l2 : list string) :
  concat_str (l1 ++ l2) = concat_str l1 +:+ concat_str l2.
Proof.
  induction l1 as [|s l1 IH]; [done|].
  by rewrite /= IH str_app_assoc.
Qed.

Lemma count_char_app c s p :
  count_char c (s +:+ p) = count_char c s + count_char c p.
Proof. induction s as [|a s IH]; [done|]. rewrite str_app_cons /= IH. lia. Qed.

Lemma all_chars_app P s p :
  all_chars P (s +:+ p) = all_chars P s && all_chars P p.
Proof. induction s as [|a s IH]; [done|]. by rewrite str_app_cons /= IH andb_assoc. Qed.

Lemma all_chars_impl (P Q : ascii → bool) s :
  (∀ a, P a = true → Q a = true) → all_chars P s = true → all_chars Q s = true.
Proof.
  intros HPQ. induction s as [|a s IH]; [done|]. simpl.
  rewrite !andb_true_iff. intros [? ?]. auto.
Qed.

Lemma plain_app s p : plain (s +:+ p) = plain s && plain p.
Proof. apply all_chars_app. Qed.

Lemma plain_cons a s : plain (String a s) = negb (special a) && plain s.
Proof. done. Qed.

(** A plain string holds none of the terminators. *)
Lemma plain_count c s : special c = true → plain s = true → count_char c s = 0.
Proof.
  intros Hc. induction s as [|a s IH]; [done|].
  rewrite plain_cons andb_true_iff negb_true_iff. intros [Ha Hs]. simpl.
  rewrite IH; [|done]. case_decide; [|done]. subst. by rewrite Hc in Ha.
Qed.

Lemma cut_Some c s l r :
  cut c s = Some (l, r) → s = l +:+ String c r ∧ count_char c l = 0.
Proof.
  revert l. induction s as [|a s IH]; intros l; simpl; [done|].
  case_decide as Ha; [intros [= <- <-]; by subst|].
  destruct (cut c s) as [[l' r']|]; [|done]. intros [= <- <-].
  destruct (IH l' eq_refl) as [-> Hl]. rewrite str_app_cons /= Hl.
  split; [done|]. by case_decide.
Qed.

Lemma cut_None c s : cut c s = None ↔ count_char c s = 0.
Proof.
  induction s as [|a s IH]; simpl; [done|].
  case_decide; [split; [done|lia]|].
  destruct (cut c s) as [[l r]|]; simpl.
  - split; [done|]. intros H0. by apply IH in H0.
  - split; [intros _; by apply IH|done].
Qed.

Lemma cut_last_Some c s l r :
  cut_last c s = Some (l, r) → s = l +:+ String c r ∧ count_char c r = 0.
Proof.
  revert l. induction s as [|a s IH]; intros l; simpl; [done|].
  destruct (cut_last c s) as [[l' r']|] eqn:Hs.
  - intros [= <- <-]. destruct (IH l' eq_refl) as [-> Hr]. by rewrite str_app_cons.
  - case_decide; [|done]. intros [= <- <-]. subst. split; [done|].
    clear IH. induction s as [|b s IH]; [done|]. simpl in *.
    destruct (cut_last c s) as [[??]|]; [done|]. case_decide; [done|]. by rewrite IH.
Qed.

Lemma all_chars_cut P c s l r :
  cut c s = Some (l, r) → all_chars P s = true →
  all_chars P l = true ∧ all_chars P r = true.
Proof.
  intros [-> _]%cut_Some. rewrite all_chars_app /= !andb_true_iff. tauto.
Qed.

Lemma all_chars_cut_last P c s l r :
  cut_last c s = Some (l, r) → all_chars P s = true →
  all_chars P l = true ∧ all_chars P r = true.
Proof.
  intros [-> _]%cut_last_Some. rewrite all_chars_app /= !andb_true_iff. tauto.
Qed.

Lemma string_of_uint_plain d : plain (NilEmpty.string_of_uint d) = true.
Proof. induction d; by rewrite /= ?plain_cons ?IHd. Qed.

Lemma Itoa_plain z : plain (Itoa z) = true.
Proof.
  rewrite /Itoa. destruct (Z.to_int z) as [d|d]; simpl;
    destruct d; by rewrite /= ?plain_cons ?string_of_uint_plain.
Qed.

Lemma special_TAB : special TAB = true.  Proof. done. Qed.
Lemma special_NL : special NL = true.  Proof. done. Qed.
Lemma special_VT : special VT = true.  Proof. done. Qed.
Lemma special_FF : special FF = true.  Proof. done. Qed.
Lemma special_ESC : special ESC = true.  Proof. done. Qed.
End strings.

#[export] Hint Rewrite str_app_nil_l str_app_cons str_app_nil_r str_app_assoc str_length_app
  count_char_app plain_app concat_str_app : go.
#[export] Hint Resolve HasPrefix_app HasPrefix_refl special_TAB special_NL
  special_VT special_FF special_ESC Itoa_plain : go.
