(* ===== verification/Utf8.v ===== *)
(** * Runes

    The table writer measures the text of a cell in runes, not in bytes:
    [utf8.RuneCount].  A rune is a well-formed UTF-8 encoding of one to
    four bytes; every byte that does not start one, or whose encoding is
    cut short or ill-formed, counts as one rune by itself.  This file holds
    that count with its bounds, and the fact that for ASCII text it is the
    length. *)

From Stdlib Require Import Ascii ZArith NArith Lia.
From stdpp Require Import ssreflect base tactics option list strings numbers.
From S2P Require Import Prelude GoString.

Set Default Proof Using "Type".
Set Warnings "-rewrite-rw,-clear-no-such-hyp".

(** ** Bytes *)

(** The value of a byte. *)
Definition byte (a : ascii) : N := N_of_ascii a.

Definition in_range (lo hi : N) (a : ascii) : bool :=
  (lo <=? byte a)%N && (byte a <=? hi)%N.

(** The bytes below [utf8.RuneSelf] are runes by themselves. *)
Definition is_ascii (a : ascii) : bool := (byte a <? 0x80)%N.

(** A continuation byte, [10xxxxxx]. *)
Definition cont (a : ascii) : bool := in_range 0x80 0xBF a.

(** For the first byte of an encoding, its length and the range its second
    byte must be in (the tables [first] and [acceptRanges] of
    unicode/utf8); [None] for a byte that starts none.  The ranges of [E0],
    [ED], [F0] and [F4] exclude the encodings that are too long for their
    value, the surrogates, and the values above [utf8.MaxRune]. *)
Definition first (a : ascii) : option (nat * N * N) :=
  let b := byte a in
  if (b <? 0xC2)%N then None
  else if (b <? 0xE0)%N then Some (2, 0x80%N, 0xBF%N)
  else if (b =? 0xE0)%N then Some (3, 0xA0%N, 0xBF%N)
  else if (b =? 0xED)%N then Some (3, 0x80%N, 0x9F%N)
  else if (b <? 0xF0)%N then Some (3, 0x80%N, 0xBF%N)
  else if (b =? 0xF0)%N then Some (4, 0x90%N, 0xBF%N)
  else if (b <? 0xF4)%N then Some (4, 0x80%N, 0xBF%N)
  else if (b =? 0xF4)%N then Some (4, 0x80%N, 0x8F%N)
  else None.

(** ** Decoding *)

(** The number of bytes [utf8.DecodeRuneInString] takes from the front of
    a text that is not empty: the length of the encoding there when it is
    well formed, and 1 otherwise. *)
Definition rune_size (s : string) : nat :=
  match s with
  | EmptyString => 0
  | String c0 t =>
      if is_ascii c0 then 1 else
      match first c0, t with
      | Some (size, lo, hi), String c1 t1 =>
          if negb (in_range lo hi c1) then 1
          else if decide (size = 2) then 2
          else match t1 with
               | String c2 t2 =>
                   if negb (cont c2) then 1
                   else if decide (size = 3) then 3
                   else match t2 with
                        | String c3 _ => if cont c3 then 4 else 1
                        | EmptyString => 1
                        end
               | EmptyString => 1
               end
      | _, _ => 1
      end
  end.

(** The runes of [s] after its first [skip] bytes, which belong to a rune
    already counted. *)
Fixpoint RuneCount_from (skip : nat) (s : string) : nat :=
  match s with
  | EmptyString => 0
  | String _ s' =>
      match skip with
      | S k => RuneCount_from k s'
      | 0 => S (RuneCount_from (rune_size s - 1) s')
      end
  end.

(** [utf8.RuneCount(p)], [utf8.RuneCountInString(s)]. *)
Definition RuneCount (s : string) : nat := RuneCount_from 0 s.

(** ** Lemmas *)

Section utf8.
Implicit Types (s : string) (a : ascii).

Lemma rune_size_bounds a s : 1 ≤ rune_size (String a s) ≤ 4.
Proof.
  rewrite /rune_size. destruct (is_ascii a); [lia|].
  destruct (first a) as [[[size lo] hi]|]; [|lia].
  repeat (case_match; try lia).
Qed.

Lemma rune_size_ascii a s : is_ascii a = true → rune_size (String a s) = 1.
Proof. rewrite /rune_size. by intros ->. Qed.

Lemma RuneCount_from_le skip s : RuneCount_from skip s ≤ String.length s.
Proof.
  revert skip. induction s as [|a s IH]; intros skip; [done|].
  destruct skip as [|k]; cbn [RuneCount_from String.length].
  - pose proof (IH (rune_size (String a s) - 1)). lia.
  - pose proof (IH k). lia.
Qed.

Lemma RuneCount_from_ge skip s :
  String.length s ≤ skip + 4 * RuneCount_from skip s.
Proof.
  revert skip. induction s as [|a s IH]; intros skip; [simpl; lia|].
  destruct skip as [|k]; cbn [RuneCount_from String.length].
  - pose proof (IH (rune_size (String a s) - 1)).
    pose proof (rune_size_bounds a s). lia.
  - pose proof (IH k). lia.
Qed.

Lemma RuneCount_le_length s : RuneCount s ≤ String.length s.
Proof. apply RuneCount_from_le. Qed.

(** In ASCII text every byte is a rune. *)
Lemma RuneCount_ascii s : all_chars is_ascii s = true → RuneCount s = String.length s.
Proof.
  rewrite /RuneCount. induction s as [|a s IH]; [done|].
  cbn [all_chars RuneCount_from String.length]. rewrite andb_true_iff.
  intros [Ha Hs]. by rewrite rune_size_ascii // IH.
Qed.

(** An ASCII byte is no continuation byte and in none of the ranges of a
    second byte. *)
Lemma ascii_not_cont a : is_ascii a = true → cont a = false.
Proof.
  rewrite /is_ascii /cont /in_range N.ltb_lt. intros Ha.
  apply andb_false_iff. left. apply N.leb_gt. lia.
Qed.

Lemma ascii_not_second c0 size lo hi a :
  first c0 = Some (size, lo, hi) → is_ascii a = true → in_range lo hi a = false.
Proof.
  rewrite /is_ascii /in_range N.ltb_lt /first. intros Hfirst Ha.
  apply andb_false_iff. left. apply N.leb_gt.
  repeat case_match; simplify_eq; lia.
Qed.

Lemma rune_size_le_length s : rune_size s ≤ String.length s.
Proof.
  destruct s as [|c0 t]; [done|]. rewrite /rune_size.
  destruct (is_ascii c0); [simpl; lia|].
  destruct (first c0) as [[[size lo] hi]|]; [|simpl; lia].
  repeat (case_match; simpl; try lia).
Qed.

(** An ASCII byte after a text does not change how the text is decoded:
    an encoding that it cuts short is ill-formed with it and without. *)
Lemma rune_size_app_ascii s a t :
  s ≠ "" → is_ascii a = true → rune_size (s +:+ String a t) = rune_size s.
Proof.
  intros Hs Ha. destruct s as [|c0 s]; [done|]. rewrite str_app_cons /rune_size.
  destruct (is_ascii c0); [done|].
  destruct (first c0) as [[[size lo] hi]|] eqn:Hfirst; [|by destruct s].
  destruct s as [|c1 s]; [by rewrite /= (ascii_not_second c0 size lo hi a)|].
  rewrite str_app_cons. destruct (in_range lo hi c1); [|done]. simpl.
  case_decide; [done|].
  destruct s as [|c2 s]; [by rewrite /= ascii_not_cont|].
  rewrite str_app_cons. destruct (cont c2); [|done]. simpl.
  case_decide; [done|].
  destruct s as [|c3 s]; [by rewrite /= ascii_not_cont|done].
Qed.

Lemma RuneCount_from_app_ascii skip s a t :
  skip ≤ String.length s → is_ascii a = true →
  RuneCount_from skip (s +:+ String a t) = RuneCount_from skip s + RuneCount (String a t).
Proof.
  intros Hskip Ha. revert skip Hskip.
  induction s as [|c0 s IH]; intros skip Hskip.
  { by replace skip with 0 by (simpl in *; lia). }
  rewrite str_app_cons. destruct skip as [|k]; cbn [RuneCount_from String.length] in *.
  - rewrite -str_app_cons rune_size_app_ascii // IH //.
    pose proof (rune_size_le_length (String c0 s)). simpl in *. lia.
  - apply IH. lia.
Qed.

(** The runes of a text followed by text that starts with an ASCII byte
    are those of the two. *)
Lemma RuneCount_app_ascii s a t :
  is_ascii a = true → RuneCount (s +:+ String a t) = RuneCount s + RuneCount (String a t).
Proof. intros Ha. apply RuneCount_from_app_ascii; [lia|done]. Qed.

Lemma RuneCount_nil : RuneCount "" = 0.
Proof. done. Qed.

End utf8.

#[export] Hint Resolve RuneCount_le_length : go.
#[export] Hint Rewrite RuneCount_nil : go.

(** ** Evaluation *)

(** Two, three and four bytes that encode one rune; an encoding that is
    too long for its value, a surrogate and a lone continuation byte,
    where every byte counts. *)
Example RuneCount_examples :
  RuneCount (String "195" (String "169" "")) = 1
  ∧ RuneCount (String "226" (String "130" (String "172" ""))) = 1
  ∧ RuneCount (String "240" (String "159" (String "152" (String "128" "")))) = 1
  ∧ RuneCount ("a" +:+ String "195" (String "169" "") +:+ "b") = 3
  ∧ RuneCount (String "192" (String "128" "")) = 2
  ∧ RuneCount (String "237" (String "160" (String "128" ""))) = 3
  ∧ RuneCount (String "226" (String "130" "")) = 2
  ∧ RuneCount (String "128" "") = 1
  ∧ RuneCount (String ESC "") = 1.
Proof. by vm_compute. Qed.
