(* ===== verification/Externals.v ===== *)
(** * The collaborators of the handler

    What [CmdImages] reads and calls but does not define: the records of
    api/types, the named references of distribution/reference, the
    durations of package time, the conversion of an integer to [float64],
    and the operations of the other packages, gathered in the class
    [Collab].  The handler and its theorems are
    stated over any instance of [Collab]; [CollabPlain] states what the
    theorems on the shape of the table assume of an instance. *)

From Stdlib Require Import Ascii ZArith Lia.
From stdpp Require Import ssreflect base tactics option list strings numbers.
From S2P Require Import Prelude GoString.

Set Default Proof Using "Type".
Set Warnings "-rewrite-rw,-clear-no-such-hyp".

(** ** Records of api/types *)

(** [types.Image], the fields the handler reads.  [Created] is in seconds
    since the Unix epoch, [Size] in bytes; both are 64-bit integers. *)
Record Image := {
  ID : string;
  RepoTags : list string;
  RepoDigests : list string;
  Created : Z;
  Size : Z;
}.

(** [types.ImageListOptions]; [Args] is [filters.Args]. *)
Record ImageListOptions (Args : Type) := {
  MatchName : string;
  All : bool;
  Filters : Args;
}.
Arguments MatchName {Args} _.
Arguments All {Args} _.
Arguments Filters {Args} _.

(** ** Named references *)

(** A value of interface type [reference.Named]: its [Name()], and what
    the type assertions to [reference.Tagged] and [reference.Digested]
    give: [Some] of the result of [Tag()], of [Digest().String()], when
    the dynamic type has the method, [None] otherwise.  Nothing excludes a
    value with both methods, or with neither. *)
Record Named := {
  Name : string;
  asTagged : option string;
  asDigested : option string;
}.

(** ** Integers and durations *)

Definition int64_min : Z := - 2 ^ 63.
Definition int64_max : Z := 2 ^ 63 - 1.
Definition is_int64 (z : Z) : Prop := (int64_min ≤ z ≤ int64_max)%Z.

#[export] Instance is_int64_dec z : Decision (is_int64 z).
Proof. rewrite /is_int64. apply _. Defined.

(** Nanoseconds per second, [time.Second]. *)
Definition Second : Z := 1000000000.

(** An instant is its number of nanoseconds since the Unix epoch.
    [time.Unix(sec, nsec)].  Go keeps an instant as 64-bit seconds since
    the year 1 and nanoseconds; the unbounded number is the same instant
    as long as these seconds do not wrap, that is for [sec] below
    2^63 - 62135596800. *)
Definition time_Unix (sec nsec : Z) : Z := (sec * Second + nsec)%Z.

(** [t.Sub(u)]: the difference as a [time.Duration], a 64-bit count of
    nanoseconds; a difference out of range is replaced by the nearest
    bound. *)
Definition time_Sub (t u : Z) : Z :=
  let d := (t - u)%Z in
  if decide (d < int64_min)%Z then int64_min
  else if decide (int64_max < d)%Z then int64_max
  else d.

(** ** [float64(n)] of an integer *)

(** A [float64] has a mantissa of 53 bits.  The conversion of an integer
    rounds to the nearest value that has one, and to the one with the
    even mantissa when two are as near.  From 2^53 on these values are
    integers, so [float64(n)] is an integer for every integer [n], and
    the model is that integer.  [e] is the number of low bits of the
    magnitude that the mantissa has no room for, [q] the bits it keeps
    and [r] the bits it drops. *)
Definition float64_of_int64 (n : Z) : Z :=
  let a := Z.abs n in
  let e := (Z.log2 a - 52)%Z in
  if decide (e ≤ 0)%Z then n
  else
    let q := Z.shiftr a e in
    let r := Z.land a (Z.ones e) in
    let half := Z.shiftl 1 (e - 1) in
    let q' := if decide (half < r ∨ r = half ∧ Z.odd q = true)%Z then (q + 1)%Z else q in
    (Z.sgn n * Z.shiftl q' e)%Z.

(** The integers that a [float64] holds: a mantissa of 53 bits at most
    times a power of two. *)
Definition representable (x : Z) : Prop :=
  ∃ m e : Z, (0 ≤ e)%Z ∧ (0 ≤ m < 2 ^ 53)%Z ∧ Z.abs x = (m * 2 ^ e)%Z.

(** ** Operations *)

Class Collab := {
  (** Go's [error] values. *)
  error : Type;
  (** [filters.Args], [filters.NewArgs()] and [filters.ParseFlag(arg, prev)]. *)
  Args : Type;
  NewArgs : Args;
  ParseFlag : string → Args → outcome error Args;
  (** [cli.client.ImageList(options)]. *)
  ImageList : ImageListOptions Args → outcome error (list Image);
  (** [reference.ParseNamed(s)]. *)
  ParseNamed : string → outcome error Named;
  (** [stringid.TruncateID(id)]. *)
  TruncateID : string → string;
  (** [units.HumanDuration(d)], [d] in nanoseconds. *)
  HumanDuration : Z → string;
  (** [units.HumanSize(size)] for a [size] that is an integer, as all
      results of [float64_of_int64] are. *)
  HumanSize : Z → string;
  (** [time.Now().UTC()] at the k-th call, k from 0. *)
  Now : nat → Z;
}.

(** What the shape of the table depends on: the collaborators return text
    free of the characters the table writer interprets. *)
Class CollabPlain `{Collab} : Prop := {
  ParseNamed_Name_plain s n : ParseNamed s = Ok n → plain (Name n) = true;
  ParseNamed_Tag_plain s n t :
    ParseNamed s = Ok n → asTagged n = Some t → plain t = true;
  ParseNamed_Digest_plain s n d :
    ParseNamed s = Ok n → asDigested n = Some d → plain d = true;
  TruncateID_plain id : plain id = true → plain (TruncateID id) = true;
  HumanDuration_plain d : plain (HumanDuration d) = true;
  HumanSize_plain x : plain (HumanSize x) = true;
}.

(** ** Lemmas on durations *)

Lemma time_Sub_is_int64 t u : is_int64 (time_Sub t u).
Proof. rewrite /time_Sub /is_int64 /int64_min /int64_max. repeat case_decide; lia. Qed.

Lemma time_Sub_exact t u : is_int64 (t - u) → time_Sub t u = (t - u)%Z.
Proof. rewrite /time_Sub /is_int64. intros ?. repeat case_decide; lia. Qed.

Lemma time_Sub_mono t t' u : (t ≤ t')%Z → (time_Sub t u ≤ time_Sub t' u)%Z.
Proof. rewrite /time_Sub /int64_min /int64_max. intros ?. repeat case_decide; lia. Qed.

#[export] Hint Resolve time_Sub_is_int64 : go.

(** ** Lemmas on the conversion to [float64] *)

Section float64.
Local Open Scope Z_scope.
Implicit Types n a e : Z.

(** A magnitude [a] with [e] bits too many: the mantissa kept has 53
    bits, and shifts by [e] are products by twice the half unit [p]. *)
Lemma float64_parts a e :
  0 < e → e = Z.log2 a - 52 →
  ∃ p, 0 < p ∧ 2 ^ e = 2 * p ∧ Z.shiftl 1 (e - 1) = p
     ∧ (∀ x, Z.shiftl x e = 2 * p * x)
     ∧ a = 2 * p * Z.shiftr a e + Z.land a (Z.ones e)
     ∧ 0 ≤ Z.land a (Z.ones e) < 2 * p
     ∧ 2 ^ 52 ≤ Z.shiftr a e < 2 ^ 53.
Proof.
  intros He Hlog. exists (2 ^ (e - 1)).
  assert (0 < a) as Ha.
  { destruct (decide (a ≤ 0)) as [Hle%Z.log2_nonpos|]; lia. }
  assert (2 ^ e = 2 * 2 ^ (e - 1)) as Hp.
  { rewrite -Z.pow_succ_r; [|lia]. f_equal. lia. }
  assert (0 < 2 ^ (e - 1)) as Hpos by (apply Z.pow_pos_nonneg; lia).
  destruct (Z.log2_spec a Ha) as [Hlo Hhi].
  replace (Z.log2 a) with (52 + e) in Hlo by lia.
  replace (Z.succ (Z.log2 a)) with (53 + e) in Hhi by lia.
  rewrite !Z.pow_add_r in Hlo Hhi; [|lia..].
  rewrite Z.shiftr_div_pow2; [|lia]. rewrite Z.land_ones; [|lia].
  rewrite Z.shiftl_mul_pow2; [|lia]. rewrite -Hp.
  split; [done|]. split; [done|]. split; [lia|]. split.
  { intros x. rewrite Z.shiftl_mul_pow2; lia. }
  split; [apply Z.div_mod; lia|]. split; [apply Z.mod_pos_bound; lia|]. split.
  - apply Z.div_le_lower_bound; lia.
  - apply Z.div_lt_upper_bound; lia.
Qed.

Lemma float64_of_int64_small n : Z.abs n < 2 ^ 53 → float64_of_int64 n = n.
Proof.
  intros Hn. rewrite /float64_of_int64. case_decide as He; [done|].
  destruct (decide (Z.abs n ≤ 0)) as [Hle%Z.log2_nonpos|]; [lia|].
  apply Z.log2_lt_pow2 in Hn; lia.
Qed.

Lemma float64_of_int64_error n :
  2 ^ 53 * Z.abs (float64_of_int64 n - n) ≤ Z.abs n.
Proof.
  rewrite /float64_of_int64. case_decide as He; [lia|].
  destruct (float64_parts (Z.abs n) (Z.log2 (Z.abs n) - 52) ltac:(lia) eq_refl)
    as (p & Hp & _ & -> & -> & Ha & Hr & Hq).
  set (q := Z.shiftr _ _) in *. set (r := Z.land _ _) in *.
  assert (2 ^ 52 * p ≤ p * q) by nia.
  case_decide; destruct (Z.sgn_spec n) as [[? ->]|[[? ->]|[? ->]]]; lia.
Qed.

Lemma float64_of_int64_opp n : float64_of_int64 (- n) = - float64_of_int64 n.
Proof. rewrite /float64_of_int64 Z.abs_opp Z.sgn_opp. repeat case_decide; lia. Qed.

(** The result has the magnitude of a value with one bit more at most. *)
Lemma float64_of_int64_log2 n :
  Z.abs (float64_of_int64 n) ≤ Z.max (Z.abs n) (2 ^ (Z.log2 (Z.abs n) + 1)).
Proof.
  rewrite /float64_of_int64. case_decide as He; [lia|].
  destruct (float64_parts (Z.abs n) (Z.log2 (Z.abs n) - 52) ltac:(lia) eq_refl)
    as (p & Hp & Hpow & _ & -> & Ha & Hr & Hq).
  replace (Z.log2 (Z.abs n) + 1) with (53 + (Z.log2 (Z.abs n) - 52)) by lia.
  rewrite Z.pow_add_r; [|lia..]. rewrite Hpow.
  set (q := Z.shiftr _ _) in *.
  assert (p * q + p ≤ p * 2 ^ 53) by nia.
  case_decide; destruct (Z.sgn_spec n) as [[? ->]|[[? ->]|[? ->]]]; lia.
Qed.

Lemma float64_of_int64_range n : is_int64 n → Z.abs (float64_of_int64 n) ≤ 2 ^ 63.
Proof.
  rewrite /is_int64 /int64_min /int64_max. intros Hn.
  destruct (decide (n = - 2 ^ 63)) as [->|]; [by vm_compute|].
  pose proof (float64_of_int64_log2 n) as Hlog.
  destruct (decide (Z.abs n ≤ 0)) as [Hle|].
  { rewrite float64_of_int64_small; lia. }
  assert (Z.log2 (Z.abs n) < 63) by (apply Z.log2_lt_pow2; lia).
  assert (2 ^ (Z.log2 (Z.abs n) + 1) ≤ 2 ^ 63) by (apply Z.pow_le_mono_r; lia).
  lia.
Qed.

(** The result of a positive integer lies between the powers of two
    around the integer. *)
Lemma float64_of_int64_between n :
  0 < n → 2 ^ Z.log2 n ≤ float64_of_int64 n ≤ 2 ^ (Z.log2 n + 1).
Proof.
  intros Hn. destruct (Z.log2_spec n Hn) as [Hlo Hhi].
  rewrite -Z.add_1_r in Hhi. split.
  - rewrite /float64_of_int64 Z.abs_eq; [|lia]. case_decide as He; [done|].
    destruct (float64_parts n (Z.log2 n - 52) ltac:(lia) eq_refl)
      as (p & Hp & Hpow & _ & -> & Ha & Hr & Hq).
    replace (Z.log2 n) with (52 + (Z.log2 n - 52)) at 1 by lia.
    rewrite Z.pow_add_r; [|lia..]. rewrite Hpow Z.sgn_pos //.
    set (q := Z.shiftr _ _) in *. assert (2 ^ 52 * p ≤ p * q) by nia.
    case_decide; lia.
  - pose proof (float64_of_int64_log2 n) as Hlog.
    rewrite (Z.abs_eq n) in Hlog; [|lia]. lia.
Qed.

(** Two positive integers with the same number of bits: the mantissas
    kept are ordered as the integers, and so are the bits dropped when
    the mantissas are the same. *)
Lemma float64_of_int64_mono_bits a b :
  0 < a ≤ b → Z.log2 a = Z.log2 b → float64_of_int64 a ≤ float64_of_int64 b.
Proof.
  intros Hab Hlog. rewrite /float64_of_int64 !Z.abs_eq; [|lia..]. rewrite -Hlog.
  case_decide as He; [lia|].
  destruct (float64_parts a (Z.log2 a - 52) ltac:(lia) eq_refl)
    as (p & Hp & Hpow & -> & Hshl & Ha & Hra & Hqa).
  destruct (float64_parts b (Z.log2 a - 52) ltac:(lia) ltac:(lia))
    as (p' & _ & Hpow' & _ & _ & Hb & Hrb & Hqb).
  assert (p' = p) as -> by lia. rewrite !Hshl !Z.sgn_pos; [|lia..].
  set (qa := Z.shiftr a _) in *. set (ra := Z.land a _) in *.
  set (qb := Z.shiftr b _) in *. set (rb := Z.land b _) in *.
  clearbody qa ra qb rb. do 2 (apply Z.mul_le_mono_nonneg_l; [lia|]).
  destruct (decide (qa = qb)) as [->|Hq].
  - assert (ra ≤ rb) by lia. case_decide as Hca; case_decide as Hcb; try lia.
    exfalso. apply Hcb. destruct Hca as [?|[? ?]]; [left; lia|].
    destruct (decide (p < rb)); [by left|right; split; [lia|done]].
  - assert (qa < qb) by nia. repeat case_decide; lia.
Qed.

Lemma float64_of_int64_mono_pos a b :
  0 < a ≤ b → float64_of_int64 a ≤ float64_of_int64 b.
Proof.
  intros Hab. destruct (decide (Z.log2 a = Z.log2 b)) as [Hlog|Hlog].
  { by apply float64_of_int64_mono_bits. }
  assert (Z.log2 a ≤ Z.log2 b) by (apply Z.log2_le_mono; lia).
  pose proof (float64_of_int64_between a ltac:(lia)) as [_ Ha].
  pose proof (float64_of_int64_between b ltac:(lia)) as [Hb _].
  assert (2 ^ (Z.log2 a + 1) ≤ 2 ^ Z.log2 b) by (apply Z.pow_le_mono_r; lia).
  lia.
Qed.

(** The conversion keeps the order: of two sizes, the larger is never
    rounded to less than the smaller. *)
Lemma float64_of_int64_mono a b : a ≤ b → float64_of_int64 a ≤ float64_of_int64 b.
Proof.
  intros Hab.
  assert (∀ n, 0 < n → 0 < float64_of_int64 n) as Hpos.
  { intros n Hn. pose proof (float64_of_int64_between n Hn).
    assert (0 < 2 ^ Z.log2 n) by (apply Z.pow_pos_nonneg; [lia|apply Z.log2_nonneg]).
    lia. }
  assert (∀ n, n < 0 → float64_of_int64 n < 0) as Hneg.
  { intros n Hn. pose proof (Hpos (- n) ltac:(lia)) as Hn'.
    rewrite float64_of_int64_opp in Hn'. lia. }
  assert (float64_of_int64 0 = 0) as H0 by done.
  destruct (Z.lt_trichotomy a 0) as [Ha|[->|Ha]];
    destruct (Z.lt_trichotomy b 0) as [Hb|[->|Hb]]; try lia.
  - pose proof (float64_of_int64_mono_pos (- b) (- a) ltac:(lia)) as Hm.
    rewrite !float64_of_int64_opp in Hm. lia.
  - pose proof (Hneg a Ha). lia.
  - pose proof (Hneg a Ha). pose proof (Hpos b Hb). lia.
  - pose proof (Hpos b Hb). lia.
  - by apply float64_of_int64_mono_pos.
Qed.

(** ** The conversion rounds to the nearest value, ties to even *)

Lemma representable_opp x : representable x → representable (- x).
Proof. intros (m & e & ? & ? & Hx). exists m, e. by rewrite Z.abs_opp. Qed.

Lemma representable_small x : Z.abs x < 2 ^ 53 → representable x.
Proof. intros Hx. exists (Z.abs x), 0. rewrite Z.pow_0_r. lia. Qed.

(** A value with a mantissa of 53 bits that has 53 + e bits or more is a
    multiple of 2^e. *)
Lemma representable_multiple y e :
  0 ≤ e → representable y → 2 ^ (52 + e) ≤ y → ∃ k, y = 2 ^ e * k.
Proof.
  intros He (m & e' & He' & Hm & Hy) Hle.
  assert (0 < 2 ^ (52 + e)) by (apply Z.pow_pos_nonneg; lia).
  rewrite Z.abs_eq in Hy; [|lia]. destruct (decide (e ≤ e')) as [Hee|Hee].
  - exists (m * 2 ^ (e' - e)). rewrite Hy. replace e' with (e + (e' - e)) at 1 by lia.
    rewrite Z.pow_add_r; lia.
  - exfalso. assert (2 ^ e' ≤ 2 ^ (e - 1)) by (apply Z.pow_le_mono_r; lia).
    assert (0 < 2 ^ e') by (apply Z.pow_pos_nonneg; lia).
    assert (2 ^ (52 + e) = 2 ^ 53 * 2 ^ (e - 1)) as Heq.
    { rewrite -Z.pow_add_r; [|lia..]. f_equal. lia. }
    nia.
Qed.

(** The result has a mantissa of 53 bits. *)
Lemma float64_of_int64_representable n : representable (float64_of_int64 n).
Proof.
  rewrite /float64_of_int64. case_decide as He.
  { apply representable_small. destruct (decide (Z.abs n ≤ 0)); [lia|].
    destruct (Z.log2_spec (Z.abs n)) as [_ Hhi]; [lia|].
    assert (2 ^ Z.succ (Z.log2 (Z.abs n)) ≤ 2 ^ 53) by (apply Z.pow_le_mono_r; lia). lia. }
  destruct (float64_parts (Z.abs n) (Z.log2 (Z.abs n) - 52) ltac:(lia) eq_refl)
    as (p & Hp & Hpow & -> & Hshl & Ha & Hr & Hq).
  assert (n ≠ 0) as Hn by (intros ->; by apply He).
  rewrite Hshl. set (q := Z.shiftr _ _) in *. clearbody q.
  set (q' := if decide _ then _ else _). assert (q' = q ∨ q' = q + 1) as Hq'.
  { rewrite /q'. case_decide; auto. }
  assert (Z.abs (Z.sgn n * (2 * p * q')) = q' * (2 * p)) as Habs.
  { destruct (Z.sgn_spec n) as [[? ->]|[[? ->]|[? ->]]]; nia. }
  clearbody q'. destruct (decide (q' < 2 ^ 53)).
  - exists q', (Z.log2 (Z.abs n) - 52). rewrite Hpow Habs. split; [lia|]. split; lia.
  - exists (2 ^ 52), (Z.log2 (Z.abs n) - 52 + 1).
    rewrite Z.pow_add_r; [|lia..]. rewrite Hpow Habs. split; [lia|]. split; [lia|].
    assert (q' = 2 ^ 53) as -> by lia. change (2 ^ 53) with (2 * 2 ^ 52). lia.
Qed.

(** A positive integer: no value with a mantissa of 53 bits lies nearer
    than the result, and when another one lies as near, the result is
    the one with the even mantissa, an even multiple of their distance. *)
Lemma float64_of_int64_nearest_pos n y :
  0 < n → representable y →
  Z.abs (float64_of_int64 n - n) ≤ Z.abs (y - n)
  ∧ (y ≠ float64_of_int64 n → Z.abs (y - n) = Z.abs (float64_of_int64 n - n) →
     ∃ k, float64_of_int64 n = 2 * k * (float64_of_int64 n - y)).
Proof.
  intros Hn Hy. rewrite /float64_of_int64 (Z.abs_eq n); [|lia]. case_decide as He.
  { split; [lia|]. intros Hne Htie. lia. }
  destruct (float64_parts n (Z.log2 n - 52) ltac:(lia) eq_refl)
    as (p & Hp & Hpow & -> & Hshl & Ha & Hr & Hq).
  rewrite !Hshl Z.sgn_pos //.
  set (q := Z.shiftr _ _) in *. set (r := Z.land _ _) in *. clearbody q r.
  assert (y ≤ 2 * p * q ∨ 2 * p * (q + 1) ≤ y) as Hy'.
  { destruct (decide (y ≤ 2 * p * q)) as [|Hgt]; [by left|right].
    destruct (representable_multiple y (Z.log2 n - 52)) as [k Hk]; [lia|done| |].
    - rewrite Z.pow_add_r; [|lia..]. rewrite Hpow. nia.
    - rewrite Hpow in Hk. assert (q < k) by nia. nia. }
  case_decide as Hup.
  - split; [lia|]. intros Hne Htie. destruct Hup as [Hup|[-> Hodd]]; [exfalso; lia|].
    apply Z.odd_spec in Hodd as [j ->]. exists (j + 1). nia.
  - assert (r ≤ p) by lia. split; [lia|]. intros Hne Htie.
    assert (r = p) as -> by lia. assert (Z.even q = true) as [j ->]%Z.even_spec.
    { rewrite -Z.negb_odd. destruct (Z.odd q); [|done]. exfalso. apply Hup. by right. }
    exists (- j). nia.
Qed.

Lemma float64_of_int64_nearest n y :
  representable y →
  Z.abs (float64_of_int64 n - n) ≤ Z.abs (y - n)
  ∧ (y ≠ float64_of_int64 n → Z.abs (y - n) = Z.abs (float64_of_int64 n - n) →
     ∃ k, float64_of_int64 n = 2 * k * (float64_of_int64 n - y)).
Proof.
  intros Hy. destruct (Z.lt_trichotomy n 0) as [Hn|[->|Hn]].
  - destruct (float64_of_int64_nearest_pos (- n) (- y)) as [Hle Htie];
      [lia|by apply representable_opp|].
    rewrite float64_of_int64_opp in Hle Htie. split; [lia|]. intros Hne Heq.
    destruct Htie as [k Hk]; [lia..|]. exists k. lia.
  - change (float64_of_int64 0) with 0. split; [lia|]. intros; lia.
  - by apply float64_of_int64_nearest_pos.
Qed.

End float64.

#[export] Hint Resolve float64_of_int64_range float64_of_int64_mono
  float64_of_int64_representable : go.

(** The first integer that does not fit is rounded to the even mantissa
    below it, the one after it upwards; the largest 64-bit integer
    becomes 2^63. *)
Example float64_of_int64_ties :
  float64_of_int64 (2 ^ 53 + 1) = (2 ^ 53)%Z
  ∧ float64_of_int64 (2 ^ 53 + 3) = (2 ^ 53 + 4)%Z
  ∧ float64_of_int64 int64_max = (2 ^ 63)%Z.
Proof. by vm_compute. Qed.
