(* ===== verification/Instances.v ===== *)
(** * A test instance of the collaborators

    The theorems of the development hold for every instance of [Collab].
    This file builds one instance on which the handler can be evaluated, so
    that the theorems with hypotheses have concrete inputs: a reference
    parser for the forms [name], [name:tag], [name@digest] and
    [name:tag@digest] over a fixed alphabet, an id shortener that keeps the
    first 12 characters, and simple stand-ins for the filter parser and the
    two formatters of package units.  The stand-ins are test fixtures, not
    models of those packages; [testCollab_plain] shows that the instance
    meets [CollabPlain].  The records [img_foo] and [img_bad] and the
    instances [tc], [tc_const], [tc_bad] and [tc_down] are the inputs of
    the examples of the later files. *)

From Stdlib Require Import Ascii ZArith Lia.
From stdpp Require Import ssreflect base tactics option list strings numbers.
From S2P Require Import Prelude GoString Externals.

Set Default Proof Using "Type".
Set Warnings "-rewrite-rw,-clear-no-such-hyp".

(** ** Reference strings *)

(** The alphabet of the test parser: letters, digits and [. _ - / : + @]. *)
Definition refchar (a : ascii) : bool :=
  let n := nat_of_ascii a in
  (48 <=? n) && (n <=? 57) || (65 <=? n) && (n <=? 90)
  || (97 <=? n) && (n <=? 122)
  || bool_decide (a ∈ ["."; "_"; "-"; "/"; ":"; "+"; "@"]%char).

(** The name and the tag of [name] or [name:tag]: the tag follows the last
    colon of the last path component. *)
Definition splitTag (s : string) : string * option string :=
  let '(dir, last) :=
    match cut_last "/" s with
    | Some (d, l) => (d +:+ "/", l)
    | None => ("", s)
    end in
  match cut_last ":" last with
  | Some (nm, tg) => (dir +:+ nm, Some tg)
  | None => (s, None)
  end.

Definition testParseNamed (s : string) : outcome string Named :=
  if all_chars refchar s then
    let '(body, dg) :=
      match cut "@" s with
      | Some (b, d) => (b, Some d)
      | None => (s, None)
      end in
    let '(name, tg) := splitTag body in
    if decide (name = "" ∨ tg = Some "" ∨ dg = Some "")
    then Err "invalid reference format"
    else Ok {| Name := name; asTagged := tg; asDigested := dg |}
  else Err "invalid reference format".

(** ** Filters *)

(** A filter flag is kept as written when it has the form [name=value];
    the empty flag is skipped. *)
Definition testParseFlag (arg : string) (prev : list string) :
    outcome string (list string) :=
  if decide (arg = "") then Ok prev
  else match cut "=" arg with
       | Some _ => Ok (prev ++ [arg])
       | None => Err "bad format of filter (expected name=value)"
       end.

(** ** The instance *)

Definition testCollab
    (images : ImageListOptions (list string) → outcome string (list Image))
    (now : nat → Z) : Collab := {|
  error := string;
  Args := list string;
  NewArgs := [];
  ParseFlag := testParseFlag;
  ImageList := images;
  ParseNamed := testParseNamed;
  TruncateID := String.substring 0 12;
  HumanDuration := λ d, Itoa (d `div` Second) +:+ " seconds";
  HumanSize := λ z, Itoa z +:+ " B";
  Now := now;
|}.

(** A clock that starts at [t0] seconds and advances [step] seconds per
    reading. *)
Definition tick_clock (t0 step : Z) (k : nat) : Z :=
  time_Unix (t0 + step * Z.of_nat k) 0.

(** ** Records and instances the examples run on *)

(** A record with two tags and one digest. *)
Definition img_foo : Image :=
  {| ID := "sha256:0123456789abcdef0123"; RepoTags := ["library/foo:latest"; "foo:v1"];
     RepoDigests := ["foo@sha256:aa11"]; Created := 1000; Size := 1048576 |}.

(** A record whose second tag has no repository. *)
Definition img_bad : Image :=
  {| ID := "sha256:fedcba9876543210"; RepoTags := ["ok:v1"; ":latest"; "late:v2"];
     RepoDigests := []; Created := 2000; Size := 10 |}.

(** The daemon returns [img_foo]; the clock starts at 5000 s and advances
    one second per reading. *)
Definition tc : Collab := testCollab (λ _, Ok [img_foo]) (tick_clock 5000 1).
(** The daemon returns [img_foo]; the clock stands at 4600 s. *)
Definition tc_const : Collab := testCollab (λ _, Ok [img_foo]) (λ _, time_Unix 4600 0).
(** The daemon returns [img_foo] and then [img_bad]. *)
Definition tc_bad : Collab := testCollab (λ _, Ok [img_foo; img_bad]) (tick_clock 5000 1).
(** The daemon cannot be reached. *)
Definition tc_down : Collab := testCollab (λ _, Err "cannot connect") (tick_clock 5000 1).

(** ** The instance returns plain text *)

Lemma refchar_not_special a : refchar a = true → special a = false.
Proof. destruct a as [[] [] [] [] [] [] [] []]; by vm_compute. Qed.

Lemma refchar_plain s : all_chars refchar s = true → plain s = true.
Proof.
  apply all_chars_impl. intros a Ha. by rewrite (refchar_not_special a Ha).
Qed.

Lemma splitTag_chars s name tg :
  splitTag s = (name, tg) → all_chars refchar s = true →
  all_chars refchar name = true ∧ ∀ t, tg = Some t → all_chars refchar t = true.
Proof.
  rewrite /splitTag. intros Hs Hall.
  destruct (cut_last "/" s) as [[d l]|] eqn:Hd.
  - destruct (all_chars_cut_last _ _ _ _ _ Hd Hall) as [Hdc Hl].
    destruct (cut_last ":" l) as [[nm t]|] eqn:Ht; simplify_eq/=.
    + destruct (all_chars_cut_last _ _ _ _ _ Ht Hl) as [Hnm Htc].
      rewrite !all_chars_app Hdc Hnm /=. split; [done|]. by intros ? [= <-].
    + by split.
  - destruct (cut_last ":" s) as [[nm t]|] eqn:Ht; simplify_eq/=.
    + destruct (all_chars_cut_last _ _ _ _ _ Ht Hall) as [Hnm Htc].
      split; [done|]. by intros ? [= <-].
    + by split.
Qed.

Lemma testParseNamed_chars s n :
  testParseNamed s = Ok n →
  all_chars refchar (Name n) = true
  ∧ (∀ t, asTagged n = Some t → all_chars refchar t = true)
  ∧ (∀ d, asDigested n = Some d → all_chars refchar d = true).
Proof.
  rewrite /testParseNamed. destruct (all_chars refchar s) eqn:Hall; [|done].
  destruct (cut "@" s) as [[b d]|] eqn:Hcut.
  - destruct (all_chars_cut _ _ _ _ _ Hcut Hall) as [Hb Hd].
    destruct (splitTag b) as [name tg] eqn:Hsp. case_decide; [done|].
    intros [= <-]. simpl.
    destruct (splitTag_chars _ _ _ Hsp Hb) as [? ?].
    split_and!; [done..|]. by intros ? [= <-].
  - destruct (splitTag s) as [name tg] eqn:Hsp. case_decide; [done|].
    intros [= <-]. simpl.
    destruct (splitTag_chars _ _ _ Hsp Hall) as [? ?]. by split_and!.
Qed.

Lemma all_chars_substring P n m s :
  all_chars P s = true → all_chars P (String.substring n m s) = true.
Proof.
  revert n m. induction s as [|a s IH]; intros [|n] [|m]; simpl; try done.
  - rewrite !andb_true_iff. intros [? ?]. auto.
  - rewrite andb_true_iff. intros [? ?]. auto.
  - rewrite andb_true_iff. intros [? ?]. auto.
Qed.

#[export] Instance testCollab_plain images now :
  @CollabPlain (testCollab images now).
Proof.
  split; simpl.
  - intros s n Hn. apply refchar_plain.
    by destruct (testParseNamed_chars s n Hn) as (? & _ & _).
  - intros s n t Hn Ht. apply refchar_plain.
    destruct (testParseNamed_chars s n Hn) as (_ & H & _). by apply H.
  - intros s n d Hn Hd. apply refchar_plain.
    destruct (testParseNamed_chars s n Hn) as (_ & _ & H). by apply H.
  - intros id. apply all_chars_substring.
  - intros d. by rewrite plain_app Itoa_plain.
  - intros z. by rewrite plain_app Itoa_plain.
Qed.

(** ** Evaluations of the test parser *)

Example testParseNamed_tagged :
  testParseNamed "library/foo:latest"
  = Ok {| Name := "library/foo"; asTagged := Some "latest"; asDigested := None |}.
Proof. by vm_compute. Qed.

Example testParseNamed_digested :
  testParseNamed "busybox@sha256:7cc4b5ae"
  = Ok {| Name := "busybox"; asTagged := None; asDigested := Some "sha256:7cc4b5ae" |}.
Proof. by vm_compute. Qed.

Example testParseNamed_port :
  testParseNamed "localhost:5000/foo"
  = Ok {| Name := "localhost:5000/foo"; asTagged := None; asDigested := None |}.
Proof. by vm_compute. Qed.

Example testParseNamed_missing_repository :
  testParseNamed ":latest" = Err "invalid reference format".
Proof. by vm_compute. Qed.
