(* ===== verification/Tabwriter.v ===== *)
(** * The table writer

    [CmdImages] writes every line through a [text/tabwriter] writer created
    with flags 0.  Such a writer splits the text it receives into cells
    (ended by a tab or a vertical tab) and lines (ended by a newline or a
    form feed), keeps them until it is flushed, and flushes by itself when
    a line ends that has a single cell, or on a form feed.  The escape
    character starts and ends a segment whose characters are not
    interpreted.

    The model keeps the text of the cells and which of them were ended by
    a tab.  A flush moves the buffered lines, as one [block], to the end of
    the sink, with the parameters of the writer; how a block is laid out
    in padded columns is the subject of [TabwriterLayout].  Behaviour
    under flags other than 0 is not modelled. *)

From Stdlib Require Import Ascii ZArith Lia.
From stdpp Require Import ssreflect base tactics option list strings numbers.
From S2P Require Import Prelude GoString.

Set Default Proof Using "Type".
Set Warnings "-rewrite-rw,-clear-no-such-hyp".

(** ** State *)

(** A cell: its text, and whether a tab ended it. *)
Record cell := Cell { ctext : string; htab : bool }.

(** The arguments of [NewWriter] that a writer keeps: they decide how
    its lines are laid out. *)
Record Params := {
  minwidth : nat;
  tabwidth : nat;
  padding : nat;
  padchar : ascii;
  flags : N;
}.

(** What one flush hands to the output: the lines that were ended and the
    cells of the line that was being written, with the parameters of the
    writer that lays them out. *)
Record block := Block {
  params : Params;
  full : list (list cell);
  rest : list cell;
}.

#[export] Instance cell_eq_dec : EqDecision cell.
Proof. solve_decision. Defined.
#[export] Instance Params_eq_dec : EqDecision Params.
Proof. solve_decision. Defined.
#[export] Instance block_eq_dec : EqDecision block.
Proof. solve_decision. Defined.

(** The writer.  [cfg] are its parameters, [buf] is the text of the cell being written, [inEscape]
    holds inside an escaped segment, [cur] are the ended cells of the line
    being written and [ended] the lines ended since the last flush
    (together the writer's [lines]). *)
Record Writer := {
  cfg : Params;
  buf : string;
  inEscape : bool;
  cur : list cell;
  ended : list (list cell);
}.

(** [tabwriter.NewWriter(output, minwidth, tabwidth, padding, padchar, flags)]. *)
Definition NewWriter (minwidth tabwidth padding : nat) (padchar : ascii)
    (flags : N) : Writer :=
  {| cfg := {| minwidth := minwidth; tabwidth := tabwidth; padding := padding;
               padchar := padchar; flags := flags |};
     buf := ""; inEscape := false; cur := []; ended := [] |}.

Definition with_text (w : Writer) (buf : string) (inEscape : bool)
    (cur : list cell) (ended : list (list cell)) : Writer :=
  {| cfg := cfg w; buf := buf; inEscape := inEscape; cur := cur; ended := ended |}.

(** ** Operations *)

Definition append (a : ascii) (w : Writer) : Writer :=
  with_text w (buf w +:+ String a "") (inEscape w) (cur w) (ended w).

(** [terminateCell(htab)]: the cell being written joins the line. *)
Definition terminateCell (htab : bool) (w : Writer) : Writer :=
  with_text w "" (inEscape w) (cur w ++ [Cell (buf w) htab]) (ended w).

Definition addLine (w : Writer) : Writer :=
  with_text w (buf w) (inEscape w) [] (ended w ++ [cur w]).

Definition reset (w : Writer) : Writer := with_text w "" false [] [].

(** [Flush()]: a cell being written is ended first; the lines go to the
    output and the writer is reset. *)
Definition Flush (st : Writer * list block) : Writer * list block :=
  let w := if decide (buf st.1 = "") then st.1 else terminateCell false st.1 in
  (reset w, st.2 ++ [Block (cfg w) (ended w) (cur w)]).

(** One character of [Write]. *)
Definition write_char (a : ascii) (st : Writer * list block) :
    Writer * list block :=
  let w := st.1 in
  if inEscape w then
    if decide (a = ESC)
    then (with_text w (buf w +:+ String a "") false (cur w) (ended w), st.2)
    else (append a w, st.2)
  else if decide (a = TAB ∨ a = VT) then
    (terminateCell (bool_decide (a = TAB)) w, st.2)
  else if decide (a = NL ∨ a = FF) then
    let w1 := terminateCell false w in
    let ncells := length (cur w1) in
    let w2 := addLine w1 in
    if decide (a = FF ∨ ncells = 1) then Flush (w2, st.2) else (w2, st.2)
  else if decide (a = ESC) then
    (with_text w (buf w +:+ String a "") true (cur w) (ended w), st.2)
  else (append a w, st.2).

(** [Write(text)]. *)
Fixpoint Write (s : string) (st : Writer * list block) : Writer * list block :=
  match s with
  | EmptyString => st
  | String a s' => Write s' (write_char a st)
  end.

(** ** Lines of tab-separated fields *)

(** The text [f1 \t f2 \t ... \t fn \n]. *)
Fixpoint tabline (fields : list string) : string :=
  match fields with
  | [] => \n
  | f :: fs =>
      match fs with
      | [] => f +:+ \n
      | _ :: _ => f +:+ \t +:+ tabline fs
      end
  end.

(** The cells of that line: every field but the last is ended by a tab. *)
Fixpoint cells_of (fields : list string) : list cell :=
  match fields with
  | [] => [Cell "" false]
  | f :: fs =>
      match fs with
      | [] => [Cell f false]
      | _ :: _ => Cell f true :: cells_of fs
      end
  end.

(** The text of several lines of fields. *)
Definition tablines (rows : list (list string)) : string :=
  concat_str (tabline <$> rows).

(** A writer between two lines: no cell and no line begun. *)
Definition at_line_start (w : Writer) : Prop :=
  buf w = "" ∧ inEscape w = false ∧ cur w = [].

#[export] Instance at_line_start_dec w : Decision (at_line_start w).
Proof. rewrite /at_line_start. apply _. Defined.

(** A writer that holds nothing. *)
Definition is_empty (w : Writer) : Prop := at_line_start w ∧ ended w = [].

#[export] Instance is_empty_dec w : Decision (is_empty w).
Proof. rewrite /is_empty. apply _. Defined.

(** ** Lemmas *)

Section tabwriter.
Implicit Types (w : Writer) (out : list block) (s : string) (a : ascii).
Implicit Types (fields : list string).

Lemma Write_app s1 s2 st : Write (s1 +:+ s2) st = Write s2 (Write s1 st).
Proof.
  revert st. induction s1 as [|a s1 IH]; intros st; [done|].
  by rewrite str_app_cons /= IH.
Qed.

Lemma NewWriter_is_empty mw tw pd pc fl : is_empty (NewWriter mw tw pd pc fl).
Proof. done. Qed.

Lemma reset_is_empty w : is_empty (reset w).
Proof. done. Qed.

Lemma Flush_is_empty st : is_empty (Flush st).1.
Proof. done. Qed.

Lemma write_char_plain a w out :
  special a = false → inEscape w = false →
  write_char a (w, out) = (append a w, out).
Proof.
  rewrite /special /write_char /=. intros Ha ->.
  repeat (apply orb_false_elim in Ha as [Ha ?]).
  repeat case_bool_decide; try done.
  repeat case_decide; naive_solver.
Qed.

(** Plain text joins the cell being written. *)
Lemma Write_plain s w out :
  plain s = true → inEscape w = false →
  Write s (w, out) = (with_text w (buf w +:+ s) false (cur w) (ended w), out).
Proof.
  revert w. induction s as [|a s IH]; intros w Hs Hw.
  - rewrite str_app_nil_r /= -Hw. by destruct w.
  - move: Hs. rewrite plain_cons andb_true_iff negb_true_iff. intros [Ha Hs].
    rewrite /= write_char_plain // IH //=.
    by rewrite str_app_assoc.
Qed.

Lemma Write_tab w out :
  inEscape w = false → Write \t (w, out) = (terminateCell true w, out).
Proof. rewrite /= /write_char /=. by intros ->. Qed.

Lemma addLine_terminateCell h w :
  addLine (terminateCell h w) =
  with_text w "" (inEscape w) [] (ended w ++ [cur w ++ [Cell (buf w) h]]).
Proof. done. Qed.

(** A newline ends the cell and the line; a line of one cell is flushed. *)
Lemma Write_newline w out :
  inEscape w = false →
  Write \n (w, out) =
    let w' := with_text w "" false [] (ended w ++ [cur w ++ [Cell (buf w) false]]) in
    if decide (length (cur w) = 0) then Flush (w', out) else (w', out).
Proof.
  intros Hesc. rewrite /= /write_char /= Hesc /= addLine_terminateCell Hesc.
  rewrite length_app /=.
  case_decide as H1; case_decide as H2; try done; [|lia].
  destruct H1 as [?|?]; [done|lia].
Qed.

(** A line of plain fields written into a line that already has the cells
    [cur w]: the cells of the fields join them, the line ends, and the
    writer flushes when the line has a single cell. *)
Lemma Write_tabline_from fields w out :
  Forall (λ f, plain f = true) fields →
  buf w = "" → inEscape w = false →
  Write (tabline fields) (w, out) =
    let w' := with_text w "" false [] (ended w ++ [cur w ++ cells_of fields]) in
    if decide (length (cur w ++ cells_of fields) = 1)
    then Flush (w', out) else (w', out).
Proof.
  revert w. induction fields as [|f [|f' fs] IH]; intros w Hpl Hbuf Hesc.
  - rewrite /tabline Write_newline //= Hbuf length_app /=.
    repeat case_decide; try done; lia.
  - apply Forall_cons_1 in Hpl as [Hf _].
    rewrite /tabline Write_app Write_plain // Write_newline //=.
    rewrite Hbuf length_app /=.
    repeat case_decide; try done; lia.
  - apply Forall_cons_1 in Hpl as [Hf Hpl].
    change (tabline (f :: f' :: fs)) with (f +:+ \t +:+ tabline (f' :: fs)).
    rewrite !Write_app Write_plain // Write_tab // IH //.
    cbn [cells_of]. rewrite /terminateCell /= Hbuf /=.
    by rewrite -!app_assoc.
Qed.

(** The same from the start of a line. *)
Lemma Write_tabline fields w out :
  Forall (λ f, plain f = true) fields → at_line_start w →
  Write (tabline fields) (w, out) =
    let w' := with_text w "" false [] (ended w ++ [cells_of fields]) in
    if decide (length fields ≤ 1) then Flush (w', out) else (w', out).
Proof.
  intros Hpl (Hbuf & Hesc & Hcur). rewrite Write_tabline_from // Hcur /=.
  assert (length (cells_of fields) = max 1 (length fields)) as ->.
  { clear. induction fields as [|f [|f' fs] IH]; [done..|].
    cbn [cells_of length] in *. lia. }
  repeat case_decide; try done; lia.
Qed.

(** A line of two or more plain fields stays in the writer. *)
Lemma Write_tabline_buffered fields w out :
  Forall (λ f, plain f = true) fields → at_line_start w → 2 ≤ length fields →
  Write (tabline fields) (w, out) =
    (with_text w "" false [] (ended w ++ [cells_of fields]), out).
Proof.
  intros Hpl Hw Hlen. rewrite Write_tabline //=. case_decide; [lia|done].
Qed.

(** A line of one plain field is flushed at once, with the lines that were
    waiting. *)
Lemma Write_tabline_single f w out :
  plain f = true → at_line_start w →
  Write (f +:+ \n) (w, out) =
    (reset w, out ++ [Block (cfg w) (ended w ++ [[Cell f false]]) []]).
Proof.
  intros Hf Hw. rewrite (Write_tabline [f] w out) //. by constructor.
Qed.

Lemma tablines_app rows rows' :
  tablines (rows ++ rows') = tablines rows +:+ tablines rows'.
Proof. by rewrite /tablines fmap_app concat_str_app. Qed.

Lemma tablines_cons row rows : tablines (row :: rows) = tabline row +:+ tablines rows.
Proof. done. Qed.

Lemma at_line_start_with_text w ended' : at_line_start (with_text w "" false [] ended').
Proof. done. Qed.

Lemma reset_empty w : is_empty w → reset w = w.
Proof. intros ((? & ? & ?) & ?). destruct w; simpl in *. by subst. Qed.

(** Lines of two or more plain fields each stay in the writer, in order;
    nothing reaches the output. *)
Lemma Write_tablines_buffered rows w out :
  Forall (λ row, Forall (λ f, plain f = true) row ∧ 2 ≤ length row) rows →
  at_line_start w →
  Write (tablines rows) (w, out) =
    (with_text w "" false [] (ended w ++ (cells_of <$> rows)), out).
Proof.
  intros Hrows. revert w. induction Hrows as [|row rows [Hpl Hlen] _ IH]; intros w Hw.
  - destruct Hw as (Hb & He & Hc). rewrite /= app_nil_r -Hb -He -Hc. by destruct w.
  - rewrite tablines_cons Write_app Write_tabline_buffered // IH //=.
    by rewrite -app_assoc.
Qed.

(** Lines of one plain field each, written to an empty writer, reach the
    output one block per line; the writer stays empty. *)
Lemma Write_tablines_single rows w out :
  Forall (λ row, Forall (λ f, plain f = true) row ∧ length row = 1) rows →
  is_empty w →
  Write (tablines rows) (w, out) =
    (w, out ++ ((λ row, Block (cfg w) [cells_of row] []) <$> rows)).
Proof.
  intros Hrows. revert out. induction Hrows as [|row rows [Hpl Hlen] _ IH];
    intros out Hw.
  - by rewrite /= app_nil_r.
  - destruct Hw as [Hw He].
    rewrite tablines_cons Write_app Write_tabline //=.
    case_decide; [|lia]. rewrite /Flush /= He /=.
    change (reset (with_text _ _ _ _ _)) with (reset w).
    rewrite reset_empty // IH //=. by rewrite -app_assoc.
Qed.

(** ** The output only grows *)

Lemma Flush_prefix st : st.2 `prefix_of` (Flush st).2.
Proof. by apply prefix_app_r. Qed.

Lemma write_char_prefix a st : st.2 `prefix_of` (write_char a st).2.
Proof.
  rewrite /write_char. repeat case_match; try done.
  by apply prefix_app_r.
Qed.

(** Whatever is written, the blocks that reached the output stay, in
    order: [Write] appends. *)
Lemma Write_prefix s st : st.2 `prefix_of` (Write s st).2.
Proof.
  revert st. induction s as [|a s IH]; intros st; [done|].
  simpl. etrans; [apply write_char_prefix|apply IH].
Qed.

(** ** The output is not read *)

(** What is on the output has no effect on the writer nor on what it
    sends: the blocks that are there stay in front. *)
Lemma Flush_frame o w out :
  Flush (w, o ++ out) = ((Flush (w, out)).1, o ++ (Flush (w, out)).2).
Proof. by rewrite /Flush /= app_assoc. Qed.

Lemma write_char_frame a o w out :
  write_char a (w, o ++ out)
  = ((write_char a (w, out)).1, o ++ (write_char a (w, out)).2).
Proof. rewrite /write_char /=. repeat case_match; by rewrite ?Flush_frame. Qed.

Lemma Write_frame s o w out :
  Write s (w, o ++ out) = ((Write s (w, out)).1, o ++ (Write s (w, out)).2).
Proof.
  revert w out. induction s as [|a s IH]; intros w out; [done|].
  simpl. rewrite write_char_frame. destruct (write_char a (w, out)) as [w' out'].
  apply IH.
Qed.

End tabwriter.

#[export] Hint Resolve NewWriter_is_empty reset_is_empty Flush_is_empty
  at_line_start_with_text Flush_prefix Write_prefix : go.
