(* ===== verification/TabwriterText.v ===== *)
(** * What a table writer holds

    Two facts about the writer of [Tabwriter] that do not depend on what
    is written.

    - Well-formedness.  A line that ends with a single cell is flushed at
      once, so every line the writer keeps has at least two cells, and
      every line of a flushed block has at least one.  [state_wf] states
      this of a writer and its output; every operation preserves it.
    - No text is lost.  The cells record the text between the terminators
      and which terminator ended them.  [written] reads the text back
      from the flushed blocks and from the writer; writing a text extends
      it by exactly that text, and a flush does not change it.  The two
      terminators the cells do not tell apart from a tab and a newline,
      the vertical tab and the form feed, are excluded ([textual]). *)

From Stdlib Require Import Ascii ZArith Lia.
From stdpp Require Import ssreflect base tactics option list strings numbers.
From S2P Require Import Prelude GoString Tabwriter.

Set Default Proof Using "Type".
Set Warnings "-rewrite-rw,-clear-no-such-hyp".

(** ** Well-formed writers *)

(** Every buffered line has at least two cells. *)
Definition Writer_wf (w : Writer) : Prop :=
  Forall (λ line, 2 ≤ length line) (ended w).

(** Every line of a flushed block has at least one cell. *)
Definition block_wf (b : block) : Prop :=
  Forall (λ line : list cell, 1 ≤ length line) (full b).

Definition state_wf (st : Writer * list block) : Prop :=
  Writer_wf st.1 ∧ Forall block_wf st.2.

#[export] Instance Writer_wf_dec w : Decision (Writer_wf w).
Proof. rewrite /Writer_wf. apply _. Defined.
#[export] Instance block_wf_dec b : Decision (block_wf b).
Proof. rewrite /block_wf. apply _. Defined.
#[export] Instance state_wf_dec st : Decision (state_wf st).
Proof. rewrite /state_wf. apply _. Defined.

(** ** The text of cells, lines and blocks *)

(** A cell with the terminator that ended it, when that was a tab. *)
Definition cell_text (c : cell) : string :=
  ctext c +:+ (if htab c then \t else "").

Definition cells_text (cs : list cell) : string := concat_str (cell_text <$> cs).

(** A line that was ended: its cells and the newline. *)
Definition line_text (cs : list cell) : string := cells_text cs +:+ \n.

Definition lines_text (ls : list (list cell)) : string :=
  concat_str (line_text <$> ls).

Definition block_text (b : block) : string :=
  lines_text (full b) +:+ cells_text (rest b).

Definition blocks_text (bs : list block) : string :=
  concat_str (block_text <$> bs).

(** The text the writer keeps: the ended lines, the ended cells of the
    line being written, and the cell being written. *)
Definition pending (w : Writer) : string :=
  lines_text (ended w) +:+ cells_text (cur w) +:+ buf w.

(** The text that went into a writer: what it flushed, then what it
    keeps. *)
Definition written (st : Writer * list block) : string :=
  blocks_text st.2 +:+ pending st.1.

(** The characters a cell records exactly: all but the vertical tab and
    the form feed. *)
Definition textual (a : ascii) : bool :=
  negb (bool_decide (a = VT)) && negb (bool_decide (a = FF)).

(** ** Well-formedness is preserved *)

Section wf.
Implicit Types (w : Writer) (out : list block) (st : Writer * list block).

Lemma NewWriter_wf mw tw pd pc fl out :
  Forall block_wf out → state_wf (NewWriter mw tw pd pc fl, out).
Proof. intros Hout. split; [constructor|done]. Qed.

Lemma Flush_wf st : state_wf st → state_wf (Flush st).
Proof.
  intros [Hw Hout]. split; [constructor|]. apply Forall_app. split; [done|].
  constructor; [|done]. rewrite /block_wf /=.
  case_decide; simpl; (eapply Forall_impl; [|exact Hw]); simpl; intros; lia.
Qed.

Lemma addLine_terminateCell_wf w :
  Writer_wf w → 2 ≤ length (cur w ++ [Cell (buf w) false]) →
  Writer_wf (addLine (terminateCell false w)).
Proof. intros Hw Hlen. apply Forall_app. split; [done|]. by constructor. Qed.

Lemma Flush_addLine_wf w out :
  state_wf (w, out) → state_wf (Flush (addLine (terminateCell false w), out)).
Proof.
  intros [Hw Hout]. split; [constructor|]. apply Forall_app. split; [done|].
  constructor; [|done]. rewrite /block_wf /=. apply Forall_app. split.
  - eapply Forall_impl; [|exact Hw]. simpl. intros; lia.
  - constructor; [|done]. rewrite length_app /=. lia.
Qed.

Lemma write_char_wf a st : state_wf st → state_wf (write_char a st).
Proof.
  destruct st as [w out]. intros Hst. rewrite /write_char /=.
  destruct (inEscape w); [by case_decide|].
  case_decide; [done|].
  case_decide; [|by case_decide].
  case_decide as Hfl; [by apply Flush_addLine_wf|].
  destruct Hst as [Hw Hout]. split; [|done].
  apply addLine_terminateCell_wf; [done|].
  rewrite length_app /= in Hfl |- *. lia.
Qed.

Lemma Write_wf s st : state_wf st → state_wf (Write s st).
Proof.
  revert st. induction s as [|a s IH]; intros st Hst; [done|].
  simpl. by apply IH, write_char_wf.
Qed.

End wf.

(** ** The text is kept *)

Section text.
Implicit Types (w : Writer) (out : list block) (st : Writer * list block).

Lemma cells_text_snoc cs c : cells_text (cs ++ [c]) = cells_text cs +:+ cell_text c.
Proof. by rewrite /cells_text fmap_app concat_str_app /= str_app_nil_r. Qed.

Lemma lines_text_snoc ls l : lines_text (ls ++ [l]) = lines_text ls +:+ line_text l.
Proof. by rewrite /lines_text fmap_app concat_str_app /= str_app_nil_r. Qed.

Lemma blocks_text_snoc bs b : blocks_text (bs ++ [b]) = blocks_text bs +:+ block_text b.
Proof. by rewrite /blocks_text fmap_app concat_str_app /= str_app_nil_r. Qed.

Lemma blocks_text_app bs bs' :
  blocks_text (bs ++ bs') = blocks_text bs +:+ blocks_text bs'.
Proof. by rewrite /blocks_text fmap_app concat_str_app. Qed.

(** The cells of a line of fields spell the line. *)
Lemma line_text_cells_of fields : line_text (cells_of fields) = tabline fields.
Proof.
  rewrite /line_text /cells_text.
  induction fields as [|f [|f' fs] IH]; [done| |].
  - by rewrite /= /cell_text /= !str_app_nil_r.
  - change (tabline (f :: f' :: fs)) with (f +:+ \t +:+ tabline (f' :: fs)).
    rewrite -IH. cbn [cells_of fmap list_fmap concat_str foldr].
    by rewrite /cell_text /= !str_app_assoc.
Qed.

Lemma lines_text_cells_of rows : lines_text (cells_of <$> rows) = tablines rows.
Proof.
  rewrite /lines_text /tablines -!list_fmap_compose. f_equal.
  apply list_fmap_ext. intros _ row _. apply line_text_cells_of.
Qed.

(** A new writer holds no text. *)
Lemma written_NewWriter mw tw pd pc fl out :
  written (NewWriter mw tw pd pc fl, out) = blocks_text out.
Proof.
  rewrite /written /pending /=.
  change (lines_text []) with "". change (cells_text []) with "".
  by autorewrite with go.
Qed.

(** A flush keeps the text. *)
Lemma Flush_written st : written (Flush st) = written st.
Proof.
  destruct st as [w out]. rewrite /written /Flush /pending /=.
  rewrite blocks_text_snoc /block_text /=.
  change (lines_text []) with "". change (cells_text []) with "".
  case_decide as Hbuf; simpl; [rewrite Hbuf|rewrite cells_text_snoc /cell_text /=];
    by autorewrite with go.
Qed.

(** One character that a cell records joins the text. *)
Lemma write_char_written a st :
  textual a = true → written (write_char a st) = written st +:+ String a "".
Proof.
  rewrite /textual andb_true_iff !negb_true_iff !bool_decide_eq_false.
  intros [Hvt Hff]. destruct st as [w out]. rewrite /write_char /=.
  destruct (inEscape w); [by case_decide; rewrite /written /pending /=; autorewrite with go|].
  case_decide as Htab; [destruct Htab as [->|]; [|done]|].
  { rewrite /written /pending /= cells_text_snoc /cell_text /=.
    by autorewrite with go. }
  case_decide as Hnl; [destruct Hnl as [->|]; [|done]|].
  { assert (written (addLine (terminateCell false w), out) = written (w, out) +:+ \n)
      as Hline.
    { rewrite /written /pending /= lines_text_snoc /line_text cells_text_snoc
        /cell_text /=. by autorewrite with go. }
    case_decide; [by rewrite Flush_written|done]. }
  by case_decide; rewrite /written /pending /=; autorewrite with go.
Qed.

End text.

#[export] Hint Resolve NewWriter_wf Flush_wf write_char_wf Write_wf : go.
#[export] Hint Rewrite Flush_written written_NewWriter cells_text_snoc lines_text_snoc blocks_text_snoc
  blocks_text_app line_text_cells_of lines_text_cells_of : go.

(** ** Writing a text *)

(** No operation of the writer breaks its well-formedness: starting
    from a writer whose buffered lines all have two cells or more and
    from blocks whose lines all have one cell or more, writing any text,
    with any terminators and escapes, and flushing lead to such a writer
    and such blocks again. *)
Theorem Write_Flush_wf s st :
  state_wf st → state_wf (Write s st) ∧ state_wf (Flush (Write s st)).
Proof. intros Hst. split; auto with go. Qed.

(** Writing and reading back: a text without vertical tab and form
    feed that is written to a writer, whatever the writer holds and
    whether it is flushed by a line of one cell on the way or not, extends
    the text the writer and its output spell by exactly that text. *)
Theorem Write_written s st :
  all_chars textual s = true → written (Write s st) = written st +:+ s.
Proof.
  revert st. induction s as [|a s IH]; intros st; simpl.
  - by rewrite str_app_nil_r.
  - rewrite andb_true_iff. intros [Ha Hs].
    rewrite IH // write_char_written //. by autorewrite with go.
Qed.

(** ** Evaluation *)

Lemma Write_Flush_wf_witness :
  state_wf (Write ("a" +:+ \t +:+ "b" +:+ \n +:+ "c" +:+ \n +:+ "d")
              (NewWriter 20 1 3 " " 0, []))
  ∧ state_wf (Flush (Write ("a" +:+ \t +:+ "b" +:+ \n +:+ "c" +:+ \n +:+ "d")
                       (NewWriter 20 1 3 " " 0, []))).
Proof. apply Write_Flush_wf. by vm_compute. Defined.

Lemma Write_written_witness :
  written (Write ("a" +:+ \t +:+ "b" +:+ \n +:+ "c" +:+ \n +:+ "d")
             (NewWriter 20 1 3 " " 0, []))
  = written (NewWriter 20 1 3 " " 0, [])
    +:+ ("a" +:+ \t +:+ "b" +:+ \n +:+ "c" +:+ \n +:+ "d").
Proof. by apply Write_written. Defined.

(** A vertical tab ends a cell and is not recorded: the text read back
    lacks it. *)
Example Write_written_vt :
  written (Write (String "a" (String VT "b")) (NewWriter 20 1 3 " " 0, [])) = "ab".
Proof. by vm_compute. Qed.
