(* ===== verification/TabwriterLayout.v ===== *)
(** * The layout of a block

    What a flush of the table writer sends to its output: the lines of the
    block with every cell but the last of its line padded to the width of
    its column ([format], [writeLines] and [writePadding] of
    text/tabwriter, for the flags 0).

    - A column is a run of consecutive lines that have a cell at the same
      position that is not the last of its line.  Its width is the widest
      of its cells, counted in runes, plus the padding, and the minimal
      width at least.
    - [format] goes through the columns from the left: for the column
      after the widths it was given it splits the lines into the runs that
      have a cell there and those that do not, writes the latter, and
      formats each of the former with the width of that run added.
    - The last cell of a line is written as it is, and every line but the
      last of the block is followed by a newline.

    [format] recurses once per column and takes the number of columns as
    fuel; [format_fuel] shows that the result does not depend on it.  For a
    block whose lines all have the same number of plain cells the layout
    is the table [aligned], defined without reference to the algorithm. *)

From Stdlib Require Import Ascii ZArith Lia.
From stdpp Require Import ssreflect base tactics option list strings numbers.
From S2P Require Import Prelude GoString Utf8 Tabwriter.

Set Default Proof Using "Type".
Set Warnings "-rewrite-rw,-clear-no-such-hyp".

(** ** The width of a cell *)

(** The writer adds to the width of a cell the runes of every piece of
    text between two escape characters, and the runes of an escaped
    segment without its two escape characters.  [seg] is the text since
    the width was last brought up to date, [esc] holds inside an escaped
    segment.  The cell that [Flush] ends is the last of its line, and no
    width is read from it. *)
Fixpoint width_scan (esc : bool) (seg s : string) : nat :=
  match s with
  | EmptyString => if esc then RuneCount seg - 2 else RuneCount seg
  | String a s' =>
      if decide (a = ESC) then
        if esc then (RuneCount (seg +:+ String a "") - 2) + width_scan false "" s'
        else RuneCount seg + width_scan true (String a "") s'
      else width_scan esc (seg +:+ String a "") s'
  end.

(** [c.width] of a cell that a terminator ended. *)
Definition cell_width (c : cell) : nat := width_scan false "" (ctext c).

(** ** Padding *)

(** [writeN(padbytes, n)]: [n] times the padding character. *)
Fixpoint writeN (a : ascii) (n : nat) : string :=
  match n with
  | 0 => ""
  | S n' => String a (writeN a n')
  end.

(** [writePadding(textw, cellw, useTabs)] when [useTabs] is false, as it is
    without the flag [TabIndent]: tabs up to the next multiple of the tab
    width when the padding character is a tab, and otherwise the padding
    character up to the width of the column. *)
Definition writePadding (p : Params) (textw cellw : nat) : string :=
  if decide (padchar p = TAB) then
    if decide (tabwidth p = 0) then ""
    else
      let cellw := (cellw + tabwidth p - 1) `div` tabwidth p * tabwidth p in
      let n := cellw - textw in
      writeN TAB ((n + tabwidth p - 1) `div` tabwidth p)
  else writeN (padchar p) (cellw - textw).

(** ** Lines *)

(** One line of [writeLines]: the text of every cell, followed by its
    padding when a width is known for its position. *)
Fixpoint writeLine (p : Params) (widths : list nat) (line : list cell) : string :=
  match line with
  | [] => ""
  | c :: line' =>
      match widths with
      | cellw :: widths' =>
          ctext c +:+ writePadding p (cell_width c) cellw +:+ writeLine p widths' line'
      | [] => ctext c +:+ writeLine p [] line'
      end
  end.

(** A line has a cell in a column when it has a cell at that position and
    one after it: [column < len(line)-1]. *)
Definition has_cell (column : nat) (line : list cell) : bool :=
  bool_decide (column + 1 < length line).

(** The width of the column block [blk] at position [column]: the loop
    that starts from [minwidth] and raises the width to every
    [c.width + padding] above it. *)
Definition column_width (p : Params) (column : nat) (blk : list (list cell)) : nat :=
  foldl (λ width line,
           match line !! column with
           | Some c =>
               let w := cell_width c + padding p in
               if decide (width < w) then w else width
           | None => width
           end) (minwidth p) blk.

(** The maximal runs of consecutive elements on which [P] has the same
    value, with that value. *)
Fixpoint runs {A} (P : A → bool) (l : list A) : list (bool * list A) :=
  match l with
  | [] => []
  | x :: l' =>
      match runs P l' with
      | (b, r) :: rs =>
          if decide (P x = b) then (b, x :: r) :: rs else (P x, [x]) :: (b, r) :: rs
      | [] => [(P x, [x])]
      end
  end.

(** [format] for the column after [widths]: the text of each line, in
    order.  The lines without a cell in that column are written with the
    widths known; each run of lines with one is a column block, formatted
    with its width added. *)
Fixpoint format (fuel : nat) (p : Params) (widths : list nat)
    (lines : list (list cell)) : list string :=
  match fuel with
  | 0 => writeLine p widths <$> lines
  | S fuel' =>
      mjoin ((λ run : bool * list (list cell),
                if run.1
                then format fuel' p (widths ++ [column_width p (length widths) run.2]) run.2
                else writeLine p widths <$> run.2)
             <$> runs (has_cell (length widths)) lines)
  end.

(** The widths of the [n] columns from [j0] on of a block in which every
    line has a cell in each of them. *)
Definition widths_from (p : Params) (blk : list (list cell)) (j0 n : nat) : list nat :=
  (λ j, column_width p j blk) <$> seq j0 n.

(** ** Blocks *)

(** The lines of the writer at a flush: those that were ended and the one
    being written. *)
Definition lines_of (b : block) : list (list cell) := full b ++ [rest b].

(** The most cells a line has: no line has a cell in a column from there
    on. *)
Definition depth (lines : list (list cell)) : nat := max_list (length <$> lines).

(** Every line but the last is followed by a newline. *)
Fixpoint join_lines (texts : list string) : string :=
  match texts with
  | [] => ""
  | t :: ts =>
      match ts with
      | [] => t
      | _ :: _ => t +:+ \n +:+ join_lines ts
      end
  end.

(** What the flush of a block writes. *)
Definition layout (b : block) : string :=
  join_lines (format (depth (lines_of b)) (params b) [] (lines_of b)).

(** What reached the output: the layouts of the blocks, in order. *)
Definition bytes (out : list block) : string := concat_str (layout <$> out).

(** ** Reference: a table with aligned columns *)

(** The width of column [j] of a table of fields: the widest field there,
    in runes, plus the padding, and [minw] at least. *)
Definition col_width (minw pad : nat) (rows : list (list string)) (j : nat) : nat :=
  minw `max` max_list ((λ row, RuneCount (default "" (row !! j)) + pad) <$> rows).

(** A field followed by padding up to the width [w]. *)
Definition pad_field (a : ascii) (w : nat) (f : string) : string :=
  f +:+ writeN a (w - RuneCount f).

Fixpoint aligned_row (a : ascii) (ws : list nat) (row : list string) : string :=
  match row with
  | [] => ""
  | f :: row' =>
      match ws with
      | w :: ws' => pad_field a w f +:+ aligned_row a ws' row'
      | [] => f +:+ aligned_row a [] row'
      end
  end.

(** The table of the rows, each of [k] fields: every field but the last
    of its row is padded to the width of its column, and every row ends
    with a newline. *)
Definition aligned (minw pad : nat) (a : ascii) (k : nat)
    (rows : list (list string)) : string :=
  let ws := col_width minw pad rows <$> seq 0 (k - 1) in
  concat_str ((λ row, aligned_row a ws row +:+ \n) <$> rows).

(** ** Lemmas on widths and padding *)

Section widths.
Implicit Types (p : Params) (c : cell) (s seg f : string) (a : ascii).

Lemma writeN_length a n : String.length (writeN a n) = n.
Proof. induction n as [|n IH]; [done|]. by rewrite /= IH. Qed.

Lemma writeN_add a n m : writeN a (n + m) = writeN a n +:+ writeN a m.
Proof. induction n as [|n IH]; [done|]. by rewrite /= IH. Qed.

Lemma writePadding_pad p textw cellw :
  padchar p ≠ TAB → writePadding p textw cellw = writeN (padchar p) (cellw - textw).
Proof. intros Hp. rewrite /writePadding. by case_decide. Qed.

Lemma writePadding_length p textw cellw :
  padchar p ≠ TAB → String.length (writePadding p textw cellw) = cellw - textw.
Proof. intros Hp. by rewrite writePadding_pad // writeN_length. Qed.

(** Text without escape character is measured as a whole. *)
Lemma width_scan_no_escape seg s :
  count_char ESC s = 0 → width_scan false seg s = RuneCount (seg +:+ s).
Proof.
  revert seg. induction s as [|a s IH]; intros seg; simpl.
  - by rewrite str_app_nil_r.
  - case_decide; [done|]. intros Hs. rewrite IH // str_app_assoc //.
Qed.

Lemma cell_width_plain f h : plain f = true → cell_width (Cell f h) = RuneCount f.
Proof.
  intros Hf. rewrite /cell_width /= width_scan_no_escape //.
  by apply plain_count.
Qed.

(** The loop over a column block computes a maximum. *)
Lemma column_width_max p column blk :
  column_width p column blk =
    minwidth p `max`
    max_list ((λ line, from_option (λ c, cell_width c + padding p) 0 (line !! column))
              <$> blk).
Proof.
  rewrite /column_width. generalize (minwidth p) as width.
  induction blk as [|line blk IH]; intros width; [simpl; lia|].
  rewrite fmap_cons. cbn [foldl max_list]. rewrite IH.
  destruct (line !! column) as [c|]; cbn [from_option]; rewrite /id; [case_decide|]; lia.
Qed.

Lemma column_width_ge_min p column blk : minwidth p ≤ column_width p column blk.
Proof. rewrite column_width_max. lia. Qed.

(** A column is wide enough for each of its cells and the padding. *)
Lemma column_width_ge_cell p column blk line c :
  line ∈ blk → line !! column = Some c →
  cell_width c + padding p ≤ column_width p column blk.
Proof.
  intros Hin Hc. rewrite column_width_max.
  etrans; [|apply Nat.le_max_r].
  apply max_list_elem_of_le, list_elem_of_fmap. exists line. by rewrite Hc.
Qed.

End widths.

(** ** Lemmas on runs *)

Section runs.
Context {A : Type} (P : A → bool).
Implicit Types (l r : list A) (b : bool).

(** The runs, put end to end, are the list. *)
Lemma runs_concat l : mjoin ((runs P l).*2) = l.
Proof.
  induction l as [|x l IH]; [done|]. simpl.
  destruct (runs P l) as [|[b r] rs]; simpl in *; [by rewrite -IH|].
  case_decide; simpl; by rewrite -IH.
Qed.

(** The elements of a run have the value of the run. *)
Lemma runs_Forall l :
  Forall (λ run, run.2 ≠ [] ∧ Forall (λ x, P x = run.1) run.2) (runs P l).
Proof.
  induction l as [|x l IH]; [constructor|]. simpl.
  destruct (runs P l) as [|[b r] rs]; simpl in *.
  - by repeat constructor.
  - apply Forall_cons_1 in IH as [[Hr Hb] Hrs]. simpl in *.
    case_decide; repeat constructor; done.
Qed.

Lemma runs_elem_of l b r x : (b, r) ∈ runs P l → x ∈ r → x ∈ l.
Proof.
  intros Hrun Hx. rewrite -(runs_concat l). apply list_elem_of_join.
  exists r. split; [done|]. apply list_elem_of_fmap. by exists (b, r).
Qed.

(** A list on which [P] is constant is one run. *)
Lemma runs_const l b : l ≠ [] → Forall (λ x, P x = b) l → runs P l = [(b, l)].
Proof.
  induction l as [|x l IH]; [done|]. intros _ [Hx Hl]%Forall_cons_1. simpl.
  destruct l as [|y l]; [by rewrite /= Hx|].
  rewrite IH //. by case_decide.
Qed.

(** A list on which [P] holds followed by one on which it does not are
    two runs. *)
Lemma runs_app_true_false l r :
  l ≠ [] → r ≠ [] → Forall (λ x, P x = true) l → Forall (λ x, P x = false) r →
  runs P (l ++ r) = [(true, l); (false, r)].
Proof.
  intros Hl Hr HPl HPr. induction l as [|x l IH]; [done|].
  apply Forall_cons_1 in HPl as [Hx HPl]. simpl.
  destruct l as [|y l].
  - rewrite /= (runs_const r false) // Hx. by case_decide.
  - rewrite IH //. by case_decide.
Qed.

End runs.

(** ** Lemmas on [format] *)

Section format.
Implicit Types (p : Params) (widths : list nat) (lines blk : list (list cell)).

Lemma format_S fuel p widths lines :
  format (S fuel) p widths lines =
    mjoin ((λ run : bool * list (list cell),
              if run.1
              then format fuel p (widths ++ [column_width p (length widths) run.2]) run.2
              else writeLine p widths <$> run.2)
           <$> runs (has_cell (length widths)) lines).
Proof. done. Qed.

Lemma has_cell_false column line :
  has_cell column line = false ↔ length line ≤ column + 1.
Proof. rewrite /has_cell bool_decide_eq_false. lia. Qed.

Lemma has_cell_true column line :
  has_cell column line = true ↔ column + 1 < length line.
Proof. by rewrite /has_cell bool_decide_eq_true. Qed.

Lemma no_cell_le column lines :
  Forall (λ line, length line ≤ column + 1) lines →
  Forall (λ line, has_cell column line = false) lines.
Proof. apply Forall_impl. intros line ?. by apply has_cell_false. Qed.

Lemma no_cell_const column lines k :
  Forall (λ line, length line = k) lines → k ≤ column + 1 →
  Forall (λ line, has_cell column line = false) lines.
Proof.
  intros Hk ?. apply no_cell_le. eapply Forall_impl; [|done]. simpl. intros; lia.
Qed.

Lemma all_cell_const column lines k :
  Forall (λ line, length line = k) lines → column + 1 < k →
  Forall (λ line, has_cell column line = true) lines.
Proof.
  intros Hk ?. eapply Forall_impl; [|done]. simpl. intros line ?.
  apply has_cell_true. lia.
Qed.

(** [format] writes every line, once. *)
Lemma format_length fuel p widths lines :
  length (format fuel p widths lines) = length lines.
Proof.
  revert widths lines. induction fuel as [|fuel IH]; intros widths lines.
  { by rewrite /= length_fmap. }
  rewrite format_S -{2}(runs_concat (has_cell (length widths)) lines).
  rewrite !length_join -!list_fmap_compose. f_equal.
  apply list_fmap_ext. intros _ [[] blk] _; simpl; [apply IH|by rewrite length_fmap].
Qed.

(** Lines without a cell in the next column are written as they are. *)
Lemma format_no_cell fuel p widths lines :
  Forall (λ line, has_cell (length widths) line = false) lines →
  format fuel p widths lines = writeLine p widths <$> lines.
Proof.
  intros Hl. destruct fuel; [done|]. destruct lines as [|l lines]; [done|].
  by rewrite format_S (runs_const _ _ false) //= app_nil_r.
Qed.

(** Fuel beyond the number of columns left changes nothing. *)
Lemma format_fuel n m p widths lines :
  Forall (λ line, length line ≤ length widths + 1 + n) lines → n ≤ m →
  format m p widths lines = format n p widths lines.
Proof.
  revert m widths lines. induction n as [|n IH]; intros m widths lines Hlen Hm.
  - rewrite Nat.add_0_r in Hlen. by rewrite !format_no_cell; [|apply no_cell_le..].
  - destruct m as [|m]; [lia|]. rewrite !format_S. f_equal.
    apply list_fmap_ext. intros i [[] blk] Hrun%list_elem_of_lookup_2; [|done]. simpl.
    apply IH; [|lia]. rewrite length_app /=. apply list.Forall_forall. intros line Hline.
    rewrite list.Forall_forall in Hlen.
    pose proof (Hlen line (runs_elem_of _ _ _ _ _ Hrun Hline)). lia.
Qed.

(** A block in which every line has [k] cells: its columns are the first
    [k - 1] positions, each over all the lines. *)
Lemma format_rect n fuel p widths blk k :
  blk ≠ [] → Forall (λ line, length line = k) blk →
  length widths + 1 + n = k → n ≤ fuel →
  format fuel p widths blk =
    writeLine p (widths ++ widths_from p blk (length widths) n) <$> blk.
Proof.
  revert fuel widths. induction n as [|n IH]; intros fuel widths Hne Hk Hn Hfuel.
  - rewrite /widths_from /= app_nil_r. apply format_no_cell.
    apply (no_cell_const _ _ k); [done|lia].
  - destruct fuel as [|fuel]; [lia|].
    rewrite format_S (runs_const _ _ true) //=.
    + rewrite app_nil_r IH //; [|rewrite length_app /=; lia|lia].
      by rewrite length_app /= /widths_from /= -app_assoc Nat.add_1_r.
    + apply (all_cell_const _ _ k); [done|lia].
Qed.

Lemma join_lines_snoc texts :
  join_lines (texts ++ [""]) = concat_str ((λ t, t +:+ \n) <$> texts).
Proof.
  induction texts as [|t texts IH]; [done|].
  rewrite fmap_cons /= -IH. destruct texts; by rewrite /= ?str_app_assoc ?str_app_nil_r.
Qed.

Lemma depth_cons line lines : depth (line :: lines) = length line `max` depth lines.
Proof. done. Qed.

Lemma depth_const blk k :
  blk ≠ [] → Forall (λ line, length line = k) blk → depth (blk ++ [[]]) = k.
Proof.
  intros Hne Hk. induction Hk as [|line blk Hline Hk IH]; [done|].
  rewrite -app_comm_cons depth_cons.
  destruct blk as [|line' blk]; [change (depth ([] ++ [[]])) with 0; lia|].
  rewrite IH //. lia.
Qed.

(** The lines of a flush in which every line that was ended has [k]
    cells and no line was begun. *)
Lemma format_block p blk k :
  Forall (λ line, length line = k) blk → 1 ≤ k →
  format (depth (blk ++ [[]])) p [] (blk ++ [[]]) =
    (writeLine p (widths_from p blk 0 (k - 1)) <$> blk) ++ [""].
Proof.
  intros Hk Hk1. destruct (decide (blk = [])) as [->|Hne]; [done|].
  rewrite (depth_const _ k) //. destruct (decide (k = 1)) as [->|].
  - rewrite format_no_cell; [by rewrite fmap_app|].
    apply Forall_app. split; [|by repeat constructor].
    by apply (no_cell_const _ _ 1).
  - destruct k as [|k]; [lia|].
    rewrite format_S (runs_app_true_false _ blk [[]]) //=.
    + rewrite (format_rect (k - 1) _ _ _ _ (S k)) //=; [|lia..].
      rewrite /widths_from Nat.sub_0_r. by replace k with (S (k - 1)) at 2 by lia.
    + apply (all_cell_const _ _ (S k)); [done|simpl; lia].
    + by repeat constructor.
Qed.

End format.

(** ** Lemmas on [layout] and [bytes] *)

Section layout.
Implicit Types (p : Params) (blk : list (list cell)) (rows : list (list string)).
Implicit Types (row : list string) (f : string).

(** The layout of the lines of [format_block]. *)
Lemma layout_rect p blk k :
  Forall (λ line, length line = k) blk → 1 ≤ k →
  layout (Block p blk []) =
    concat_str ((λ line, writeLine p (widths_from p blk 0 (k - 1)) line +:+ \n) <$> blk).
Proof.
  intros Hk Hk1. rewrite /layout /lines_of /= (format_block _ _ k) //.
  by rewrite join_lines_snoc -list_fmap_compose.
Qed.

(** A line of one cell is written as its text and a newline. *)
Lemma layout_single p f h : layout (Block p [[Cell f h]] []) = f +:+ \n.
Proof.
  rewrite (layout_rect _ _ 1) //=; [|by repeat constructor].
  by rewrite !str_app_nil_r.
Qed.

Lemma length_cells_of row : length (cells_of row) = 1 `max` length row.
Proof.
  induction row as [|f [|f' fs] IH]; [done..|].
  cbn [cells_of length] in *. lia.
Qed.

Lemma cells_of_lookup row j f :
  row !! j = Some f → ∃ h, cells_of row !! j = Some (Cell f h).
Proof.
  revert j. induction row as [|f0 [|f' fs] IH]; intros j Hj; [done| |].
  - destruct j as [|j]; [|done]. simplify_eq/=. by eexists.
  - destruct j as [|j]; [simplify_eq/=; by eexists|]. apply (IH j Hj).
Qed.

(** The cells of a row of plain fields are written as the padded fields. *)
Lemma writeLine_cells_of p ws row :
  padchar p ≠ TAB → row ≠ [] → Forall (λ f, plain f = true) row →
  writeLine p ws (cells_of row) = aligned_row (padchar p) ws row.
Proof.
  intros Hp. revert ws.
  induction row as [|f [|f' fs] IH]; intros ws Hne Hrow; [done| |].
  - apply Forall_cons_1 in Hrow as [Hf _].
    destruct ws; rewrite /= ?cell_width_plain // ?writePadding_pad // /pad_field;
      by rewrite ?str_app_assoc.
  - apply Forall_cons_1 in Hrow as [Hf Hrow].
    change (cells_of (f :: f' :: fs)) with (Cell f true :: cells_of (f' :: fs)).
    destruct ws as [|w ws]; cbn [writeLine aligned_row]; rewrite IH //.
    by rewrite cell_width_plain // writePadding_pad // /pad_field str_app_assoc.
Qed.

(** The width of a column of plain fields. *)
Lemma column_width_cells_of p j rows k :
  Forall (λ row, length row = k ∧ Forall (λ f, plain f = true) row) rows → j < k →
  column_width p j (cells_of <$> rows) = col_width (minwidth p) (padding p) rows j.
Proof.
  intros Hrows Hj. rewrite column_width_max /col_width -list_fmap_compose.
  f_equal. f_equal. apply list_fmap_ext. intros i row Hrow%list_elem_of_lookup_2. simpl.
  rewrite list.Forall_forall in Hrows. destruct (Hrows row Hrow) as [Hlen Hpl].
  destruct (lookup_lt_is_Some_2 row j) as [f Hf]; [lia|].
  destruct (cells_of_lookup _ _ _ Hf) as [h ->]. rewrite Hf /= cell_width_plain //.
  rewrite list.Forall_forall in Hpl. apply Hpl. by eapply list_elem_of_lookup_2.
Qed.

(** The layout of a table of rows of [k] plain fields each is the aligned
    table. *)
Lemma layout_table p rows k :
  padchar p ≠ TAB → 1 ≤ k →
  Forall (λ row, length row = k ∧ Forall (λ f, plain f = true) row) rows →
  layout (Block p (cells_of <$> rows) []) =
    aligned (minwidth p) (padding p) (padchar p) k rows.
Proof.
  intros Hp Hk Hrows. rewrite (layout_rect _ _ k) //.
  - rewrite /aligned -list_fmap_compose. f_equal.
    assert (widths_from p (cells_of <$> rows) 0 (k - 1)
            = col_width (minwidth p) (padding p) rows <$> seq 0 (k - 1)) as ->.
    { apply list_fmap_ext. intros i j [-> ?]%lookup_seq.
      apply (column_width_cells_of _ _ _ k); [done|lia]. }
    apply list_fmap_ext. intros i row Hrow%list_elem_of_lookup_2. simpl.
    rewrite list.Forall_forall in Hrows. destruct (Hrows row Hrow) as [Hlen Hpl].
    rewrite writeLine_cells_of //. destruct row; [simpl in *; lia|done].
  - apply Forall_fmap. eapply Forall_impl; [|done]. intros row [Hlen _]. simpl.
    rewrite length_cells_of. lia.
Qed.

(** Lines of one plain field each, flushed one by one, are written as
    they were. *)
Lemma bytes_singles p rows :
  Forall (λ row, length row = 1) rows →
  bytes ((λ row, Block p [cells_of row] []) <$> rows) = tablines rows.
Proof.
  intros Hrows. rewrite /bytes /tablines -list_fmap_compose. f_equal.
  apply list_fmap_ext. intros i row Hrow%list_elem_of_lookup_2.
  rewrite list.Forall_forall in Hrows. specialize (Hrows row Hrow).
  destruct row as [|f [|??]]; simplify_eq/=. apply layout_single.
Qed.

Lemma bytes_nil : bytes [] = "".
Proof. done. Qed.

Lemma bytes_app out out' : bytes (out ++ out') = bytes out +:+ bytes out'.
Proof. by rewrite /bytes fmap_app concat_str_app. Qed.

Lemma bytes_singleton b : bytes [b] = layout b.
Proof. by rewrite /bytes /= str_app_nil_r. Qed.

End layout.

(** ** The columns of the aligned table line up *)

Section aligned.
Implicit Types (a : ascii) (ws : list nat) (row init : list string) (f t : string).
Implicit Types (rows : list (list string)).

Lemma RuneCount_cons_ascii a t :
  is_ascii a = true → RuneCount (String a t) = S (RuneCount t).
Proof. intros Ha. rewrite /RuneCount. cbn [RuneCount_from]. by rewrite rune_size_ascii. Qed.

Lemma RuneCount_writeN_app a n t :
  is_ascii a = true → RuneCount (writeN a n +:+ t) = n + RuneCount t.
Proof.
  intros Ha. induction n as [|n IH]; [done|].
  by rewrite /= RuneCount_cons_ascii // IH.
Qed.

(** A field narrower than its column, padded, takes the width of the
    column, whatever follows. *)
Lemma RuneCount_pad_field_app a w f t :
  is_ascii a = true → RuneCount f < w →
  RuneCount (pad_field a w f +:+ t) = w + RuneCount t.
Proof.
  intros Ha Hf. rewrite /pad_field str_app_assoc.
  destruct (w - RuneCount f) as [|n] eqn:Hn; [lia|].
  rewrite /= RuneCount_app_ascii // RuneCount_cons_ascii // RuneCount_writeN_app //. lia.
Qed.

Lemma RuneCount_aligned_row a ws init t :
  is_ascii a = true → Forall2 (λ w f, RuneCount f < w) ws init →
  RuneCount (aligned_row a ws init +:+ t) = sum_list ws + RuneCount t.
Proof.
  intros Ha Hws. induction Hws as [|w f ws init Hf _ IH]; [done|].
  rewrite /= str_app_assoc RuneCount_pad_field_app // IH. lia.
Qed.

Lemma aligned_row_snoc a ws init f :
  length ws = length init → aligned_row a ws (init ++ [f]) = aligned_row a ws init +:+ f.
Proof.
  revert ws. induction init as [|f0 init IH]; intros [|w ws] Hlen; simplify_eq/=.
  - by rewrite str_app_nil_r.
  - by rewrite IH // str_app_assoc.
Qed.

(** With padding, a column is wider than each of its fields. *)
Lemma col_width_gt minw pad rows row j :
  0 < pad → row ∈ rows → RuneCount (default "" (row !! j)) < col_width minw pad rows j.
Proof.
  intros Hpad Hrow. rewrite /col_width.
  assert (RuneCount (default "" (row !! j)) + pad
          ≤ max_list ((λ row, RuneCount (default "" (row !! j)) + pad) <$> rows)); [|lia].
  apply max_list_elem_of_le, list_elem_of_fmap. by exists row.
Qed.

Lemma col_width_ge_min minw pad rows j : minw ≤ col_width minw pad rows j.
Proof. rewrite /col_width. lia. Qed.

(** In the aligned table of rows of [k] fields, the fields before the
    last of a row take the widths of the columns: the last field starts
    after the same number of runes in every row. *)
Lemma aligned_row_columns minw pad a k rows row :
  is_ascii a = true → 0 < pad → row ∈ rows → length row = k → 1 ≤ k →
  let ws := col_width minw pad rows <$> seq 0 (k - 1) in
  aligned_row a ws row = aligned_row a ws (removelast row) +:+ last row ""
  ∧ RuneCount (aligned_row a ws (removelast row)) = sum_list ws.
Proof.
  intros Ha Hpad Hrow Hlen Hk ws.
  assert (row ≠ []) as Hne by (intros ->; simpl in *; lia).
  rewrite {1}(app_removelast_last "" Hne).
  assert (length (removelast row) = k - 1) as Hinit.
  { rewrite removelast_firstn_len length_take. lia. }
  split; [apply aligned_row_snoc; by rewrite /ws length_fmap length_seq|].
  rewrite -(Nat.add_0_r (sum_list ws)) -(str_app_nil_r (aligned_row _ _ _)).
  apply RuneCount_aligned_row; [done|].
  apply Forall2_same_length_lookup_2; [by rewrite /ws length_fmap length_seq|].
  intros j w f Hw Hf. rewrite /ws list_lookup_fmap in Hw.
  destruct (seq 0 (k - 1) !! j) as [j'|] eqn:Hj; simplify_eq/=.
  apply lookup_seq in Hj as [-> Hj].
  assert (row !! j = Some f) as Hrj.
  { rewrite (app_removelast_last "" Hne). by apply lookup_app_l_Some. }
  pose proof (col_width_gt minw pad rows row j Hpad Hrow) as Hgt.
  by rewrite Hrj in Hgt.
Qed.

End aligned.

#[export] Hint Rewrite bytes_nil bytes_app bytes_singleton layout_single writeN_length : go.
#[export] Hint Resolve column_width_ge_min : go.
