(* ===== verification/TabwriterTable.v ===== *)
(** * The layout of any block

    [TabwriterLayout.format] finds the columns by recursion: it splits
    the lines into runs, formats the runs that have a cell in the next
    column with one more width, and so on.  This file says what it
    computes without the recursion, for all lines, whatever the number
    of cells of each:

    - the column block of a line at a position is the line with the
      lines next to it, before and after, as far as they have a cell at
      that position ([block_around]);
    - every cell of a line but the last is padded to the width of its
      column block ([widths_at], [table]);
    - [format] with fuel for the longest line computes that table
      ([format_table]), so a flush writes it ([layout_table_any]);
    - two lines next to each other agree on the widths of the columns
      they both have ([widths_at_adjacent]): their cells line up. *)

From Stdlib Require Import Ascii ZArith Lia.
From stdpp Require Import ssreflect base tactics option list strings numbers.
From S2P Require Import Prelude GoString Utf8 Tabwriter TabwriterLayout.

Set Default Proof Using "Type".
Set Warnings "-rewrite-rw,-clear-no-such-hyp".

(** ** The reference table *)

(** The longest prefix on which [P] holds. *)
Fixpoint take_while {A} (P : A → bool) (l : list A) : list A :=
  match l with
  | [] => []
  | x :: l' => if P x then x :: take_while P l' else []
  end.

(** [P] fails on the first element, if there is one. *)
Definition stops {A} (P : A → bool) (l : list A) : Prop :=
  ∀ x, head l = Some x → P x = false.

(** The column block at [column] of a line that has a cell there:
    [before] are the lines before it, the nearest first, [after] those
    after it. *)
Definition block_around (column : nat) (before after : list (list cell))
    (line : list cell) : list (list cell) :=
  reverse (take_while (has_cell column) before)
  ++ line :: take_while (has_cell column) after.

(** The widths for the cells of a line: the widths [known], then for each
    further cell but the last the width of its column block. *)
Definition widths_at (p : Params) (known : list nat) (before after : list (list cell))
    (line : list cell) : list nat :=
  known ++ ((λ j, column_width p j (block_around j before after line))
            <$> seq (length known) (length line - 1 - length known)).

(** The texts of the lines, each padded by the widths of its column
    blocks. *)
Fixpoint table_from (p : Params) (known : list nat) (before lines : list (list cell)) :
    list string :=
  match lines with
  | [] => []
  | line :: after =>
      writeLine p (widths_at p known before after line) line
      :: table_from p known (line :: before) after
  end.

Definition table (p : Params) (lines : list (list cell)) : list string :=
  table_from p [] [] lines.

(** ** Runs and prefixes *)

Section take_while.
Context {A : Type} (P : A → bool).
Implicit Types (l r rest : list A) (b : bool).

Lemma take_while_all l : Forall (λ x, P x = true) l → take_while P l = l.
Proof. induction 1 as [|x l Hx _ IH]; [done|]. by rewrite /= Hx IH. Qed.

Lemma take_while_app_stop l1 l2 :
  stops P l2 → take_while P (l1 ++ l2) = take_while P l1.
Proof.
  intros Hstop. induction l1 as [|x l1 IH]; simpl; [|by rewrite IH].
  destruct l2 as [|y l2]; [done|]. by rewrite /= (Hstop y).
Qed.

Lemma runs_cons x l :
  runs P (x :: l) =
    match runs P l with
    | (b, r) :: rs =>
        if decide (P x = b) then (b, x :: r) :: rs else (P x, [x]) :: (b, r) :: rs
    | [] => [(P x, [x])]
    end.
Proof. done. Qed.

(** A list that is not empty begins with a run, and what follows the run
    begins with an element of the other kind. *)
Lemma runs_split l :
  l ≠ [] →
  ∃ b r rest, runs P l = (b, r) :: runs P rest ∧ l = r ++ rest ∧ r ≠ []
              ∧ Forall (λ x, P x = b) r ∧ (∀ x, head rest = Some x → P x = negb b).
Proof.
  induction l as [|x l IH]; [done|]. intros _. destruct l as [|y l].
  { exists (P x), [x], []. by repeat split; try constructor. }
  destruct (IH ltac:(done)) as (b & r & rest & Hruns & Hl & Hr & Hb & Hrest).
  rewrite runs_cons Hruns. case_decide as Hx.
  - exists b, (x :: r), rest. rewrite /= -Hl. by repeat split; try constructor.
  - exists (P x), [x], (y :: l). rewrite Hruns. repeat split; [done|by repeat constructor|].
    intros ? [= <-]. destruct r as [|z r]; [done|]. simplify_eq/=.
    apply Forall_cons_1 in Hb as [Hz _]. rewrite Hz. by destruct (P x), b.
Qed.

(** The nearest element before what follows a run is of the run. *)
Lemma head_reverse_app r l x :
  r ≠ [] → head (reverse r ++ l) = Some x → x ∈ r.
Proof.
  intros Hr. destruct (reverse r) as [|y r'] eqn:Hrev.
  { by apply (f_equal length) in Hrev; rewrite length_reverse in Hrev; destruct r. }
  intros [= <-]. apply elem_of_reverse. rewrite Hrev. by left.
Qed.

End take_while.

(** ** Column blocks *)

Section blocks.
Context (p : Params).
Implicit Types (ws : list nat) (line : list cell).
Implicit Types (lines before after r : list (list cell)).

Lemma stops_has_cell c j l : c ≤ j → stops (has_cell c) l → stops (has_cell j) l.
Proof.
  intros Hj Hstop x Hx. specialize (Hstop x Hx).
  rewrite ->has_cell_false in *. lia.
Qed.

(** The block of a line inside a run that ends on both sides is found
    inside the run. *)
Lemma block_around_inner j before after r1 r2 line :
  stops (has_cell j) before → stops (has_cell j) after →
  block_around j (reverse r1 ++ before) (r2 ++ after) line
  = block_around j (reverse r1) r2 line.
Proof. intros Hb Ha. by rewrite /block_around !take_while_app_stop. Qed.

(** When all lines of the run have a cell at the position, the block is
    the run. *)
Lemma block_around_all c r1 r2 line :
  Forall (λ l, has_cell c l = true) (r1 ++ r2) →
  block_around c (reverse r1) r2 line = r1 ++ line :: r2.
Proof.
  intros [H1 H2]%Forall_app. rewrite /block_around !take_while_all //.
  - by rewrite reverse_involutive.
  - by apply Forall_reverse.
Qed.

(** Two lines next to each other that have a cell at a position are in
    the same block. *)
Lemma block_around_adjacent j before after line1 line2 :
  has_cell j line1 = true → has_cell j line2 = true →
  block_around j before (line2 :: after) line1
  = block_around j (line1 :: before) after line2.
Proof.
  intros H1 H2. by rewrite /block_around /= H1 H2 reverse_cons -app_assoc.
Qed.

(** The widths of a line of a run that has a cell in the next column:
    the width of the run comes first. *)
Lemma widths_at_run ws before after r1 r2 line :
  Forall (λ l, has_cell (length ws) l = true) (r1 ++ line :: r2) →
  stops (has_cell (length ws)) before → stops (has_cell (length ws)) after →
  widths_at p ws (reverse r1 ++ before) (r2 ++ after) line
  = widths_at p (ws ++ [column_width p (length ws) (r1 ++ line :: r2)]) (reverse r1) r2 line.
Proof.
  intros Hr Hb Ha. pose proof Hr as [Hr1 [Hline Hr2]%Forall_cons_1]%Forall_app.
  apply has_cell_true in Hline. rewrite /widths_at length_app /= -app_assoc.
  replace (length line - 1 - length ws) with (S (length line - 1 - (length ws + 1))) by lia.
  cbn [seq]. rewrite fmap_cons block_around_inner // block_around_all; [|by apply Forall_app].
  rewrite Nat.add_1_r. do 2 f_equal. apply list_fmap_ext.
  intros i j [Hj _]%lookup_seq.
  by rewrite block_around_inner; [|eapply stops_has_cell; [|done]; lia..].
Qed.

Lemma widths_at_no_cell ws before after line :
  has_cell (length ws) line = false → widths_at p ws before after line = ws.
Proof.
  intros Hline%has_cell_false. rewrite /widths_at.
  replace (length line - 1 - length ws) with 0 by lia. by rewrite /= app_nil_r.
Qed.

(** ** The table, run by run *)

(** A run with a cell in the next column, between lines without one. *)
Lemma table_from_block ws before after r1 r2 :
  Forall (λ l, has_cell (length ws) l = true) (r1 ++ r2) →
  stops (has_cell (length ws)) before → stops (has_cell (length ws)) after →
  table_from p ws (reverse r1 ++ before) (r2 ++ after)
  = table_from p (ws ++ [column_width p (length ws) (r1 ++ r2)]) (reverse r1) r2
    ++ table_from p ws (reverse (r1 ++ r2) ++ before) after.
Proof.
  revert r1. induction r2 as [|line r2 IH]; intros r1 Hr Hb Ha.
  { by rewrite /= !app_nil_r. }
  rewrite /= widths_at_run //. f_equal.
  specialize (IH (r1 ++ [line])). rewrite reverse_snoc -!app_assoc /= in IH.
  by apply IH.
Qed.

(** A run without a cell in the next column. *)
Lemma table_from_no_cell ws before after r :
  Forall (λ l, has_cell (length ws) l = false) r →
  table_from p ws before (r ++ after)
  = (writeLine p ws <$> r) ++ table_from p ws (reverse r ++ before) after.
Proof.
  revert before. induction r as [|line r IH]; intros before; [done|].
  intros [Hline Hr]%Forall_cons_1.
  by rewrite /= widths_at_no_cell // IH // reverse_cons -app_assoc.
Qed.

(** The table is made of the runs of the lines: those without a cell in
    the next column as they are, the others as tables of their own with
    one more width. *)
Lemma table_from_runs ws before lines :
  (∀ x y, head before = Some x → head lines = Some y →
          has_cell (length ws) x ≠ has_cell (length ws) y) →
  table_from p ws before lines
  = mjoin ((λ run : bool * list (list cell),
              if run.1
              then table_from p (ws ++ [column_width p (length ws) run.2]) [] run.2
              else writeLine p ws <$> run.2)
           <$> runs (has_cell (length ws)) lines).
Proof.
  remember (length lines) as n eqn:Hn. revert before lines Hn.
  induction n as [n IH] using lt_wf_ind. intros before lines -> Hhead.
  destruct (decide (lines = [])) as [->|Hne]; [done|].
  destruct (runs_split (has_cell (length ws)) lines Hne)
    as (b & r & rest & -> & -> & Hr & Hb & Hrest).
  assert (∀ x y, head (reverse r ++ before) = Some x → head rest = Some y →
            has_cell (length ws) x ≠ has_cell (length ws) y) as Hnext.
  { intros x y Hx%head_reverse_app Hy%Hrest; [|done].
    rewrite Hy. rewrite list.Forall_forall in Hb. rewrite (Hb x Hx). by destruct b. }
  assert (length rest < length (r ++ rest)) as Hlen.
  { rewrite length_app. destruct r; [done|simpl; lia]. }
  rewrite fmap_cons. cbn [mjoin list_join]. rewrite -(IH _ Hlen (reverse r ++ before)) //.
  destruct b; simpl.
  - rewrite -(app_nil_l r) -{1}(app_nil_l before).
    apply (table_from_block ws before rest [] r); [done| |by intros x Hx%Hrest].
    intros x Hx. destruct r as [|y r]; [done|].
    apply Forall_cons_1 in Hb as [Hy _]. specialize (Hhead x y Hx eq_refl).
    rewrite Hy in Hhead. by destruct (has_cell _ x).
  - by apply table_from_no_cell.
Qed.

(** ** The algorithm computes the table *)

Lemma format_table_from fuel ws lines :
  Forall (λ line, length line ≤ length ws + 1 + fuel) lines →
  format fuel p ws lines = table_from p ws [] lines.
Proof.
  revert ws lines. induction fuel as [|fuel IH]; intros ws lines Hlen.
  - rewrite -{2}(app_nil_r lines) table_from_no_cell /= ?app_nil_r //.
    apply no_cell_le. eapply Forall_impl; [|done]. simpl. intros; lia.
  - rewrite format_S table_from_runs; [|done]. f_equal.
    apply list_fmap_ext. intros i [[] blk] Hrun%list_elem_of_lookup_2; [|done]. simpl.
    apply IH. rewrite length_app /=. apply list.Forall_forall. intros line Hline.
    rewrite list.Forall_forall in Hlen.
    pose proof (Hlen line (runs_elem_of _ _ _ _ _ Hrun Hline)). lia.
Qed.

(** [format] from the first column, with fuel for the longest line. *)
Lemma format_table fuel lines :
  depth lines ≤ fuel → format fuel p [] lines = table p lines.
Proof.
  intros Hfuel. apply format_table_from, list.Forall_forall. intros line Hline.
  assert (length line ≤ depth lines); [|simpl; lia].
  by apply max_list_elem_of_le, list_elem_of_fmap_2.
Qed.

(** Two lines next to each other agree on the widths of the columns in
    which both have a cell. *)
Lemma widths_at_adjacent before after line1 line2 j :
  has_cell j line1 = true → has_cell j line2 = true →
  widths_at p [] before (line2 :: after) line1 !! j
  = widths_at p [] (line1 :: before) after line2 !! j.
Proof.
  intros H1 H2. rewrite /widths_at /= !Nat.sub_0_r !list_lookup_fmap.
  pose proof H1 as H1'%has_cell_true. pose proof H2 as H2'%has_cell_true.
  rewrite !lookup_seq_lt; [|lia..]. by rewrite /= block_around_adjacent.
Qed.

End blocks.

(** What a flush writes, for every block. *)
Lemma layout_table_any b : layout b = join_lines (table (params b) (lines_of b)).
Proof. by rewrite /layout format_table. Qed.
