(* ===== verification/Reconciler.v ===== *)
(** * The Reference Reconciler

    The part of [CmdImages] (images.go, lines 77-106) that turns the tag
    and digest strings of one image record into (repository, tag, digest)
    triples: the dangling-collapse rule, the concatenation of the two
    lists, and the resolution of one reference string.  [reconcile] is the
    pure function of a record that the loop of the handler computes row by
    row. *)

From Stdlib Require Import Ascii ZArith Lia.
From stdpp Require Import ssreflect base tactics option list strings numbers.
From S2P Require Import Prelude GoString Externals Instances.

Set Default Proof Using "Type".
Set Warnings "-rewrite-rw,-clear-no-such-hyp".

(** ** Data *)

(** The three values a row shows for a reference (lines 89-91). *)
Record Triple := { repo : string; tag : string; digest : string }.

#[export] Instance Triple_eq_dec : EqDecision Triple.
Proof. solve_decision. Defined.

(** The display value of a missing field. *)
Definition none : string := "<none>".

(** The triple the loop starts from: every field "<none>" (lines 89-91). *)
Definition noneTriple : Triple := {| repo := none; tag := none; digest := none |}.

(** ** Operations *)

(** The condition of line 80.  The index expressions [repoTags[0]] and
    [repoDigests[0]] are evaluated only after the length tests. *)
Definition isDangling (repoTags repoDigests : list string) : bool :=
  bool_decide (length repoTags = 1)
  && bool_decide (repoTags !! 0 = Some "<none>:<none>")
  && bool_decide (length repoDigests = 1)
  && bool_decide (repoDigests !! 0 = Some "<none>@<none>").

(** Lines 77-83: the digest list after the dangling rule. *)
Definition collapseDigests (repoTags repoDigests : list string) : list string :=
  if isDangling repoTags repoDigests then [] else repoDigests.

(** Lines 77-86: the combined list of reference strings of a record. *)
Definition tagsAndDigests (image : Image) : list string :=
  RepoTags image ++ collapseDigests (RepoTags image) (RepoDigests image).

(** Lines 98-105: the triple of a parsed reference.  The type switch tests
    [reference.Digested] first, then [reference.Tagged]; at most one case
    runs. *)
Definition namedTriple (ref : Named) : Triple :=
  match asDigested ref with
  | Some d => {| repo := Name ref; tag := none; digest := d |}
  | None =>
      match asTagged ref with
      | Some t => {| repo := Name ref; tag := t; digest := none |}
      | None => {| repo := Name ref; tag := none; digest := none |}
      end
  end.

Section reconciler_defs.
Context `{Collab}.

(** Lines 89-106: the triple of one reference string, or the error of
    [reference.ParseNamed]. *)
Definition resolveRef (repoAndRef : string) : outcome error Triple :=
  if negb (HasPrefix repoAndRef "<none>") then
    ref ← ParseNamed repoAndRef;
    mret (namedTriple ref)
  else mret noneTriple.

(** The triples of a record, in the order of the rows. *)
Definition reconcile (image : Image) : outcome error (list Triple) :=
  mapM resolveRef (tagsAndDigests image).

End reconciler_defs.

(** The triples of the record [img_foo] of the examples. *)
Definition t_foo : Triple := {| repo := "library/foo"; tag := "latest"; digest := none |}.

Definition ts_foo : list Triple :=
  [ t_foo;
    {| repo := "foo"; tag := "v1"; digest := none |};
    {| repo := "foo"; tag := none; digest := "sha256:aa11" |} ].

(** ** Properties of the parts *)

Section reconciler.
Context `{Collab}.

Lemma collapseDigests_dangling :
  collapseDigests ["<none>:<none>"] ["<none>@<none>"] = [].
Proof. done. Qed.

Lemma collapseDigests_other repoTags repoDigests :
  isDangling repoTags repoDigests = false →
  collapseDigests repoTags repoDigests = repoDigests.
Proof. rewrite /collapseDigests. by intros ->. Qed.

Lemma resolveRef_parse s :
  HasPrefix s "<none>" = false → resolveRef s = namedTriple <$> ParseNamed s.
Proof. rewrite /resolveRef. intros ->. by destruct (ParseNamed s). Qed.

Lemma resolveRef_Err s e :
  resolveRef s = Err e ↔ HasPrefix s "<none>" = false ∧ ParseNamed s = Err e.
Proof.
  rewrite /resolveRef. destruct (HasPrefix s "<none>"); simpl.
  - split; [done|by intros [? _]].
  - destruct (ParseNamed s); simpl; split; try done; naive_solver.
Qed.

Lemma namedTriple_one_of ref :
  tag (namedTriple ref) = none ∨ digest (namedTriple ref) = none.
Proof.
  rewrite /namedTriple. destruct (asDigested ref), (asTagged ref); auto.
Qed.

Lemma resolveRef_one_of s t :
  resolveRef s = Ok t → tag t = none ∨ digest t = none.
Proof.
  rewrite /resolveRef. destruct (HasPrefix s "<none>"); simpl.
  - intros [= <-]. by left.
  - destruct (ParseNamed s); simpl; [|done]. intros [= <-].
    apply namedTriple_one_of.
Qed.

(** ** The claims on the reconciler *)

(** C2.  A record whose tag list is exactly ["<none>:<none>"] and whose
    digest list is exactly ["<none>@<none>"] is reconciled to exactly one
    triple, all of whose fields are "<none>", whatever its id, creation
    time and size and whatever the reference parser does. *)
Theorem reconcile_dangling id created size :
  reconcile {| ID := id; RepoTags := ["<none>:<none>"];
               RepoDigests := ["<none>@<none>"];
               Created := created; Size := size |}
  = Ok [noneTriple].
Proof. done. Qed.

(** C3.  For a record that is not the dangling singleton, whose tags
    resolve to [ts] and whose digests resolve to [ds], [reconcile] gives
    [ts ++ ds]: one triple per tag and per digest, the tags first, each
    list in its order. *)
Theorem reconcile_tags_then_digests image ts ds :
  isDangling (RepoTags image) (RepoDigests image) = false →
  mapM resolveRef (RepoTags image) = Ok ts →
  mapM resolveRef (RepoDigests image) = Ok ds →
  reconcile image = Ok (ts ++ ds)
  ∧ length (ts ++ ds) = length (RepoTags image) + length (RepoDigests image).
Proof.
  intros Hd Hts Hds.
  rewrite /reconcile /tagsAndDigests collapseDigests_other // mapM_app Hts /= Hds /=.
  split; [done|].
  by rewrite length_app (mapM_Ok_length _ _ _ Hts) (mapM_Ok_length _ _ _ Hds).
Qed.

(** C10.  No triple of a reconciled record has both a tag and a digest:
    one of the two fields is "<none>". *)
Theorem reconcile_never_both image ts :
  reconcile image = Ok ts →
  Forall (λ t, tag t = none ∨ digest t = none) ts.
Proof.
  rewrite /reconcile mapM_Ok_iff. intros Hall.
  induction Hall as [|s t ?? Hs _ IH]; constructor; [|done].
  by apply (resolveRef_one_of s).
Qed.

(** C14.  The reconciliation of a record fails exactly when one of its
    reference strings does not start with "<none>" and is refused by the
    parser; the error is the parser's, for the first such string, and the
    strings before it all resolve. *)
Theorem reconcile_Err_iff image e :
  reconcile image = Err e ↔
  ∃ l1 s l2 ts, tagsAndDigests image = l1 ++ s :: l2
    ∧ mapM resolveRef l1 = Ok ts
    ∧ HasPrefix s "<none>" = false ∧ ParseNamed s = Err e.
Proof.
  rewrite /reconcile mapM_Err_iff.
  by setoid_rewrite resolveRef_Err.
Qed.

(** The number of triples of a reconciled record: one per tag, and
    one per digest unless the record is the dangling singleton. *)
Theorem reconcile_length image ts :
  reconcile image = Ok ts →
  length ts = length (RepoTags image)
    + (if isDangling (RepoTags image) (RepoDigests image) then 0
       else length (RepoDigests image)).
Proof.
  intros Hts%mapM_Ok_length. rewrite Hts /tagsAndDigests length_app.
  rewrite /collapseDigests. by destruct (isDangling _ _).
Qed.

(** C33.  A reference string that does not start with "<none>" and that
    parses is shown with the name of the parsed reference and with its
    digest when it has one, its tag being dropped then; with its tag when
    it has a tag and no digest; with neither when it is a bare name.  The
    switch of lines 100-105 runs its first matching case only. *)
Theorem resolveRef_parsed s ref :
  HasPrefix s "<none>" = false → ParseNamed s = Ok ref →
  resolveRef s =
    Ok {| repo := Name ref;
          tag := match asDigested ref with
                 | Some _ => none
                 | None => default none (asTagged ref)
                 end;
          digest := default none (asDigested ref) |}.
Proof.
  intros Hp Hs. rewrite resolveRef_parse // Hs /= /namedTriple.
  by destruct (asDigested ref), (asTagged ref).
Qed.

(** The dangling rule applies to exactly one shape of record: the tag
    list is the single entry "<none>:<none>" and the digest list is the
    single entry "<none>@<none>". *)
Theorem isDangling_iff repoTags repoDigests :
  isDangling repoTags repoDigests = true ↔
  repoTags = ["<none>:<none>"] ∧ repoDigests = ["<none>@<none>"].
Proof.
  rewrite /isDangling !andb_true_iff !bool_decide_eq_true. split.
  - intros [[[Ht1 Ht2] Hd1] Hd2].
    destruct repoTags as [|? [|??]], repoDigests as [|? [|??]]; by simplify_eq/=.
  - by intros [-> ->].
Qed.

(** C34.  A reference string that starts with "<none>" is shown as the
    all-none triple and is never given to the parser, whatever follows the
    prefix. *)
Theorem resolveRef_sentinel rest :
  resolveRef ("<none>" +:+ rest) = Ok noneTriple.
Proof. by rewrite /resolveRef HasPrefix_app. Qed.

End reconciler.

(** ** Witnesses on the test instance *)

Lemma reconcile_tags_then_digests_witness :
  @reconcile tc img_foo
  = Ok ([ {| repo := "library/foo"; tag := "latest"; digest := none |};
          {| repo := "foo"; tag := "v1"; digest := none |} ]
        ++ [ {| repo := "foo"; tag := none; digest := "sha256:aa11" |} ])
  ∧ length ([ {| repo := "library/foo"; tag := "latest"; digest := none |};
              {| repo := "foo"; tag := "v1"; digest := none |} ]
            ++ [ {| repo := "foo"; tag := none; digest := "sha256:aa11" |} ])
    = length (RepoTags img_foo) + length (RepoDigests img_foo).
Proof.
  apply (@reconcile_tags_then_digests tc img_foo); by vm_compute.
Defined.

Lemma reconcile_never_both_witness :
  Forall (λ t, tag t = none ∨ digest t = none)
    [ {| repo := "library/foo"; tag := "latest"; digest := none |};
      {| repo := "foo"; tag := "v1"; digest := none |};
      {| repo := "foo"; tag := none; digest := "sha256:aa11" |} ].
Proof. apply (@reconcile_never_both tc img_foo). by vm_compute. Defined.

Lemma reconcile_length_witness :
  length [ {| repo := "library/foo"; tag := "latest"; digest := none |};
           {| repo := "foo"; tag := "v1"; digest := none |};
           {| repo := "foo"; tag := none; digest := "sha256:aa11" |} ]
  = length (RepoTags img_foo)
    + (if isDangling (RepoTags img_foo) (RepoDigests img_foo) then 0
       else length (RepoDigests img_foo)).
Proof. apply (@reconcile_length tc img_foo). by vm_compute. Defined.

Lemma resolveRef_parsed_witness :
  @resolveRef tc "foo:v1@sha256:aa11"
  = Ok {| repo := "foo"; tag := none; digest := "sha256:aa11" |}.
Proof.
  by apply (@resolveRef_parsed tc "foo:v1@sha256:aa11"
              {| Name := "foo"; asTagged := Some "v1"; asDigested := Some "sha256:aa11" |}).
Defined.

(** The second tag of [img_bad] has no repository: the reconciliation fails
    with the parser's error, after the first tag resolved. *)
Example reconcile_img_bad : @reconcile tc img_bad = Err "invalid reference format".
Proof. by vm_compute. Qed.

(** The collapse rule applies to the exact singletons only: with a second
    digest entry nothing is dropped. *)
Example reconcile_not_collapsed :
  @reconcile tc {| ID := "x"; RepoTags := ["<none>:<none>"];
                   RepoDigests := ["<none>@<none>"; "<none>@<none>"];
                   Created := 0; Size := 0 |}
  = Ok [noneTriple; noneTriple; noneTriple].
Proof. by vm_compute. Qed.
