(* ===== verification/Renderer.v ===== *)
(** * The Row Renderer

    The part of [CmdImages] that decides what text is written: the flags
    of the command (images.go, lines 23-33), the header (lines 63-69), the
    displayed id (lines 72-75) and the text of one row in the three column
    sets (lines 108-116).  Everything here is a pure function; the handler
    of [Images] writes these texts to the table writer. *)

From Stdlib Require Import Ascii ZArith Lia.
From stdpp Require Import ssreflect base tactics option list strings numbers.
From S2P Require Import Prelude GoString Externals Instances Tabwriter Reconciler.

Set Warnings "-rewrite-rw,-clear-no-such-hyp".

(** ** The command line after parsing *)

(** The values of the flags declared at lines 24-30 and the positional
    arguments left by [cmd.ParseFlags] (line 33).  [cmd.Require(flag.Max, 1)]
    makes the parser refuse more than one argument. *)
Record ImagesFlags := {
  quiet : bool;
  all : bool;
  noTrunc : bool;
  showDigests : bool;
  flFilter : list string;
  args : list string;
}.

(** ** Texts *)

(** [fmt.Fprintln] of one string: the string and a newline. *)
Definition Sprintln (s : string) : string := s +:+ \n.

(** The header literals of lines 65 and 67. *)
Definition headerText (showDigests : bool) : string :=
  if showDigests
  then "REPOSITORY" +:+ \t +:+ "TAG" +:+ \t +:+ "DIGEST" +:+ \t +:+ "IMAGE ID"
       +:+ \t +:+ "CREATED" +:+ \t +:+ "SIZE"
  else "REPOSITORY" +:+ \t +:+ "TAG" +:+ \t +:+ "IMAGE ID"
       +:+ \t +:+ "CREATED" +:+ \t +:+ "SIZE".

(** The format of line 110: six fields. *)
Definition row6 (repo tag digest ID dur size : string) : string :=
  repo +:+ \t +:+ tag +:+ \t +:+ digest +:+ \t +:+ ID +:+ \t
  +:+ dur +:+ " ago" +:+ \t +:+ size +:+ \n.

(** The format of line 112: five fields. *)
Definition row5 (repo tag ID dur size : string) : string :=
  repo +:+ \t +:+ tag +:+ \t +:+ ID +:+ \t
  +:+ dur +:+ " ago" +:+ \t +:+ size +:+ \n.

(** The fields of the header and of a row, as lists. *)
Definition headerFields (showDigests : bool) : list string :=
  if showDigests
  then ["REPOSITORY"; "TAG"; "DIGEST"; "IMAGE ID"; "CREATED"; "SIZE"]
  else ["REPOSITORY"; "TAG"; "IMAGE ID"; "CREATED"; "SIZE"].

Definition rowFields (showDigests : bool) (t : Triple) (ID dur size : string) :
    list string :=
  if showDigests
  then [repo t; tag t; digest t; ID; dur +:+ " ago"; size]
  else [repo t; tag t; ID; dur +:+ " ago"; size].

Section renderer_defs.
Context `{Collab}.

(** Lines 72-75: the id a row shows. *)
Definition displayID (noTrunc : bool) (id : string) : string :=
  if negb noTrunc then TruncateID id else id.

(** The duration shown in the age column (lines 110 and 112):
    [time.Now().UTC().Sub(time.Unix(int64(image.Created), 0))] for the
    reading [now] of the clock. *)
Definition elapsed (now : Z) (image : Image) : Z :=
  time_Sub now (time_Unix (Created image) 0).

(** The age column: [units.HumanDuration] of that duration. *)
Definition ageOf (now : Z) (image : Image) : string :=
  HumanDuration (elapsed now image).

(** The size column: [units.HumanSize(float64(image.Size))]. *)
Definition sizeOf (image : Image) : string :=
  HumanSize (float64_of_int64 (Size image)).

(** Lines 108-116: the text written for one row. *)
Definition rowText (fl : ImagesFlags) (image : Image) (ID : string)
    (t : Triple) (now : Z) : string :=
  if negb (quiet fl) then
    if showDigests fl
    then row6 (repo t) (tag t) (digest t) ID (ageOf now image) (sizeOf image)
    else row5 (repo t) (tag t) ID (ageOf now image) (sizeOf image)
  else Sprintln ID.

(** The fields of one row: the id alone in quiet mode. *)
Definition fieldsOfRow (fl : ImagesFlags) (image : Image) (ID : string)
    (t : Triple) (now : Z) : list string :=
  if quiet fl then [ID]
  else rowFields (showDigests fl) t ID (ageOf now image) (sizeOf image).

(** The header as rows of fields: none in quiet mode. *)
Definition headerRows (fl : ImagesFlags) : list (list string) :=
  if quiet fl then [] else [headerFields (showDigests fl)].

End renderer_defs.

(** The flag sets of the examples: the defaults, [-q --digests], and
    [--digests --no-trunc]. *)
Definition fl_default : ImagesFlags :=
  {| quiet := false; all := false; noTrunc := false; showDigests := false;
     flFilter := []; args := [] |}.
Definition fl_quiet : ImagesFlags :=
  {| quiet := true; all := false; noTrunc := false; showDigests := true;
     flFilter := []; args := [] |}.
Definition fl_digests : ImagesFlags :=
  {| quiet := false; all := false; noTrunc := true; showDigests := true;
     flFilter := []; args := [] |}.

(** ** Texts as lines of fields *)

Section renderer.
Context `{Collab}.

Lemma headerText_tabline sd : Sprintln (headerText sd) = tabline (headerFields sd).
Proof. by destruct sd. Qed.

Lemma row6_tabline repo tag digest ID dur size :
  row6 repo tag digest ID dur size
  = tabline [repo; tag; digest; ID; dur +:+ " ago"; size].
Proof. by rewrite /row6 /= !str_app_assoc. Qed.

Lemma row5_tabline repo tag ID dur size :
  row5 repo tag ID dur size = tabline [repo; tag; ID; dur +:+ " ago"; size].
Proof. by rewrite /row5 /= !str_app_assoc. Qed.

Lemma rowText_tabline fl image ID t now :
  quiet fl = false →
  rowText fl image ID t now
  = tabline (rowFields (showDigests fl) t ID (ageOf now image) (sizeOf image)).
Proof.
  rewrite /rowText /rowFields. intros ->. simpl.
  destruct (showDigests fl); [apply row6_tabline|apply row5_tabline].
Qed.

Lemma rowText_fieldsOfRow fl image ID t now :
  rowText fl image ID t now = tabline (fieldsOfRow fl image ID t now).
Proof.
  rewrite /fieldsOfRow. destruct (quiet fl) eqn:Hq; [|by apply rowText_tabline].
  by rewrite /rowText Hq.
Qed.

Lemma headerFields_plain sd : Forall (λ f, plain f = true) (headerFields sd).
Proof. destruct sd; by repeat constructor. Qed.

Lemma length_headerFields sd : length (headerFields sd) = if sd then 6 else 5.
Proof. by destruct sd. Qed.

Lemma length_rowFields sd t ID dur size :
  length (rowFields sd t ID dur size) = length (headerFields sd).
Proof. by destruct sd. Qed.

Lemma length_fieldsOfRow fl image ID t now :
  length (fieldsOfRow fl image ID t now)
  = if quiet fl then 1 else length (headerFields (showDigests fl)).
Proof. rewrite /fieldsOfRow. destruct (quiet fl); [done|apply length_rowFields]. Qed.

(** The number of tabs of a line of fields. *)
Lemma count_tab_tabline fields :
  count_char TAB (tabline fields)
  = pred (length fields) + sum_list (count_char TAB <$> fields).
Proof.
  induction fields as [|f [|f' fs] IH]; [done| |].
  - rewrite /tabline count_char_app /=. lia.
  - change (tabline (f :: f' :: fs)) with (f +:+ \t +:+ tabline (f' :: fs)).
    rewrite !count_char_app IH /=. lia.
Qed.

Lemma count_tab_plain_fields fields :
  Forall (λ f, plain f = true) fields →
  sum_list (count_char TAB <$> fields) = 0.
Proof.
  induction 1 as [|f fs Hf _ IH]; [done|].
  by rewrite /= IH (plain_count TAB f).
Qed.

(** ** Plain fields *)

Context `{!CollabPlain}.

Lemma namedTriple_plain s ref :
  ParseNamed s = Ok ref →
  plain (repo (namedTriple ref)) = true ∧ plain (tag (namedTriple ref)) = true
  ∧ plain (digest (namedTriple ref)) = true.
Proof.
  intros Hs. rewrite /namedTriple.
  pose proof (ParseNamed_Name_plain s ref Hs).
  destruct (asDigested ref) as [d|] eqn:Hd; simpl.
  { by rewrite (ParseNamed_Digest_plain s ref d). }
  destruct (asTagged ref) as [t|] eqn:Ht; simpl; [|done].
  by rewrite (ParseNamed_Tag_plain s ref t).
Qed.

Lemma resolveRef_plain s t :
  resolveRef s = Ok t →
  plain (repo t) = true ∧ plain (tag t) = true ∧ plain (digest t) = true.
Proof.
  rewrite /resolveRef. destruct (HasPrefix s "<none>"); simpl.
  - by intros [= <-].
  - destruct (ParseNamed s) as [ref|] eqn:Hs; simpl; [|done]. intros [= <-].
    by apply (namedTriple_plain s).
Qed.

Lemma displayID_plain noTrunc id :
  plain id = true → plain (displayID noTrunc id) = true.
Proof. rewrite /displayID. destruct noTrunc; [done|apply TruncateID_plain]. Qed.

Lemma rowFields_plain sd s t ID now image :
  resolveRef s = Ok t → plain ID = true →
  Forall (λ f, plain f = true)
    (rowFields sd t ID (ageOf now image) (sizeOf image)).
Proof.
  intros (? & ? & ?)%resolveRef_plain HID.
  assert (plain (ageOf now image +:+ " ago") = true).
  { by rewrite plain_app /ageOf HumanDuration_plain. }
  pose proof (HumanSize_plain (float64_of_int64 (Size image))).
  rewrite /rowFields. destruct sd; by repeat constructor.
Qed.

Lemma fieldsOfRow_plain fl s t ID now image :
  resolveRef s = Ok t → plain ID = true →
  Forall (λ f, plain f = true) (fieldsOfRow fl image ID t now).
Proof.
  intros Hs HID. rewrite /fieldsOfRow.
  destruct (quiet fl); [by repeat constructor|by eapply rowFields_plain].
Qed.

End renderer.

(** ** The claims on the renderer *)

(** C31.  Outside quiet mode a row has six tab-separated fields with the
    digest column (repository, tag, digest, id, age followed by " ago",
    size) and five without it (the same without the digest), in this
    order, and ends with a newline. *)
Theorem rowText_fields `{Collab} fl image ID t now :
  quiet fl = false →
  rowText fl image ID t now =
    if showDigests fl
    then tabline [repo t; tag t; digest t; ID; ageOf now image +:+ " ago"; sizeOf image]
    else tabline [repo t; tag t; ID; ageOf now image +:+ " ago"; sizeOf image].
Proof.
  intros Hq. rewrite rowText_tabline // /rowFields. by destruct (showDigests fl).
Qed.

(** A row written for a resolved reference and a plain id has as
    many tabs as the header of the same mode: the row has one cell per
    header column. *)
Theorem rowText_columns `{Collab} `{!CollabPlain} fl image ID s t now :
  quiet fl = false → resolveRef s = Ok t → plain ID = true →
  count_char TAB (rowText fl image ID t now)
  = count_char TAB (Sprintln (headerText (showDigests fl))).
Proof.
  intros Hq Hs HID.
  rewrite rowText_tabline // headerText_tabline !count_tab_tabline.
  rewrite (count_tab_plain_fields (headerFields _)); [|apply headerFields_plain].
  rewrite count_tab_plain_fields; [|by eapply rowFields_plain].
  by rewrite length_rowFields.
Qed.

(** C35.  The size column shows [units.HumanSize] of [float64(image.Size)],
    line 110, and the conversion is the one of the language: the value
    given to [HumanSize] is a float64, an integer of 53 bits at most times
    a power of two; no float64 is nearer to the size of the record; and a
    float64 that is as near on the other side of the size is the odd one
    of the two, the value given being the even multiple of their
    distance.  A size below 2^53 is hence shown exactly, and a larger one
    is off by half the distance between two float64 at most. *)
Theorem sizeOf_nearest `{Collab} image :
  let x := float64_of_int64 (Size image) in
  sizeOf image = HumanSize x
  ∧ representable x
  ∧ ∀ y, representable y →
      (Z.abs (x - Size image) ≤ Z.abs (y - Size image))%Z
      ∧ (y ≠ x → Z.abs (y - Size image) = Z.abs (x - Size image) →
         ∃ k, x = (2 * k * (x - y))%Z).
Proof.
  intros x. split; [done|]. split; [apply float64_of_int64_representable|].
  intros y. apply float64_of_int64_nearest.
Qed.

(** ** Witnesses on the test instance *)

Lemma rowText_fields_witness :
  @rowText tc fl_default img_foo "sha256:01234" t_foo (time_Unix 4600 0) =
    if showDigests fl_default
    then tabline [repo t_foo; tag t_foo; digest t_foo; "sha256:01234";
                  @ageOf tc (time_Unix 4600 0) img_foo +:+ " ago"; @sizeOf tc img_foo]
    else tabline [repo t_foo; tag t_foo; "sha256:01234";
                  @ageOf tc (time_Unix 4600 0) img_foo +:+ " ago"; @sizeOf tc img_foo].
Proof. by apply (@rowText_fields tc). Defined.

Lemma rowText_columns_witness :
  count_char TAB (@rowText tc fl_digests img_foo "sha256:01234" t_foo 0)
  = count_char TAB (Sprintln (headerText (showDigests fl_digests))).
Proof.
  by apply (@rowText_columns tc _ fl_digests img_foo "sha256:01234"
              "library/foo:latest" t_foo 0).
Defined.

(** The scenario of the specification: one tagged record, default mode,
    created an hour before the reading of the clock. *)
Example rowText_scenario :
  @rowText tc fl_default img_foo (@displayID tc false (ID img_foo)) t_foo
    (time_Unix 4600 0)
  = "library/foo" +:+ \t +:+ "latest" +:+ \t +:+ "sha256:01234" +:+ \t
    +:+ "3600 seconds ago" +:+ \t +:+ "1048576 B" +:+ \n.
Proof. by vm_compute. Qed.
