(* ===== verification/Images.v ===== *)
(** * The handler [CmdImages]

    The method of images.go (lines 22-124) as a program of the monad [M]
    over the state [World]: the table writer [w], the stream [cli.out] it
    flushes to, and the number of readings of the clock.  The handler is
    composed of the operations of [Reconciler] and [Renderer] the way the
    code composes them.

    [listing] is the abstract specification: the texts of the rows in
    order, the error that stopped the pass, if any, and the number of
    clock readings, as a pure function of the flags and the records.
    [CmdImages_refines] states that the handler writes exactly these texts
    through the table writer; the other theorems are read off it. *)

From Stdlib Require Import Ascii ZArith Lia.
From stdpp Require Import ssreflect base tactics option list strings numbers.
From S2P Require Import Prelude GoString Utf8 Externals Instances Tabwriter TabwriterLayout.
From S2P Require Import Reconciler Renderer.

Set Warnings "-rewrite-rw,-clear-no-such-hyp".

(** ** State *)

Record World := {
  tw : Writer;          (* the local [w] *)
  out : list block;     (* what reached [cli.out], one block per flush *)
  ticks : nat;          (* the number of calls of [time.Now] so far *)
}.

Definition set_writer (s : World) (st : Writer * list block) : World :=
  {| tw := st.1; out := st.2; ticks := ticks s |}.

(** The effect of [fmt.Fprintln(w, ...)] and [fmt.Fprintf(w, ...)]: one
    [Write] of the formatted text. *)
Definition emit (text : string) (s : World) : World :=
  set_writer s (Write text (tw s, out s)).

(** The effect of [w.Flush()]. *)
Definition flushW (s : World) : World := set_writer s (Flush (tw s, out s)).

(** The effect of one [time.Now()] on the state. *)
Definition tick (s : World) : World :=
  {| tw := tw s; out := out s; ticks := S (ticks s) |}.

Section images_defs.
Context `{Collab}.

#[local] Abbreviation Act := (M World error).

(** ** Statements *)

(** Line 62: [w := tabwriter.NewWriter(cli.out, 20, 1, 3, ' ', 0)]. *)
Definition newTabWriter : Act unit :=
  modify (λ s, {| tw := NewWriter 20 1 3 " " 0; out := out s; ticks := ticks s |}).

Definition Fprint (text : string) : Act unit := modify (emit text).

Definition Flush_w : Act unit := modify flushW.

(** [time.Now().UTC()]. *)
Definition timeNow : Act Z := λ s, (Ok (Now (ticks s)), tick s).

(** ** The handler, part by part *)

(** Lines 37-44: all filter flags folded into one criteria set; the first
    error of [filters.ParseFlag] ends the loop. *)
Definition consolidateFilters (flFilter : list string) : outcome error Args :=
  foldM (λ imageFilterArgs f, ParseFlag f imageFilterArgs) NewArgs flFilter.

(** Lines 46-49: [cmd.Arg(0)] when there is exactly one argument. *)
Definition matchNameOf (args : list string) : string :=
  if decide (length args = 1) then default "" (args !! 0) else "".

(** Lines 51-55. *)
Definition listOptions (fl : ImagesFlags) (imageFilterArgs : Args) :
    ImageListOptions Args :=
  {| MatchName := matchNameOf (args fl); All := all fl; Filters := imageFilterArgs |}.

(** Lines 63-69: the header, unless quiet. *)
Definition writeHeader (fl : ImagesFlags) : Act unit :=
  when (negb (quiet fl))
    (if showDigests fl
     then Fprint (Sprintln (headerText true))
     else Fprint (Sprintln (headerText false))).

(** Lines 88-116: the body of the inner loop for one reference string. *)
Definition writeRow (fl : ImagesFlags) (image : Image) (ID : string)
    (repoAndRef : string) : Act unit :=
  t ← lift (resolveRef repoAndRef);
  if negb (quiet fl) then
    if showDigests fl then
      now ← timeNow;
      Fprint (row6 (repo t) (tag t) (digest t) ID (ageOf now image) (sizeOf image))
    else
      now ← timeNow;
      Fprint (row5 (repo t) (tag t) ID (ageOf now image) (sizeOf image))
  else Fprint (Sprintln ID).

(** Lines 72-117: the body of the outer loop for one record. *)
Definition imageRows (fl : ImagesFlags) (image : Image) : Act unit :=
  let ID := displayID (noTrunc fl) (ID image) in
  forM_ (tagsAndDigests image) (writeRow fl image ID).

(** Lines 120-122. *)
Definition finish (fl : ImagesFlags) : Act unit :=
  when (negb (quiet fl)) Flush_w.

(** Lines 22-124, after the command line was parsed into [fl]. *)
Definition CmdImages (fl : ImagesFlags) : Act unit :=
  imageFilterArgs ← lift (consolidateFilters (flFilter fl));
  images ← lift (ImageList (listOptions fl imageFilterArgs));
  newTabWriter ;;
  writeHeader fl ;;
  forM_ images (imageRows fl) ;;
  finish fl ;;
  mret tt.

(** ** The abstract specification *)

(** The rows of one record from the reference strings [refs] on, when [k]
    readings of the clock were made: the rows written before the pass
    stops, each as its list of fields, the error that stops it, and the
    number of readings afterwards. *)
Fixpoint recordRows (fl : ImagesFlags) (image : Image) (ID : string) (k : nat)
    (refs : list string) : list (list string) * option error * nat :=
  match refs with
  | [] => ([], None, k)
  | r :: refs' =>
      match resolveRef r with
      | Err e => ([], Some e, k)
      | Ok t =>
          let k' := if quiet fl then k else S k in
          let '(rows, err, kend) := recordRows fl image ID k' refs' in
          (fieldsOfRow fl image ID t (Now k) :: rows, err, kend)
      end
  end.

(** The same for a list of records. *)
Fixpoint listingRows (fl : ImagesFlags) (k : nat) (images : list Image) :
    list (list string) * option error * nat :=
  match images with
  | [] => ([], None, k)
  | image :: images' =>
      let '(rows, err, k') :=
        recordRows fl image (displayID (noTrunc fl) (ID image)) k
          (tagsAndDigests image) in
      match err with
      | Some e => (rows, Some e, k')
      | None =>
          let '(rows', err', kend) := listingRows fl k' images' in
          (rows ++ rows', err', kend)
      end
  end.

(** The result and the final state of the command in the state [s]: the
    header and the rows go through a new table writer, which is flushed
    at the end of a pass that was not stopped, unless quiet. *)
Definition listing (fl : ImagesFlags) (s : World) : outcome error unit * World :=
  match consolidateFilters (flFilter fl) with
  | Err e => (Err e, s)
  | Ok imageFilterArgs =>
      match ImageList (listOptions fl imageFilterArgs) with
      | Err e => (Err e, s)
      | Ok images =>
          let '(rows, err, kend) := listingRows fl (ticks s) images in
          let st := Write (tablines (headerRows fl ++ rows))
                      (NewWriter 20 1 3 " " 0, out s) in
          match err with
          | Some e => (Err e, {| tw := st.1; out := st.2; ticks := kend |})
          | None =>
              let st' := if quiet fl then st else Flush st in
              (Ok tt, {| tw := st'.1; out := st'.2; ticks := kend |})
          end
      end
  end.

(** The rows of a listing as pairs: each record with each triple of its
    reconciliation, in the order of the records and of the triples. *)
Definition rowsOf (images : list Image) (tss : list (list Triple)) :
    list (Image * Triple) :=
  concat (zip_with (λ image ts, pair image <$> ts) images tss).

(** The ids shown for a listing: the displayed id of each record, once per
    triple of its reconciliation. *)
Definition shownIDs (fl : ImagesFlags) (images : list Image)
    (tss : list (list Triple)) : list string :=
  concat (zip_with (λ image ts,
            replicate (length ts) (displayID (noTrunc fl) (ID image)))
          images tss).

(** The final state of a pass that wrote [rows] and read the clock up to
    [kend]. *)
Definition wrote (rows : list (list string)) (kend : nat) (s : World) : World :=
  {| tw := (Write (tablines rows) (tw s, out s)).1;
     out := (Write (tablines rows) (tw s, out s)).2;
     ticks := kend |}.

Definition result_of (err : option error) : outcome error unit :=
  match err with Some e => Err e | None => Ok tt end.

End images_defs.

(** The state the examples start from. *)
Definition s0 : World := {| tw := NewWriter 0 0 0 " " 0; out := []; ticks := 0 |}.

(** ** Run lemmas of the statements *)

Section images.
Context `{Collab}.

Lemma emit_nil s : emit "" s = s.
Proof. by destruct s. Qed.

Lemma emit_ticks text s : ticks (emit text s) = ticks s.
Proof. done. Qed.

Lemma run_writeHeader fl s :
  writeHeader fl s = (Ok tt, emit (tablines (headerRows fl)) s).
Proof.
  rewrite /writeHeader /headerRows.
  destruct (quiet fl); simpl; [by rewrite emit_nil|].
  rewrite /tablines /= str_app_nil_r -headerText_tabline.
  by destruct (showDigests fl).
Qed.

(** One row: the reference is resolved first; the clock is read only when a
    full row is written. *)
Lemma run_writeRow fl image ID r s :
  writeRow fl image ID r s =
  match resolveRef r with
  | Err e => (Err e, s)
  | Ok t =>
      (Ok tt, emit (tabline (fieldsOfRow fl image ID t (Now (ticks s))))
                (if quiet fl then s else tick s))
  end.
Proof.
  rewrite /writeRow. destruct (resolveRef r) as [t|e]; [|done].
  rewrite run_lift_Ok -rowText_fieldsOfRow /rowText. destruct (quiet fl); [done|].
  by destruct (showDigests fl).
Qed.

Lemma wrote_nil s : wrote [] (ticks s) s = s.
Proof. by destruct s. Qed.

Lemma wrote_emit_step (q : bool) row rows kend s :
  wrote rows kend (emit (tabline row) (if q then s else tick s))
  = wrote (row :: rows) kend s.
Proof.
  rewrite /wrote tablines_cons Write_app.
  destruct q; simpl; by destruct (Write (tabline row) _).
Qed.

Lemma wrote_app rows rows' k kend s :
  wrote rows' kend (wrote rows k s) = wrote (rows ++ rows') kend s.
Proof. by rewrite /wrote /= tablines_app Write_app -surjective_pairing. Qed.

(** The inner loop writes the rows of [recordRows]. *)
Lemma run_recordRows fl image ID refs s :
  forM_ refs (writeRow fl image ID) s =
  let '(rows, err, kend) := recordRows fl image ID (ticks s) refs in
  (result_of err, wrote rows kend s).
Proof.
  revert s. induction refs as [|r refs IH]; intros s.
  - by rewrite /= wrote_nil.
  - rewrite forM__cons run_writeRow /=.
    destruct (resolveRef r) as [t|e]; [|by rewrite /= wrote_nil].
    rewrite IH emit_ticks.
    replace (ticks (if quiet fl then s else tick s))
      with (if quiet fl then ticks s else S (ticks s)) by by destruct (quiet fl).
    destruct (recordRows _ _ _ _ refs) as [[rows err] kend].
    by rewrite wrote_emit_step.
Qed.

(** The outer loop writes the rows of [listingRows]. *)
Lemma run_listingRows fl images s :
  forM_ images (imageRows fl) s =
  let '(rows, err, kend) := listingRows fl (ticks s) images in
  (result_of err, wrote rows kend s).
Proof.
  revert s. induction images as [|image images IH]; intros s.
  - by rewrite /= wrote_nil.
  - rewrite forM__cons /imageRows run_recordRows /=.
    destruct (recordRows _ _ _ _ _) as [[rows err] k'].
    destruct err as [e|]; [done|]. simpl. rewrite IH /=.
    destruct (listingRows _ _ images) as [[rows' err'] kend].
    by rewrite wrote_app.
Qed.

(** ** Properties of the rows *)

(** The clock is read once per row outside quiet mode and never in quiet
    mode. *)
Lemma recordRows_ticks fl image ID k refs rows err kend :
  recordRows fl image ID k refs = (rows, err, kend) →
  kend = if quiet fl then k else k + length rows.
Proof.
  revert k rows. induction refs as [|r refs IH]; intros k rows; simpl.
  - intros [= <- <- <-]. destruct (quiet fl); simpl; lia.
  - destruct (resolveRef r) as [t|e].
    + destruct (recordRows _ _ _ _ refs) as [[rows' err'] kend'] eqn:Hrec.
      intros [= <- <- <-]. apply IH in Hrec. destruct (quiet fl); simpl; lia.
    + intros [= <- <- <-]. destruct (quiet fl); simpl; lia.
Qed.

Lemma listingRows_ticks fl k images rows err kend :
  listingRows fl k images = (rows, err, kend) →
  kend = if quiet fl then k else k + length rows.
Proof.
  revert k rows. induction images as [|image images IH]; intros k rows; simpl.
  - intros [= <- <- <-]. destruct (quiet fl); simpl; lia.
  - destruct (recordRows _ _ _ _ _) as [[rows1 err1] k1] eqn:Hrec.
    apply recordRows_ticks in Hrec. destruct err1 as [e|].
    + by intros [= <- <- <-].
    + destruct (listingRows _ _ images) as [[rows2 err2] k2] eqn:Hlist.
      intros [= <- <- <-]. apply IH in Hlist. rewrite length_app.
      destruct (quiet fl); lia.
Qed.

(** The rows of a record are those of its reconciliation: when all
    references resolve, one row per triple in the order of [reconcile],
    the i-th row with the i-th reading of the clock. *)
Lemma recordRows_resolved fl image ID k refs ts :
  mapM resolveRef refs = Ok ts →
  recordRows fl image ID k refs =
    (imap (λ i t, fieldsOfRow fl image ID t (Now (if quiet fl then k else k + i))) ts,
     None, if quiet fl then k else k + length ts).
Proof.
  revert k ts. induction refs as [|r refs IH]; intros k ts; simpl.
  - intros [= <-]. simpl. by destruct (quiet fl); rewrite ?Nat.add_0_r.
  - destruct (resolveRef r) as [t|]; simpl; [|done].
    destruct (mapM resolveRef refs) as [ts'|]; simpl; [|done]. intros [= <-].
    rewrite (IH _ ts') //=. do 2 f_equal.
    + f_equal; [by destruct (quiet fl); rewrite ?Nat.add_0_r|].
      apply imap_ext. intros i t' _. simpl. do 2 f_equal.
      destruct (quiet fl); lia.
    + destruct (quiet fl); lia.
Qed.

(** When a reference does not resolve, the rows before it are written and
    the pass stops with its error. *)
Lemma recordRows_failed fl image ID k refs e :
  mapM resolveRef refs = Err e →
  ∃ rows kend, recordRows fl image ID k refs = (rows, Some e, kend)
    ∧ length rows < length refs.
Proof.
  revert k. induction refs as [|r refs IH]; intros k; simpl; [done|].
  destruct (resolveRef r) as [t|e']; simpl.
  - destruct (mapM resolveRef refs) as [ts'|e'] eqn:Hm; simpl; [done|].
    intros [= ->].
    destruct (IH (if quiet fl then k else S k) eq_refl) as (rows & kend & -> & ?).
    eexists _, _. split; [done|]. simpl. lia.
  - intros [= ->]. eexists _, _. split; [done|]. simpl. lia.
Qed.

(** ** Rows and reconciliation *)

(** The rows of a listing when every record reconciles and the fields of
    a row do not depend on the reading of the clock: for each record in
    order, one row per triple of its reconciliation, in order. *)
Lemma listingRows_resolved fl k images tss
    (g : Image → string → Triple → list string) :
  (∀ image ID t i, fieldsOfRow fl image ID t (Now i) = g image ID t) →
  mapM reconcile images = Ok tss →
  listingRows fl k images =
    (concat (zip_with (λ image ts, g image (displayID (noTrunc fl) (ID image)) <$> ts)
               images tss),
     None, if quiet fl then k else k + length (concat tss)).
Proof.
  intros Hg. revert k tss. induction images as [|image images IH]; intros k tss; simpl.
  - intros [= <-]. simpl. by destruct (quiet fl); rewrite ?Nat.add_0_r.
  - destruct (reconcile image) as [ts|] eqn:Hts; simpl; [|done].
    destruct (mapM reconcile images) as [tss'|] eqn:Htss; simpl; [|done].
    intros [= <-]. rewrite (recordRows_resolved _ _ _ _ _ ts) //.
    rewrite (IH _ tss') //=. do 2 f_equal.
    + f_equal. rewrite -imap_const. apply imap_ext. intros i t _. apply Hg.
    + rewrite length_app. destruct (quiet fl); lia.
Qed.

Lemma length_rowsOf images tss :
  length images = length tss → length (rowsOf images tss) = length (concat tss).
Proof.
  rewrite /rowsOf. revert tss.
  induction images as [|image images IH]; intros [|ts tss]; simpl; try done.
  intros [= Hlen]. by rewrite !length_app length_fmap IH.
Qed.

(** The rows of a listing when every record reconciles: the i-th row of
    the listing is written with the i-th reading of the clock. *)
Lemma listingRows_resolved_clock fl k images tss :
  mapM reconcile images = Ok tss →
  listingRows fl k images =
    (imap (λ i p, fieldsOfRow fl p.1 (displayID (noTrunc fl) (ID p.1)) p.2
                    (Now (if quiet fl then k else k + i))) (rowsOf images tss),
     None, if quiet fl then k else k + length (concat tss)).
Proof.
  revert k tss. induction images as [|image images IH]; intros k tss; simpl.
  - intros [= <-]. simpl. by destruct (quiet fl); rewrite ?Nat.add_0_r.
  - destruct (reconcile image) as [ts|] eqn:Hts; simpl; [|done].
    destruct (mapM reconcile images) as [tss'|] eqn:Htss; simpl; [|done].
    intros [= <-]. rewrite (recordRows_resolved _ _ _ _ _ ts) //.
    rewrite (IH _ tss') //= /rowsOf /= imap_app imap_fmap length_fmap. do 2 f_equal.
    + f_equal. apply imap_ext. intros i p _. simpl. do 2 f_equal.
      destruct (quiet fl); lia.
    + rewrite length_app. destruct (quiet fl); lia.
Qed.

Lemma length_shownIDs fl images tss :
  length images = length tss → length (shownIDs fl images tss) = length (concat tss).
Proof.
  rewrite /shownIDs. revert tss.
  induction images as [|image images IH]; intros [|ts tss]; simpl; try done.
  intros [= Hlen]. by rewrite !length_app length_replicate IH.
Qed.

Lemma listingRows_resolved_quiet fl k images tss :
  quiet fl = true →
  mapM reconcile images = Ok tss →
  listingRows fl k images = ((λ id, [id]) <$> shownIDs fl images tss, None, k).
Proof.
  intros Hq Hts.
  rewrite (listingRows_resolved fl k images tss (λ _ ID _, [ID])) //;
    [|intros; by rewrite /fieldsOfRow Hq].
  rewrite Hq. do 2 f_equal. rewrite /shownIDs. clear Hts. revert tss.
  induction images as [|image images IH]; intros [|ts tss]; simpl; try done.
  rewrite fmap_app IH fmap_replicate. f_equal.
  induction ts as [|t ts IHts]; simpl; [done|by f_equal].
Qed.

(** A record that does not reconcile stops the listing with its error. *)
Lemma listingRows_failed fl k images e :
  mapM reconcile images = Err e →
  ∃ rows kend, listingRows fl k images = (rows, Some e, kend).
Proof.
  revert k. induction images as [|image images IH]; intros k; simpl; [done|].
  destruct (reconcile image) as [ts|e'] eqn:Hts; simpl.
  - rewrite (recordRows_resolved _ _ _ _ _ ts) //.
    destruct (mapM reconcile images) as [|e']; simpl; [done|]. intros [= ->].
    destruct (IH (if quiet fl then k else k + length ts) eq_refl) as (rows & kend & ->).
    by eexists _, _.
  - intros [= ->].
    destruct (recordRows_failed fl image (displayID (noTrunc fl) (ID image)) k _ _ Hts)
      as (rows & kend & -> & _).
    by eexists _, _.
Qed.

(** ** The error of a listing *)

(** A pass stops with an error exactly when a reference does not resolve,
    and the error is that of the first such reference. *)
Lemma recordRows_err fl image ID k refs :
  (recordRows fl image ID k refs).1.2 =
  match mapM resolveRef refs with Ok _ => None | Err e => Some e end.
Proof.
  revert k. induction refs as [|r refs IH]; intros k; simpl; [done|].
  destruct (resolveRef r) as [t|e]; simpl; [|done].
  specialize (IH (if quiet fl then k else S k)).
  destruct (recordRows _ _ _ _ refs) as [[rows err] kend]. simpl in *.
  rewrite IH. by destruct (mapM resolveRef refs).
Qed.

Lemma listingRows_err fl k images :
  (listingRows fl k images).1.2 =
  match mapM reconcile images with Ok _ => None | Err e => Some e end.
Proof.
  revert k. induction images as [|image images IH]; intros k; simpl; [done|].
  pose proof (recordRows_err fl image (displayID (noTrunc fl) (ID image)) k
                (tagsAndDigests image)) as Hrec.
  destruct (recordRows _ _ _ _ _) as [[rows err] k']. simpl in Hrec.
  rewrite /reconcile -/(reconcile) Hrec.
  destruct (mapM resolveRef _) as [ts|e]; simpl; [|done].
  specialize (IH k').
  destruct (listingRows _ _ images) as [[rows' err'] kend]. simpl in *.
  rewrite IH. by destruct (mapM reconcile images).
Qed.

(** ** Quiet rows *)

(** In quiet mode the rows depend on the flags through [noTrunc] only. *)
Lemma recordRows_quiet_ext fl fl' image ID k refs :
  quiet fl = true → quiet fl' = true →
  recordRows fl image ID k refs = recordRows fl' image ID k refs.
Proof.
  intros Hq Hq'. revert k. induction refs as [|r refs IH]; intros k; simpl; [done|].
  destruct (resolveRef r) as [t|e]; [|done].
  by rewrite /fieldsOfRow Hq Hq' IH.
Qed.

Lemma listingRows_quiet_ext fl fl' k images :
  quiet fl = true → quiet fl' = true → noTrunc fl = noTrunc fl' →
  listingRows fl k images = listingRows fl' k images.
Proof.
  intros Hq Hq' Hn. revert k. induction images as [|image images IH]; intros k; simpl; [done|].
  rewrite -Hn (recordRows_quiet_ext fl fl') //.
  destruct (recordRows _ _ _ _ _) as [[rows err] k']. destruct err; [done|].
  by rewrite IH.
Qed.

(** ** Plain rows *)

Context `{!CollabPlain}.

Lemma recordRows_plain fl image ID k refs rows err kend :
  plain ID = true →
  recordRows fl image ID k refs = (rows, err, kend) →
  Forall (λ row, Forall (λ f, plain f = true) row) rows.
Proof.
  intros HID. revert k rows. induction refs as [|r refs IH]; intros k rows; simpl.
  - by intros [= <- <- <-].
  - destruct (resolveRef r) as [t|e] eqn:Hr; [|by intros [= <- <- <-]].
    destruct (recordRows _ _ _ _ refs) as [[rows' err'] kend'] eqn:Hrec.
    intros [= <- <- <-]. constructor; [by eapply fieldsOfRow_plain|by eapply IH].
Qed.

Lemma recordRows_length fl image ID k refs rows err kend :
  recordRows fl image ID k refs = (rows, err, kend) →
  Forall (λ row, length row
            = if quiet fl then 1 else length (headerFields (showDigests fl))) rows.
Proof.
  revert k rows. induction refs as [|r refs IH]; intros k rows; simpl.
  - by intros [= <- <- <-].
  - destruct (resolveRef r) as [t|e] eqn:Hr; [|by intros [= <- <- <-]].
    destruct (recordRows _ _ _ _ refs) as [[rows' err'] kend'] eqn:Hrec.
    intros [= <- <- <-]. constructor; [apply length_fieldsOfRow|by eapply IH].
Qed.

Lemma listingRows_plain fl k images rows err kend :
  Forall (λ image, plain (ID image) = true) images →
  listingRows fl k images = (rows, err, kend) →
  Forall (λ row, Forall (λ f, plain f = true) row
            ∧ length row
              = if quiet fl then 1 else length (headerFields (showDigests fl))) rows.
Proof.
  intros Himgs. revert k rows.
  induction Himgs as [|image images Hid _ IH]; intros k rows; simpl.
  - by intros [= <- <- <-].
  - destruct (recordRows _ _ _ _ _) as [[rows1 err1] k1] eqn:Hrec.
    assert (Forall (λ row, Forall (λ f, plain f = true) row
              ∧ length row
                = if quiet fl then 1 else length (headerFields (showDigests fl))) rows1)
      as Hrows1.
    { apply Forall_and.
      - eapply recordRows_plain; [|done]. by apply displayID_plain.
      - by eapply recordRows_length. }
    destruct err1 as [e|]; [by intros [= <- <- <-]|].
    destruct (listingRows _ _ images) as [[rows2 err2] k2] eqn:Hlist.
    intros [= <- <- <-]. apply Forall_app. split; [done|by eapply IH].
Qed.

(** What a table writer that received the header and the rows holds, and
    what it sent out, in the two modes. *)
Lemma Write_listing_nonquiet fl rows o :
  quiet fl = false →
  Forall (λ row, Forall (λ f, plain f = true) row
            ∧ length row = length (headerFields (showDigests fl))) rows →
  Write (tablines (headerRows fl ++ rows)) (NewWriter 20 1 3 " " 0, o) =
    (with_text (NewWriter 20 1 3 " " 0) "" false []
       (cells_of <$> headerFields (showDigests fl) :: rows), o).
Proof.
  intros Hq Hrows. rewrite /headerRows Hq Write_tablines_buffered //.
  constructor.
  - split; [apply headerFields_plain|]. rewrite length_headerFields.
    destruct (showDigests fl); lia.
  - eapply Forall_impl; [|exact Hrows]. intros row [? Hlen]. split; [done|].
    rewrite Hlen length_headerFields. destruct (showDigests fl); lia.
Qed.

Lemma Write_listing_quiet fl rows o :
  quiet fl = true →
  Forall (λ row, Forall (λ f, plain f = true) row ∧ length row = 1) rows →
  Write (tablines (headerRows fl ++ rows)) (NewWriter 20 1 3 " " 0, o) =
    (NewWriter 20 1 3 " " 0,
     o ++ ((λ row, Block (cfg (NewWriter 20 1 3 " " 0)) [cells_of row] []) <$> rows)).
Proof. intros Hq Hrows. by rewrite /headerRows Hq Write_tablines_single. Qed.

End images.

(** ** The claims on the handler *)

Section claims.
Context `{Collab}.

(** The run of the handler, statement by statement. *)
Lemma run_CmdImages fl s : CmdImages fl s = listing fl s.
Proof.
  rewrite /CmdImages /listing.
  destruct (consolidateFilters _) as [a|e]; autorewrite with go; [|done].
  destruct (ImageList _) as [images|e]; autorewrite with go; [|done].
  rewrite run_bind /newTabWriter /modify run_bind run_writeHeader.
  rewrite run_bind run_listingRows emit_ticks /=.
  destruct (listingRows _ _ images) as [[rows err] kend].
  rewrite /wrote /emit /set_writer /= tablines_app Write_app -surjective_pairing.
  destruct err as [e|]; [done|]. rewrite /= /finish /headerRows.
  by destruct (quiet fl).
Qed.

(** C1.  The handler implements the specification [listing]: in every
    state and for all flags, [CmdImages] returns what [listing] returns
    and leaves the writer, the output stream and the clock as [listing]
    describes them. *)
Theorem CmdImages_refines fl s : CmdImages fl s = listing fl s.
Proof. apply run_CmdImages. Qed.

(** C23.  A filter flag that [filters.ParseFlag] refuses ends the command
    with that error before anything else happens: the records are not
    shown, nothing is written, the clock is not read. *)
Theorem CmdImages_filter_error fl s e :
  consolidateFilters (flFilter fl) = Err e → CmdImages fl s = (Err e, s).
Proof. intros He. by rewrite run_CmdImages /listing He. Qed.

(** C24.  An error of the listing call is returned as it is, and nothing is
    written. *)
Theorem CmdImages_list_error fl s a e :
  consolidateFilters (flFilter fl) = Ok a →
  ImageList (listOptions fl a) = Err e →
  CmdImages fl s = (Err e, s).
Proof. intros Ha He. by rewrite run_CmdImages /listing Ha He. Qed.

(** C26.  The clock is read once for every row written outside quiet mode,
    and never in quiet mode. *)
Theorem CmdImages_clock_reads fl s a images rows err kend :
  consolidateFilters (flFilter fl) = Ok a →
  ImageList (listOptions fl a) = Ok images →
  listingRows fl (ticks s) images = (rows, err, kend) →
  ticks (CmdImages fl s).2
  = if quiet fl then ticks s else ticks s + length rows.
Proof.
  intros Ha Hi Hrows. rewrite run_CmdImages /listing Ha Hi Hrows.
  apply listingRows_ticks in Hrows as ->. by destruct err.
Qed.

(** The ways the handler fails. *)
Lemma CmdImages_Err_cases fl s e :
  (CmdImages fl s).1 = Err e ↔
  consolidateFilters (flFilter fl) = Err e
  ∨ ∃ a, consolidateFilters (flFilter fl) = Ok a
      ∧ (ImageList (listOptions fl a) = Err e
         ∨ ∃ images, ImageList (listOptions fl a) = Ok images
             ∧ mapM reconcile images = Err e).
Proof.
  rewrite run_CmdImages /listing.
  destruct (consolidateFilters _) as [a|e1]; simpl.
  2:{ split; [intros [= ->]; by left|by intros [[= ->]|(? & ? & _)]]. }
  destruct (ImageList _) as [images|e2] eqn:Hi; simpl.
  2:{ split; [intros [= ->]; right; eauto|].
      intros [?|(? & [= <-] & [?|(? & ? & _)])]; congruence. }
  pose proof (listingRows_err fl (ticks s) images) as Herr.
  destruct (listingRows _ _ images) as [[rows err] kend]. simpl in Herr. subst err.
  destruct (mapM reconcile images) as [tss|e3] eqn:Hts; simpl.
  - split; [done|]. intros [?|(? & [= <-] & [?|(? & ? & ?)])]; congruence.
  - split; [intros [= ->]; right; eauto 10|].
    intros [?|(? & [= <-] & [?|(? & ? & ?)])]; congruence.
Qed.

(** C13.  The command fails in exactly three ways, tried in this order: a
    filter flag is refused; the listing call fails; a reference string of
    a record does not parse.  In each case the error returned is the one
    the collaborator gave, and in no other case is an error returned. *)
Theorem CmdImages_Err_iff fl s e :
  (CmdImages fl s).1 = Err e ↔
  consolidateFilters (flFilter fl) = Err e
  ∨ ∃ a, consolidateFilters (flFilter fl) = Ok a
      ∧ (ImageList (listOptions fl a) = Err e
         ∨ ∃ images, ImageList (listOptions fl a) = Ok images
             ∧ mapM reconcile images = Err e).
Proof. apply CmdImages_Err_cases. Qed.

(** The command only appends to the output stream: whatever the
    flags, the collaborators and the outcome, the blocks that were on the
    stream before the call are still there, in order, after it. *)
Theorem CmdImages_out_append_only fl s :
  out s `prefix_of` out (CmdImages fl s).2.
Proof.
  rewrite run_CmdImages /listing. destruct_outcome; try done.
  destruct (listingRows _ _ _) as [[rows err] kend].
  set (st := Write _ _). assert (out s `prefix_of` st.2) as Hst by apply Write_prefix.
  destruct err as [e|]; [done|]. destruct (quiet fl); [done|].
  simpl. etrans; [exact Hst|apply Flush_prefix].
Qed.

(** C27.  In quiet mode the digest switch has no effect: two runs whose
    flags differ at most in [--digests] return the same result and leave
    the same state. *)
Theorem CmdImages_quiet_ignores_digests fl fl' s :
  quiet fl = true → quiet fl' = true →
  all fl = all fl' → noTrunc fl = noTrunc fl' →
  flFilter fl = flFilter fl' → args fl = args fl' →
  CmdImages fl s = CmdImages fl' s.
Proof.
  intros Hq Hq' Ha Hn Hf Hargs.
  rewrite !run_CmdImages /listing /listOptions /headerRows Hq Hq' Ha Hf Hargs.
  destruct_outcome; try done. by rewrite (listingRows_quiet_ext fl fl').
Qed.

Context `{!CollabPlain}.

(** C4.  Outside quiet mode, when every record reconciles, the ids of the
    records are plain and the collaborators return plain text (no tab,
    newline, form feed, vertical tab or escape character: [CollabPlain]),
    the command sends one block to the output, in one flush at the end:
    the header line followed by the rows, one row per triple of each
    record's reconciliation, in the order of the records and of the
    triples, each row with one cell per header column and the i-th row
    with the age at the i-th reading of the clock; the writer is left
    empty. *)
Theorem CmdImages_table fl s a images tss :
  quiet fl = false →
  consolidateFilters (flFilter fl) = Ok a →
  ImageList (listOptions fl a) = Ok images →
  Forall (λ image, plain (ID image) = true) images →
  mapM reconcile images = Ok tss →
  CmdImages fl s =
    (Ok tt,
     {| tw := NewWriter 20 1 3 " " 0;
        out := out s ++
          [Block (cfg (NewWriter 20 1 3 " " 0)) (cells_of <$> headerFields (showDigests fl) ::
                    imap (λ i p, fieldsOfRow fl p.1 (displayID (noTrunc fl) (ID p.1)) p.2
                                   (Now (ticks s + i)))
                      (rowsOf images tss)) []];
        ticks := ticks s + length (concat tss) |}).
Proof.
  intros Hq Ha Hi Hid Hts. rewrite run_CmdImages /listing Ha Hi.
  pose proof (listingRows_resolved_clock fl (ticks s) images tss Hts) as Hrows.
  rewrite Hrows Hq Write_listing_nonquiet //.
  apply (listingRows_plain fl) in Hrows; [|done]. by rewrite Hq in Hrows.
Qed.

(** C6.  Outside quiet mode, a reference that does not parse ends the
    command with the parser's error and nothing reaches the output: the
    header and the rows written before the failure stay in the writer. *)
Theorem CmdImages_parse_error_hidden fl s a images e :
  quiet fl = false →
  consolidateFilters (flFilter fl) = Ok a →
  ImageList (listOptions fl a) = Ok images →
  Forall (λ image, plain (ID image) = true) images →
  mapM reconcile images = Err e →
  (CmdImages fl s).1 = Err e ∧ out (CmdImages fl s).2 = out s.
Proof.
  intros Hq Ha Hi Hid Hts. rewrite run_CmdImages /listing Ha Hi.
  destruct (listingRows_failed fl (ticks s) images e Hts) as (rows & kend & Hrows).
  rewrite Hrows Write_listing_nonquiet //.
  apply (listingRows_plain fl) in Hrows; [|done]. by rewrite Hq in Hrows.
Qed.

(** C7.  In quiet mode, when every record reconciles, the command sends
    one block per row to the output, each holding the displayed id of the
    row's record alone, whatever the digest switch is; every row is flushed
    when it is written, so that the writer is empty at the end although
    [Flush] is not called; the clock is not read. *)
Theorem CmdImages_quiet fl s a images tss :
  quiet fl = true →
  consolidateFilters (flFilter fl) = Ok a →
  ImageList (listOptions fl a) = Ok images →
  Forall (λ image, plain (ID image) = true) images →
  mapM reconcile images = Ok tss →
  CmdImages fl s =
    (Ok tt,
     {| tw := NewWriter 20 1 3 " " 0;
        out := out s ++
          ((λ id, Block (cfg (NewWriter 20 1 3 " " 0)) [[Cell id false]] [])
           <$> shownIDs fl images tss);
        ticks := ticks s |}).
Proof.
  intros Hq Ha Hi Hid Hts. rewrite run_CmdImages /listing Ha Hi.
  pose proof (listingRows_resolved_quiet fl (ticks s) images tss Hq Hts) as Hrows.
  rewrite Hrows Hq Write_listing_quiet //.
  - by rewrite -list_fmap_compose.
  - apply (listingRows_plain fl) in Hrows; [|done]. by rewrite Hq in Hrows.
Qed.

(** C9.  In quiet mode a reference that does not parse ends the command
    with the parser's error after the rows before it were sent to the
    output: each of them is one block holding an id, and stays visible. *)
Theorem CmdImages_quiet_partial fl s a images rows e kend :
  quiet fl = true →
  consolidateFilters (flFilter fl) = Ok a →
  ImageList (listOptions fl a) = Ok images →
  Forall (λ image, plain (ID image) = true) images →
  listingRows fl (ticks s) images = (rows, Some e, kend) →
  CmdImages fl s =
    (Err e,
     {| tw := NewWriter 20 1 3 " " 0;
        out := out s ++ ((λ row, Block (cfg (NewWriter 20 1 3 " " 0)) [cells_of row] []) <$> rows);
        ticks := ticks s |}).
Proof.
  intros Hq Ha Hi Hid Hrows. rewrite run_CmdImages /listing Ha Hi Hrows.
  rewrite Write_listing_quiet //.
  - apply listingRows_ticks in Hrows. rewrite Hq in Hrows. by subst.
  - apply (listingRows_plain fl) in Hrows; [|done]. by rewrite Hq in Hrows.
Qed.

(** What reached the output, by the rows that were written: in quiet
    mode one block per row, otherwise one block with the header and the
    rows when the pass was not stopped, and nothing when it was. *)
Lemma out_CmdImages fl s a images rows err kend :
  consolidateFilters (flFilter fl) = Ok a →
  ImageList (listOptions fl a) = Ok images →
  Forall (λ image, plain (ID image) = true) images →
  listingRows fl (ticks s) images = (rows, err, kend) →
  out (CmdImages fl s).2 =
    out s ++
    if quiet fl
    then (λ row, Block (cfg (NewWriter 20 1 3 " " 0)) [cells_of row] []) <$> rows
    else match err with
         | None => [Block (cfg (NewWriter 20 1 3 " " 0))
                      (cells_of <$> headerFields (showDigests fl) :: rows) []]
         | Some _ => []
         end.
Proof.
  intros Ha Hi Hid Hrows. rewrite run_CmdImages /listing Ha Hi Hrows.
  pose proof (listingRows_plain fl _ _ _ _ _ Hid Hrows) as Hpl.
  destruct (quiet fl) eqn:Hq.
  - rewrite Write_listing_quiet //. by destruct err.
  - rewrite Write_listing_nonquiet //. destruct err; [by rewrite /= app_nil_r|done].
Qed.

(** The same as text: the ids as they were written in quiet mode, and
    otherwise the table with aligned columns. *)
Lemma bytes_CmdImages fl s a images rows err kend :
  consolidateFilters (flFilter fl) = Ok a →
  ImageList (listOptions fl a) = Ok images →
  Forall (λ image, plain (ID image) = true) images →
  listingRows fl (ticks s) images = (rows, err, kend) →
  bytes (out (CmdImages fl s).2) =
    bytes (out s) +:+
    if quiet fl then tablines rows
    else match err with
         | None => aligned 20 3 " " (length (headerFields (showDigests fl)))
                     (headerFields (showDigests fl) :: rows)
         | Some _ => ""
         end.
Proof.
  intros Ha Hi Hid Hrows. rewrite (out_CmdImages _ _ _ _ _ _ _ Ha Hi Hid Hrows) bytes_app.
  pose proof (listingRows_plain fl _ _ _ _ _ Hid Hrows) as Hpl. f_equal.
  destruct (quiet fl).
  - apply bytes_singles. eapply Forall_impl; [|done]. by intros row [_ ?].
  - destruct err; [done|]. rewrite bytes_singleton.
    rewrite (layout_table _ _ (length (headerFields (showDigests fl)))) //.
    + rewrite length_headerFields. destruct (showDigests fl); lia.
    + constructor; [split; [done|apply headerFields_plain]|].
      eapply Forall_impl; [|done]. by intros row [? ?].
Qed.

(** C5.  What the user sees outside quiet mode when every record
    reconciles: the bytes sent to the output are the header and the rows
    as a table with aligned columns.  Every field but the last of its line
    is followed by spaces up to the width of its column, which is that of
    its widest entry, header included, counted in runes, plus three, and 20
    at least; the last field is followed by the newline. *)
Theorem CmdImages_table_bytes fl s a images tss :
  quiet fl = false →
  consolidateFilters (flFilter fl) = Ok a →
  ImageList (listOptions fl a) = Ok images →
  Forall (λ image, plain (ID image) = true) images →
  mapM reconcile images = Ok tss →
  bytes (out (CmdImages fl s).2) =
    bytes (out s) +:+
    aligned 20 3 " " (length (headerFields (showDigests fl)))
      (headerFields (showDigests fl) ::
       imap (λ i p, fieldsOfRow fl p.1 (displayID (noTrunc fl) (ID p.1)) p.2
                      (Now (ticks s + i)))
         (rowsOf images tss)).
Proof.
  intros Hq Ha Hi Hid Hts.
  pose proof (listingRows_resolved_clock fl (ticks s) images tss Hts) as Hrows.
  rewrite Hq in Hrows. by rewrite (bytes_CmdImages _ _ _ _ _ _ _ Ha Hi Hid Hrows) Hq.
Qed.

(** C8.  What the user sees in quiet mode when every record reconciles:
    the bytes sent to the output are the displayed ids, one per row, each
    followed by a newline and by nothing else: no header, no padding. *)
Theorem CmdImages_quiet_bytes fl s a images tss :
  quiet fl = true →
  consolidateFilters (flFilter fl) = Ok a →
  ImageList (listOptions fl a) = Ok images →
  Forall (λ image, plain (ID image) = true) images →
  mapM reconcile images = Ok tss →
  bytes (out (CmdImages fl s).2) =
    bytes (out s) +:+ concat_str ((λ id, id +:+ \n) <$> shownIDs fl images tss).
Proof.
  intros Hq Ha Hi Hid Hts.
  pose proof (listingRows_resolved_quiet fl (ticks s) images tss Hq Hts) as Hrows.
  rewrite (bytes_CmdImages _ _ _ _ _ _ _ Ha Hi Hid Hrows) Hq.
  by rewrite /tablines -list_fmap_compose.
Qed.

(** Every call makes its own writer: once the records are there,
    the result, the output stream and the writer at the end do not depend
    on the writer the state held at the start, so text that an earlier
    call left in its writer never shows up in this listing. *)
Theorem CmdImages_fresh_writer fl s s' a images :
  consolidateFilters (flFilter fl) = Ok a →
  ImageList (listOptions fl a) = Ok images →
  out s = out s' → ticks s = ticks s' →
  CmdImages fl s = CmdImages fl s'.
Proof.
  intros Ha Hi Hout Hticks. by rewrite !run_CmdImages /listing Ha Hi Hout Hticks.
Qed.

End claims.

Section more_claims.
Context `{Collab}.

(** C25.  The loop over the references of one record, when they all
    resolve, writes one row per triple of the reconciliation, in order,
    and succeeds.  Outside quiet mode the i-th row is written with a new
    reading of the clock, the i-th after the readings made before the
    loop, so that the rows of one record can show different ages; in
    quiet mode the clock is not read. *)
Theorem imageRows_clock fl image s ts :
  reconcile image = Ok ts →
  imageRows fl image s =
    (Ok tt,
     wrote (imap (λ i t, fieldsOfRow fl image (displayID (noTrunc fl) (ID image)) t
                           (Now (if quiet fl then ticks s else ticks s + i))) ts)
           (if quiet fl then ticks s else ticks s + length ts) s).
Proof.
  intros Hts. rewrite /imageRows run_recordRows.
  by rewrite (recordRows_resolved _ _ _ _ _ ts).
Qed.

(** The filter flags are folded in the order they were given; the
    loop fails exactly at the first flag that [filters.ParseFlag] refuses
    for the criteria accumulated from the flags before it, with that
    error. *)
Theorem consolidateFilters_Err_iff flFilter e :
  consolidateFilters flFilter = Err e ↔
  ∃ l1 f l2 acc, flFilter = l1 ++ f :: l2
    ∧ consolidateFilters l1 = Ok acc ∧ ParseFlag f acc = Err e.
Proof. apply foldM_Err_iff. Qed.

(** One more accepted flag extends the criteria of the flags before
    it by one call of [filters.ParseFlag]. *)
Theorem consolidateFilters_snoc flFilter f acc :
  consolidateFilters flFilter = Ok acc →
  consolidateFilters (flFilter ++ [f]) = ParseFlag f acc.
Proof.
  rewrite /consolidateFilters foldM_app. intros ->. simpl.
  by destruct (ParseFlag f acc).
Qed.

(** The name pattern sent to the daemon is the positional argument
    when there is exactly one, and empty otherwise. *)
Theorem matchNameOf_cases args :
  matchNameOf args = match args with [a] => a | _ => "" end.
Proof. rewrite /matchNameOf. by destruct args as [|? [|??]]. Qed.

End more_claims.

(** ** Witnesses on the test instance *)

Lemma CmdImages_filter_error_witness :
  @CmdImages tc {| quiet := false; all := false; noTrunc := false;
                   showDigests := false; flFilter := ["dangling=true"; "label"];
                   args := [] |} s0
  = (Err "bad format of filter (expected name=value)", s0).
Proof. by apply (@CmdImages_filter_error tc). Defined.

Lemma CmdImages_list_error_witness :
  @CmdImages tc_down fl_default s0 = (Err "cannot connect", s0).
Proof. by apply (@CmdImages_list_error tc_down fl_default s0 []). Defined.

Lemma CmdImages_quiet_ignores_digests_witness :
  @CmdImages tc fl_quiet s0
  = @CmdImages tc {| quiet := true; all := false; noTrunc := false; showDigests := false;
                     flFilter := []; args := [] |} s0.
Proof. by apply (@CmdImages_quiet_ignores_digests tc). Defined.

Lemma CmdImages_clock_reads_witness :
  ticks (@CmdImages tc fl_default s0).2
  = if quiet fl_default then ticks s0 else ticks s0 + length
      [ ["library/foo"; "latest"; "sha256:01234"; "4000 seconds ago"; "1048576 B"];
        ["foo"; "v1"; "sha256:01234"; "4001 seconds ago"; "1048576 B"];
        ["foo"; "<none>"; "sha256:01234"; "4002 seconds ago"; "1048576 B"] ].
Proof.
  by apply (@CmdImages_clock_reads tc fl_default s0 [] [img_foo] _ None 3).
Defined.

Lemma CmdImages_table_witness :
  @CmdImages tc fl_default s0 =
    (Ok tt,
     {| tw := NewWriter 20 1 3 " " 0;
        out := out s0 ++
          [Block (cfg (NewWriter 20 1 3 " " 0))
                 (cells_of <$> headerFields (showDigests fl_default) ::
                    imap (λ i p, @fieldsOfRow tc fl_default p.1
                                   (@displayID tc (noTrunc fl_default) (ID p.1)) p.2
                                   (@Now tc (ticks s0 + i)))
                      (rowsOf [img_foo] [ts_foo])) []];
        ticks := ticks s0 + length (concat [ts_foo]) |}).
Proof.
  apply (@CmdImages_table tc _ fl_default s0 [] [img_foo] [ts_foo]);
    by repeat constructor.
Defined.

Lemma CmdImages_parse_error_hidden_witness :
  (@CmdImages tc_bad fl_default s0).1 = Err "invalid reference format"
  ∧ out (@CmdImages tc_bad fl_default s0).2 = out s0.
Proof.
  apply (@CmdImages_parse_error_hidden tc_bad _ fl_default s0 [] [img_foo; img_bad]);
    by repeat constructor.
Defined.

Lemma CmdImages_quiet_witness :
  @CmdImages tc fl_quiet s0 =
    (Ok tt,
     {| tw := NewWriter 20 1 3 " " 0;
        out := out s0 ++
          ((λ id, Block (cfg (NewWriter 20 1 3 " " 0)) [[Cell id false]] [])
           <$> @shownIDs tc fl_quiet [img_foo] [ts_foo]);
        ticks := ticks s0 |}).
Proof.
  apply (@CmdImages_quiet tc _ fl_quiet s0 [] [img_foo] [ts_foo]);
    by repeat constructor.
Defined.

Lemma CmdImages_quiet_partial_witness :
  @CmdImages tc_bad fl_quiet s0 =
    (Err "invalid reference format",
     {| tw := NewWriter 20 1 3 " " 0;
        out := out s0 ++
          ((λ row, Block (cfg (NewWriter 20 1 3 " " 0)) [cells_of row] []) <$>
             [["sha256:01234"]; ["sha256:01234"]; ["sha256:01234"]; ["sha256:fedcb"]]);
        ticks := ticks s0 |}).
Proof.
  apply (@CmdImages_quiet_partial tc_bad _ fl_quiet s0 [] [img_foo; img_bad] _ _ 0);
    by repeat constructor.
Defined.

Lemma CmdImages_fresh_writer_witness :
  @CmdImages tc fl_default s0
  = @CmdImages tc fl_default (emit ("left" +:+ \t +:+ "over" +:+ \n) s0).
Proof. by apply (@CmdImages_fresh_writer tc fl_default _ _ (@NewArgs tc) [img_foo]). Defined.

Lemma CmdImages_table_bytes_witness :
  bytes (out (@CmdImages tc fl_default s0).2) =
    bytes (out s0) +:+
    aligned 20 3 " " (length (headerFields (showDigests fl_default)))
      (headerFields (showDigests fl_default) ::
       imap (λ i p, @fieldsOfRow tc fl_default p.1
                      (@displayID tc (noTrunc fl_default) (ID p.1)) p.2
                      (@Now tc (ticks s0 + i)))
         (rowsOf [img_foo] [ts_foo])).
Proof.
  apply (@CmdImages_table_bytes tc _ fl_default s0 [] [img_foo] [ts_foo]);
    by repeat constructor.
Defined.

Lemma CmdImages_quiet_bytes_witness :
  bytes (out (@CmdImages tc fl_quiet s0).2) =
    bytes (out s0)
    +:+ concat_str ((λ id, id +:+ \n) <$> @shownIDs tc fl_quiet [img_foo] [ts_foo]).
Proof.
  apply (@CmdImages_quiet_bytes tc _ fl_quiet s0 [] [img_foo] [ts_foo]);
    by repeat constructor.
Defined.

Lemma imageRows_clock_witness :
  @imageRows tc fl_default img_foo s0 =
    (Ok tt,
     wrote
       (imap (λ i t, @fieldsOfRow tc fl_default img_foo
                       (@displayID tc (noTrunc fl_default) (ID img_foo)) t
                       (@Now tc (if quiet fl_default then ticks s0 else ticks s0 + i)))
          ts_foo)
       (if quiet fl_default then ticks s0 else ticks s0 + length ts_foo) s0).
Proof. by apply (@imageRows_clock tc). Defined.

Lemma consolidateFilters_snoc_witness :
  @consolidateFilters tc (["dangling=true"] ++ ["label=a"])
  = @ParseFlag tc "label=a" ["dangling=true"].
Proof. by apply (@consolidateFilters_snoc tc). Defined.

(** ** Evaluations *)

(** The whole command on the test instance, default flags: the header and
    three rows in one block.  The clock advances one second per reading,
    and the three rows of the same record show three different ages. *)
Example CmdImages_default_run :
  out (@CmdImages tc fl_default s0).2 =
  [Block (cfg (NewWriter 20 1 3 " " 0)) (cells_of <$>
      [ ["REPOSITORY"; "TAG"; "IMAGE ID"; "CREATED"; "SIZE"];
        ["library/foo"; "latest"; "sha256:01234"; "4000 seconds ago"; "1048576 B"];
        ["foo"; "v1"; "sha256:01234"; "4001 seconds ago"; "1048576 B"];
        ["foo"; "<none>"; "sha256:01234"; "4002 seconds ago"; "1048576 B"] ]) []].
Proof. by vm_compute. Qed.

(** With [--digests] and [--no-trunc]. *)
Example CmdImages_digests_run :
  out (@CmdImages tc_const fl_digests s0).2 =
  [Block (cfg (NewWriter 20 1 3 " " 0)) (cells_of <$>
      [ ["REPOSITORY"; "TAG"; "DIGEST"; "IMAGE ID"; "CREATED"; "SIZE"];
        ["library/foo"; "latest"; "<none>"; "sha256:0123456789abcdef0123";
         "3600 seconds ago"; "1048576 B"];
        ["foo"; "v1"; "<none>"; "sha256:0123456789abcdef0123";
         "3600 seconds ago"; "1048576 B"];
        ["foo"; "<none>"; "sha256:aa11"; "sha256:0123456789abcdef0123";
         "3600 seconds ago"; "1048576 B"] ]) []].
Proof. by vm_compute. Qed.

(** A dangling record is listed once, with every reference column
    "<none>". *)
Example CmdImages_dangling_run :
  let img := {| ID := "sha256:0123456789abcdef0123"; RepoTags := ["<none>:<none>"];
                RepoDigests := ["<none>@<none>"]; Created := 1000; Size := 10 |} in
  out (@CmdImages (testCollab (λ _, Ok [img]) (λ _, time_Unix 4600 0)) fl_digests s0).2 =
  [Block (cfg (NewWriter 20 1 3 " " 0)) (cells_of <$>
      [ ["REPOSITORY"; "TAG"; "DIGEST"; "IMAGE ID"; "CREATED"; "SIZE"];
        ["<none>"; "<none>"; "<none>"; "sha256:0123456789abcdef0123";
         "3600 seconds ago"; "10 B"] ]) []].
Proof. by vm_compute. Qed.

(** In quiet mode the handler relies on the writer flushing a line of one
    cell: a row whose id holds a tab has two cells, stays in the writer and,
    since [Flush] is not called in quiet mode, never reaches the output. *)
Example CmdImages_quiet_tab_id :
  let img := {| ID := "ab" +:+ \t +:+ "cd"; RepoTags := ["foo:v1"]; RepoDigests := [];
                Created := 0; Size := 0 |} in
  let r := @CmdImages (testCollab (λ _, Ok [img]) (tick_clock 0 1))
             {| quiet := true; all := false; noTrunc := true; showDigests := false;
                flFilter := []; args := [] |} s0 in
  r.1 = Ok tt ∧ out r.2 = []
  ∧ ended (tw r.2) = [[Cell "ab" true; Cell "cd" false]].
Proof. by vm_compute. Qed.

(** The bytes of the listing of [img_foo] with the default flags, as the
    terminal shows them. *)
Example CmdImages_default_bytes :
  bytes (out (@CmdImages tc fl_default s0).2) =
    "REPOSITORY          TAG                 IMAGE ID            CREATED             SIZE"
    +:+ \n +:+
    "library/foo         latest              sha256:01234        4000 seconds ago    1048576 B"
    +:+ \n +:+
    "foo                 v1                  sha256:01234        4001 seconds ago    1048576 B"
    +:+ \n +:+
    "foo                 <none>              sha256:01234        4002 seconds ago    1048576 B"
    +:+ \n.
Proof. by vm_compute. Qed.

(** In quiet mode the second record fails at its second tag: the ids of
    the rows before it are on the output. *)
Example CmdImages_quiet_bad_bytes :
  bytes (out (@CmdImages tc_bad fl_quiet s0).2) =
    "sha256:01234" +:+ \n +:+ "sha256:01234" +:+ \n +:+ "sha256:01234" +:+ \n
    +:+ "sha256:fedcb" +:+ \n.
Proof. by vm_compute. Qed.
