(* ===== verification/Output.v ===== *)
(** * What the user sees

    The bytes on [cli.out]: the layouts of the blocks that the writer of
    the handler flushed ([TabwriterLayout.bytes] of the field [out]).

    - [emit_flush_table]: writing the lines of a table and flushing sends
      the table with aligned columns, for every writer that pads with a
      character other than a tab.
    - [flushW_bytes]: what a flush sends, computed with any fuel that
      covers the longest line: the column recursion of [format] ends.
    - [flushW_table]: what a flush sends, whatever the writer holds, is
      the table of [TabwriterTable]: every cell but the last of its line
      padded to the width of its column block, the block being the lines
      around it that have a cell at that position.
    - [CmdImages_columns]: in the listing the columns line up.  Every line
      is made of its fields before the last, which take the same number of
      runes in every line, then the last field and a newline; every column
      is 20 runes wide or more.

    The results of the handler in bytes, [CmdImages_table_bytes] and
    [CmdImages_quiet_bytes], are with the handler in [Images]. *)

From Stdlib Require Import Ascii ZArith Lia.
From stdpp Require Import ssreflect base tactics option list strings numbers.
From S2P Require Import Prelude GoString Utf8 Externals Instances Tabwriter TabwriterLayout.
From S2P Require Import TabwriterTable Reconciler Renderer Images.

Set Warnings "-rewrite-rw,-clear-no-such-hyp".

(** ** The calls on the writer *)

Section writes.
Implicit Types (s : World) (rows : list (list string)).

(** What [w.Flush()] adds to the output. *)
Lemma out_flushW s :
  let w := if decide (buf (tw s) = "") then tw s else terminateCell false (tw s) in
  out (flushW s) = out s ++ [Block (cfg w) (ended w) (cur w)].
Proof. done. Qed.

(** The lines of a table stay in an empty writer. *)
Lemma emit_table s rows k :
  is_empty (tw s) → 2 ≤ k →
  Forall (λ row, length row = k ∧ Forall (λ f, plain f = true) row) rows →
  emit (tablines rows) s =
    set_writer s (with_text (tw s) "" false [] (cells_of <$> rows), out s).
Proof.
  intros [Hstart Hended] Hk Hrows. rewrite /emit Write_tablines_buffered //.
  - by rewrite Hended.
  - eapply Forall_impl; [|done]. intros row [Hlen ?]. split; [done|lia].
Qed.

End writes.

(** ** The claims *)

(** C21.  Writing a table and flushing it: when a writer that holds nothing
    and pads with a character other than a tab is given the lines of a
    table of [k] plain fields each, two or more, and is flushed, the bytes
    that reach the output are the table with aligned columns: the
    recursion over column blocks of the writer computes, for such lines,
    one width per column over all the lines. *)
Theorem emit_flush_table s rows k :
  is_empty (tw s) → padchar (cfg (tw s)) ≠ TAB → 2 ≤ k →
  Forall (λ row, length row = k ∧ Forall (λ f, plain f = true) row) rows →
  bytes (out (flushW (emit (tablines rows) s))) =
    bytes (out s) +:+
    aligned (minwidth (cfg (tw s))) (padding (cfg (tw s))) (padchar (cfg (tw s))) k rows.
Proof.
  intros Hw Hp Hk Hrows. rewrite (emit_table _ _ k) // out_flushW /=.
  rewrite bytes_app bytes_singleton (layout_table _ _ k) //. lia.
Qed.

(** C29.  The flush ends: what [w.Flush()] sends to the output is the text
    of the lines that [format] computes with any fuel that is at least
    the number of cells of the longest line, whatever the writer holds. *)
Theorem flushW_bytes s fuel :
  let w := if decide (buf (tw s) = "") then tw s else terminateCell false (tw s) in
  depth (ended w ++ [cur w]) ≤ fuel →
  bytes (out (flushW s)) =
    bytes (out s) +:+ join_lines (format fuel (cfg w) [] (ended w ++ [cur w])).
Proof.
  intros w Hfuel. rewrite out_flushW bytes_app bytes_singleton /layout /lines_of /=.
  fold w. rewrite (format_fuel (depth (ended w ++ [cur w])) fuel) //.
  apply list.Forall_forall. intros line Hline. simpl.
  assert (length line ≤ depth (ended w ++ [cur w])); [|lia].
  by apply max_list_elem_of_le, list_elem_of_fmap_2.
Qed.

(** C22.  What a flush writes, for every writer: the recursion of the
    table writer over column blocks computes the table in which every
    cell but the last of its line is followed by padding up to the width
    of its column block, where the column block of a cell is made of the
    lines before and after its line, as far as they go without a gap,
    that have a cell at the same position which is not their last, and
    the width of a block is that of its widest cell plus the padding, and
    the minimal width at least. *)
Theorem flushW_table s :
  let w := if decide (buf (tw s) = "") then tw s else terminateCell false (tw s) in
  bytes (out (flushW s)) =
    bytes (out s) +:+ join_lines (table (cfg w) (ended w ++ [cur w])).
Proof. intros w. by rewrite out_flushW bytes_app bytes_singleton layout_table_any. Qed.

(** C16.  The columns of the listing line up.  Outside quiet mode, when
    every record reconciles, every line that reaches the output, the
    header included, is made of its fields before the last, each followed
    by spaces, then its last field and a newline; the fields before the
    last take the same number of runes in every line, the sum of the
    widths of the columns, and every column is 20 runes wide or more. *)
Theorem CmdImages_columns `{Collab} `{!CollabPlain} fl s a images tss :
  quiet fl = false →
  consolidateFilters (flFilter fl) = Ok a →
  ImageList (listOptions fl a) = Ok images →
  Forall (λ image, plain (ID image) = true) images →
  mapM reconcile images = Ok tss →
  let rows := headerFields (showDigests fl) ::
              imap (λ i p, fieldsOfRow fl p.1 (displayID (noTrunc fl) (ID p.1)) p.2
                             (Now (ticks s + i)))
                (rowsOf images tss) in
  let ws := col_width 20 3 rows <$> seq 0 (length (headerFields (showDigests fl)) - 1) in
  bytes (out (CmdImages fl s).2) =
    bytes (out s) +:+
    concat_str ((λ row, aligned_row " " ws (removelast row) +:+ last row "" +:+ \n)
                <$> rows)
  ∧ Forall (λ row, RuneCount (aligned_row " " ws (removelast row)) = sum_list ws) rows
  ∧ Forall (λ w, 20 ≤ w) ws.
Proof.
  intros Hq Ha Hi Hid Hts rows ws.
  pose proof (listingRows_resolved_clock fl (ticks s) images tss Hts) as Hrows.
  rewrite Hq in Hrows.
  pose proof (listingRows_plain fl _ _ _ _ _ Hid Hrows) as Hpl. rewrite Hq in Hpl.
  assert (1 ≤ length (headerFields (showDigests fl))) as Hk.
  { rewrite length_headerFields. destruct (showDigests fl); lia. }
  assert (∀ row, row ∈ rows →
            aligned_row " " ws row
            = aligned_row " " ws (removelast row) +:+ last row ""
            ∧ RuneCount (aligned_row " " ws (removelast row)) = sum_list ws) as Hcols.
  { intros row Hrow. apply aligned_row_columns; [done|lia|done| |done].
    apply elem_of_cons in Hrow as [->|Hrow]; [done|].
    rewrite list.Forall_forall in Hpl. by destruct (Hpl row Hrow). }
  split; [|split].
  - rewrite (bytes_CmdImages _ _ _ _ _ _ _ Ha Hi Hid Hrows) Hq /aligned. f_equal. f_equal.
    apply list_fmap_ext. intros i row Hrow%list_elem_of_lookup_2.
    destruct (Hcols row Hrow) as [Heq _]. rewrite /ws /rows in Heq.
    by rewrite /= Heq str_app_assoc.
  - apply list.Forall_forall. intros row Hrow. by destruct (Hcols row Hrow).
  - apply Forall_fmap, Forall_true. intros j. apply col_width_ge_min.
Qed.

(** ** Witnesses *)

Lemma emit_flush_table_witness :
  bytes (out (flushW (emit (tablines [["NAME"; "AGE"]; ["a-name-of-twenty-three"; "1"]])
                        (set_writer s0 (NewWriter 4 1 2 "." 0, []))))) =
    bytes (out (set_writer s0 (NewWriter 4 1 2 "." 0, [])))
    +:+ aligned 4 2 "." 2 [["NAME"; "AGE"]; ["a-name-of-twenty-three"; "1"]].
Proof.
  apply (emit_flush_table (set_writer s0 (NewWriter 4 1 2 "." 0, [])));
    [done|done|lia|by repeat constructor].
Defined.

Lemma flushW_bytes_witness :
  bytes (out (flushW (emit ("a" +:+ \t +:+ "b" +:+ \n +:+ "c") s0))) =
    bytes (out (emit ("a" +:+ \t +:+ "b" +:+ \n +:+ "c") s0))
    +:+ join_lines (format 7 (cfg (tw s0)) []
                      [[Cell "a" true; Cell "b" false]; [Cell "c" false]]).
Proof.
  apply (flushW_bytes (emit ("a" +:+ \t +:+ "b" +:+ \n +:+ "c") s0) 7). vm_compute; lia.
Defined.

Lemma CmdImages_columns_witness :
  let rows := headerFields (showDigests fl_default) ::
              imap (λ i p, @fieldsOfRow tc fl_default p.1
                             (@displayID tc (noTrunc fl_default) (ID p.1)) p.2
                             (@Now tc (ticks s0 + i)))
                (rowsOf [img_foo] [ts_foo]) in
  let ws := col_width 20 3 rows
            <$> seq 0 (length (headerFields (showDigests fl_default)) - 1) in
  bytes (out (@CmdImages tc fl_default s0).2) =
    bytes (out s0) +:+
    concat_str ((λ row, aligned_row " " ws (removelast row) +:+ last row "" +:+ \n)
                <$> rows)
  ∧ Forall (λ row, RuneCount (aligned_row " " ws (removelast row)) = sum_list ws) rows
  ∧ Forall (λ w, 20 ≤ w) ws.
Proof.
  apply (@CmdImages_columns tc _ fl_default s0 [] [img_foo] [ts_foo]);
    by repeat constructor.
Defined.

(** ** Evaluation *)

(** A table with a short line in the middle: the column block of the first
    line ends there, and the lines after it are aligned among themselves
    (package documentation of text/tabwriter). *)
Example layout_column_blocks :
  layout (Block (cfg (NewWriter 5 1 1 "." 0))
            (cells_of <$> [["a"; "b"; "c"]; ["aaaaaa"; "bb"; "c"]; ["x"]; ["aa"; "b"]]) [])
  = "a......b....c" +:+ \n +:+ "aaaaaa.bb...c" +:+ \n +:+ "x" +:+ \n +:+ "aa...b" +:+ \n.
Proof. by vm_compute. Qed.

(** The same lines through the reference: the first two lines are one
    block in the columns 0 and 1, the last line is a block by itself. *)
Example table_column_blocks :
  table (cfg (NewWriter 5 1 1 "." 0))
    (cells_of <$> [["a"; "b"; "c"]; ["aaaaaa"; "bb"; "c"]; ["x"]; ["aa"; "b"]])
  = ["a......b....c"; "aaaaaa.bb...c"; "x"; "aa...b"].
Proof. by vm_compute. Qed.

(** A line with more cells between two lines with fewer: the three lines
    share the first column, the second column is that of the middle line
    alone. *)
Example table_nested_blocks :
  table (cfg (NewWriter 2 1 1 "." 0))
    (cells_of <$> [["a"; "b"]; ["aaaa"; "bbbb"; "c"]; ["aa"; "b"]])
  = ["a....b"; "aaaa.bbbb.c"; "aa...b"]
  ∧ layout (Block (cfg (NewWriter 2 1 1 "." 0))
              (cells_of <$> [["a"; "b"]; ["aaaa"; "bbbb"; "c"]; ["aa"; "b"]]) [])
    = "a....b" +:+ \n +:+ "aaaa.bbbb.c" +:+ \n +:+ "aa...b" +:+ \n.
Proof. by vm_compute. Qed.

(** The width of a cell is counted in runes: a field of two bytes that
    encode one rune is padded as one character. *)
Example layout_runes :
  layout (Block (cfg (NewWriter 3 1 1 "." 0))
            (cells_of <$> [[String "195" (String "169" ""); "x"]; ["e"; "y"]]) [])
  = String "195" (String "169" "") +:+ "..x" +:+ \n +:+ "e..y" +:+ \n.
Proof. by vm_compute. Qed.

(** The listing with the digest column. *)
Example CmdImages_digests_bytes :
  bytes (out (@CmdImages tc fl_digests s0).2) =
    "REPOSITORY          TAG                 DIGEST              IMAGE ID           "
    +:+ "           CREATED             SIZE" +:+ \n +:+
    "library/foo         latest              <none>              sha256:0123456789abcdef0123"
    +:+ "   4000 seconds ago    1048576 B" +:+ \n +:+
    "foo                 v1                  <none>              sha256:0123456789abcdef0123"
    +:+ "   4001 seconds ago    1048576 B" +:+ \n +:+
    "foo                 <none>              sha256:aa11         sha256:0123456789abcdef0123"
    +:+ "   4002 seconds ago    1048576 B" +:+ \n.
Proof. by vm_compute. Qed.
