(* ===== verification/Calls.v ===== *)
(** * One call after another

    [CmdImages] keeps nothing from one call to the next: its writer is a
    local of the call, and [cli.out] is written, never read.  In the
    model the state [World] outlives the call, so this is a theorem:

    - [frame]: the state with more on the stream in front, which the
      specification [listing] carries through ([listing_frame]);
    - the equivalence [≡] of the states that differ in the dead local
      only, which [CmdImages] respects (a [Proper] instance);
    - [CmdImages_no_cross_state]: two calls with the same flags that
      start with the same number of clock readings return the same and
      append the same to the stream;
    - [CmdImages_twice]: the bytes of two calls in a row are those of the
      first followed by those of the second made on an empty stream. *)

From Stdlib Require Import Ascii ZArith Lia.
From stdpp Require Import ssreflect base tactics option list strings numbers.
From S2P Require Import Prelude GoString Utf8 Externals Instances Tabwriter TabwriterLayout.
From S2P Require Import Reconciler Renderer Images.

Set Warnings "-rewrite-rw,-clear-no-such-hyp".

(** ** States *)

(** The state [s] with the blocks [o] on the stream before its own. *)
Definition frame (o : list block) (s : World) : World :=
  {| tw := tw s; out := o ++ out s; ticks := ticks s |}.

(** The state [s] on an empty stream. *)
Definition fresh (s : World) : World :=
  {| tw := tw s; out := []; ticks := ticks s |}.

(** What a caller can tell of a state between two calls: the stream and
    the clock.  The writer of a call that returned is unreachable. *)
#[export] Instance World_equiv : Equiv World :=
  λ s1 s2, out s1 = out s2 ∧ ticks s1 = ticks s2.

#[export] Instance World_equivalence : Equivalence (≡@{World}).
Proof.
  split.
  - done.
  - intros s1 s2 [??]. split; congruence.
  - intros s1 s2 s3 [??] [??]. split; congruence.
Qed.

(** Results with their states, up to the dead local. *)
Definition same_call `{Collab} (r1 r2 : outcome error unit * World) : Prop :=
  r1.1 = r2.1 ∧ r1.2 ≡ r2.2.

#[export] Instance same_call_equivalence `{Collab} : Equivalence same_call.
Proof.
  split.
  - done.
  - intros r1 r2 [? ?]. by split.
  - intros r1 r2 r3 [? ?] [? ?]. split; [congruence|by etrans].
Qed.

(** ** The handler and the stream *)

Section calls.
Context `{Collab}.
Implicit Types (s : World) (o : list block) (fl : ImagesFlags).

Lemma frame_fresh s : frame (out s) (fresh s) = s.
Proof. rewrite /frame /fresh /= app_nil_r. by destruct s. Qed.

Lemma fresh_equiv s1 s2 : ticks s1 = ticks s2 → fresh s1 ≡ fresh s2.
Proof. by intros Ht. Qed.

(** [listing], so the handler, reads the stream nowhere. *)
Lemma listing_frame fl o s :
  listing fl (frame o s) = ((listing fl s).1, frame o (listing fl s).2).
Proof.
  rewrite /listing /=. destruct_outcome; try done.
  destruct (listingRows _ _ _) as [[rows err] kend].
  rewrite Write_frame. destruct (Write _ (_, out s)) as [w out'].
  destruct err as [e|]; [done|]. destruct (quiet fl); [done|].
  by rewrite Flush_frame.
Qed.

(** [listing] reads the writer of the state nowhere after the listing
    call, and returns the state as it is before. *)
Lemma listing_proper fl s1 s2 : s1 ≡ s2 → same_call (listing fl s1) (listing fl s2).
Proof.
  intros [Ho Ht]. rewrite /listing Ho Ht. destruct_outcome; first [done|by split].
Qed.

#[export] Instance CmdImages_proper fl : Proper ((≡) ==> same_call) (CmdImages fl).
Proof. intros s1 s2 Hs. rewrite !run_CmdImages. by apply listing_proper. Qed.

(** What a call appends is what it sends to an empty stream. *)
Lemma out_CmdImages_fresh fl s :
  out (CmdImages fl s).2 = out s ++ out (CmdImages fl (fresh s)).2.
Proof. by rewrite -{1}(frame_fresh s) !run_CmdImages listing_frame. Qed.

End calls.

(** ** The claims *)

(** C28.  No state crosses from one call to the next but the stream and
    the clock: two calls with the same flags, made in any two states in
    which the clock was read equally often, return the same result, read
    the clock equally often, and append the same blocks to the stream,
    whatever the streams held and whatever writer an earlier call left
    behind. *)
Theorem CmdImages_no_cross_state `{Collab} fl s s' :
  ticks s = ticks s' →
  (CmdImages fl s).1 = (CmdImages fl s').1
  ∧ ticks (CmdImages fl s).2 = ticks (CmdImages fl s').2
  ∧ ∃ blocks, out (CmdImages fl s).2 = out s ++ blocks
              ∧ out (CmdImages fl s').2 = out s' ++ blocks.
Proof.
  intros Ht. destruct (CmdImages_proper fl _ _ (fresh_equiv s s' Ht)) as (Hr & Ho & Hk).
  rewrite -(frame_fresh s) -(frame_fresh s') !run_CmdImages !listing_frame /=.
  rewrite !run_CmdImages in Hr Ho Hk.
  split; [done|]. split; [done|]. exists (out (listing fl (fresh s)).2).
  by rewrite !app_nil_r Ho.
Qed.

(** Two calls in a row: the bytes on the stream after the second are
    the bytes after the first followed by the bytes the second sends to
    an empty stream when started with the clock readings of the first,
    and the second returns what it returns there. *)
Theorem CmdImages_twice `{Collab} fl1 fl2 s :
  let s1 := (CmdImages fl1 s).2 in
  (CmdImages fl2 s1).1 = (CmdImages fl2 (fresh s1)).1
  ∧ bytes (out (CmdImages fl2 s1).2)
    = bytes (out s1) +:+ bytes (out (CmdImages fl2 (fresh s1)).2).
Proof.
  intros s1. split.
  - by rewrite -{1}(frame_fresh s1) !run_CmdImages listing_frame.
  - by rewrite out_CmdImages_fresh bytes_app.
Qed.

(** ** Witnesses *)

Lemma CmdImages_no_cross_state_witness :
  (@CmdImages tc fl_default s0).1
  = (@CmdImages tc fl_default (@CmdImages tc fl_quiet s0).2).1
  ∧ ticks (@CmdImages tc fl_default s0).2
    = ticks (@CmdImages tc fl_default (@CmdImages tc fl_quiet s0).2).2
  ∧ ∃ blocks, out (@CmdImages tc fl_default s0).2 = out s0 ++ blocks
              ∧ out (@CmdImages tc fl_default (@CmdImages tc fl_quiet s0).2).2
                = out (@CmdImages tc fl_quiet s0).2 ++ blocks.
Proof. by apply (@CmdImages_no_cross_state tc fl_default s0). Defined.

(** ** Evaluation *)

(** A listing that fails outside quiet mode leaves its header and rows in
    its writer; the next listing shows nothing of them. *)
Example CmdImages_after_failure :
  (@CmdImages tc_bad fl_default s0).1 = Err "invalid reference format"
  ∧ length (ended (tw (@CmdImages tc_bad fl_default s0).2)) = 5
  ∧ bytes (out (@CmdImages tc_bad fl_quiet (@CmdImages tc_bad fl_default s0).2).2)
    = bytes (out (@CmdImages tc_bad fl_quiet s0).2).
Proof. by vm_compute. Qed.
