(* ===== verification/Flags.v ===== *)
(** * The command line

    Lines 22-33 of images.go: the handler declares its flags on a flag
    set, requires at most one positional argument and has the arguments
    parsed.  [cmd.ParseFlags] is code of pkg/mflag: it returns when the
    command line is accepted and ends the process otherwise (usage on
    [--help], an error on an unknown flag or on too many arguments).

    - [FlagDecl], [imagesFlagSet], [maxArgs]: the declarations as data;
    - [FlagParser]: the parser as a collaborator, with the two facts on
      it that the handler relies on ([cmd.Require] is enforced, and a
      flag that is not given keeps its default);
    - [flagsOf]: the values the handler reads after the parse;
    - [CmdImagesArgs]: the method on its arguments, the parse followed by
      [Images.CmdImages];
    - [testParseFlags]: a small parser on which the examples evaluate, a
      stand-in and not a model of pkg/mflag. *)

From Stdlib Require Import Ascii ZArith Lia.
From stdpp Require Import ssreflect base tactics option list strings numbers.
From S2P Require Import Prelude GoString Utf8 Externals Instances Tabwriter TabwriterLayout.
From S2P Require Import Reconciler Renderer Images.

Set Warnings "-rewrite-rw,-clear-no-such-hyp".

(** ** Declarations *)

(** What a flag holds: a boolean with its default ([cmd.Bool]), or the
    list of the values given, one per occurrence ([cmd.Var] of a
    [ListOpts]). *)
Inductive FlagKind :=
  | BoolFlag (default : bool)
  | ListFlag.

(** A declaration: the names of the flag, a name with a leading dash for
    the long form, what it holds and the text of the usage message. *)
Record FlagDecl := { names : list string; kind : FlagKind; usage : string }.

#[export] Instance FlagKind_eq_dec : EqDecision FlagKind.
Proof. solve_decision. Defined.

#[export] Instance FlagDecl_eq_dec : EqDecision FlagDecl.
Proof. solve_decision. Defined.

(** Line 24. *)
Definition quietFlag : FlagDecl :=
  {| names := ["q"; "-quiet"]; kind := BoolFlag false; usage := "Only show numeric IDs" |}.

(** Line 25. *)
Definition allFlag : FlagDecl :=
  {| names := ["a"; "-all"]; kind := BoolFlag false;
     usage := "Show all images (default hides intermediate images)" |}.

(** Line 26. *)
Definition noTruncFlag : FlagDecl :=
  {| names := ["-no-trunc"]; kind := BoolFlag false; usage := "Don't truncate output" |}.

(** Line 27. *)
Definition showDigestsFlag : FlagDecl :=
  {| names := ["-digests"]; kind := BoolFlag false; usage := "Show digests" |}.

(** Lines 29-30. *)
Definition filterFlag : FlagDecl :=
  {| names := ["f"; "-filter"]; kind := ListFlag;
     usage := "Filter output based on conditions provided" |}.

(** The flag set of the command, in the order of the declarations. *)
Definition imagesFlagSet : list FlagDecl :=
  [quietFlag; allFlag; noTruncFlag; showDigestsFlag; filterFlag].

(** Line 31, [cmd.Require(flag.Max, 1)]. *)
Definition maxArgs : nat := 1.

(** The value of a boolean flag that is not given. *)
Definition defaultOf (d : FlagDecl) : bool :=
  match kind d with BoolFlag b => b | ListFlag => false end.

(** ** The parser *)

(** What the handler reads after the parse: the value behind the pointer
    that each declaration returned, and the positional arguments. *)
Record Parsed := {
  boolOf : FlagDecl → bool;
  listOf : FlagDecl → list string;
  positional : list string;
}.

(** [cmd.ParseFlags(args, true)] on a flag set with a bound on the
    positional arguments: the values when it returns, [None] when it ends
    the process. *)
Class FlagParser := {
  ParseFlags : list FlagDecl → nat → list string → option Parsed;
}.

(** What the handler relies on. *)
Class FlagParserOk `{FlagParser} : Prop := {
  (** [cmd.Require(flag.Max, n)] is enforced. *)
  ParseFlags_Require decls max args r :
    ParseFlags decls max args = Some r → length (positional r) ≤ max;
  (** Without arguments every flag has its default. *)
  ParseFlags_nil decls max :
    ∃ r, ParseFlags decls max [] = Some r ∧ (∀ d, boolOf r d = defaultOf d)
         ∧ (∀ d, listOf r d = []) ∧ positional r = [];
}.

(** Lines 24-33 read through the pointers at lines 38, 47, 53, 63, 64,
    73, 108, 109 and 120. *)
Definition flagsOf (r : Parsed) : ImagesFlags :=
  {| quiet := boolOf r quietFlag; all := boolOf r allFlag;
     noTrunc := boolOf r noTruncFlag; showDigests := boolOf r showDigestsFlag;
     flFilter := listOf r filterFlag; args := positional r |}.

(** The method on its arguments: [None] when the process ends in the
    parser, before the handler does anything. *)
Definition CmdImagesArgs `{Collab} `{FlagParser} (args : list string) (s : World) :
    option (outcome error unit * World) :=
  r ← ParseFlags imagesFlagSet maxArgs args;
  Some (CmdImages (flagsOf r) s).

(** ** A parser for the examples *)

(** The declaration that has the name. *)
Fixpoint find_decl (decls : list FlagDecl) (name : string) : option FlagDecl :=
  match decls with
  | [] => None
  | d :: decls' => if bool_decide (name ∈ names d) then Some d else find_decl decls' name
  end.

(** The boolean flags given and the values of the list flags, in order. *)
Record Given := { trues : list FlagDecl; vals : list (FlagDecl * string) }.

(** Flags come first, as [-name], [-name=value] or [-name value]; the
    first argument that is no flag, or what follows [--], begins the
    positional arguments. *)
Fixpoint parse_args (decls : list FlagDecl) (args : list string) (g : Given) :
    option (Given * list string) :=
  match args with
  | [] => Some (g, [])
  | arg :: rest =>
      match arg with
      | String "-" name =>
          if decide (name = "") then Some (g, args)
          else if decide (name = "-") then Some (g, rest)
          else
            let '(name, value) :=
              match cut "=" name with
              | Some (n, v) => (n, Some v)
              | None => (name, None)
              end in
            match find_decl decls name with
            | None => None
            | Some d =>
                match kind d, value with
                | BoolFlag _, None =>
                    parse_args decls rest {| trues := d :: trues g; vals := vals g |}
                | BoolFlag _, Some _ => None
                | ListFlag, Some v =>
                    parse_args decls rest {| trues := trues g; vals := vals g ++ [(d, v)] |}
                | ListFlag, None =>
                    match rest with
                    | v :: rest' =>
                        parse_args decls rest'
                          {| trues := trues g; vals := vals g ++ [(d, v)] |}
                    | [] => None
                    end
                end
            end
      | _ => Some (g, args)
      end
  end.

Definition parsedOf (g : Given) (pos : list string) : Parsed :=
  {| boolOf := λ d, if bool_decide (d ∈ trues g) then true else defaultOf d;
     listOf := λ d, omap (λ dv, if decide (dv.1 = d) then Some dv.2 else None) (vals g);
     positional := pos |}.

Definition testParseFlags (decls : list FlagDecl) (max : nat) (args : list string) :
    option Parsed :=
  match parse_args decls args {| trues := []; vals := [] |} with
  | Some (g, pos) => if decide (length pos ≤ max) then Some (parsedOf g pos) else None
  | None => None
  end.

#[export] Instance testParser : FlagParser := {| ParseFlags := testParseFlags |}.

(** ** The handler on its arguments *)

Section flags.
Context `{Collab} `{FlagParser}.
Implicit Types (args : list string) (r : Parsed) (s : World).

(** The handler runs on the parsed flags, or not at all. *)
Lemma CmdImagesArgs_parsed args r s :
  ParseFlags imagesFlagSet maxArgs args = Some r →
  CmdImagesArgs args s = Some (CmdImages (flagsOf r) s).
Proof. rewrite /CmdImagesArgs. by intros ->. Qed.

(** The flags of a command line without arguments. *)
Lemma flagsOf_nil r :
  (∀ d, boolOf r d = defaultOf d) → (∀ d, listOf r d = []) → positional r = [] →
  flagsOf r = fl_default.
Proof. intros Hb Hl Hp. by rewrite /flagsOf !Hb Hl Hp. Qed.

End flags.

#[export] Instance testParser_ok : @FlagParserOk testParser.
Proof.
  split.
  - intros decls max args r. rewrite /ParseFlags /= /testParseFlags.
    destruct (parse_args _ _ _) as [[g pos]|]; [|done]. case_decide; [|done].
    by intros [= <-].
  - intros decls max. exists (parsedOf {| trues := []; vals := [] |} []).
    by split.
Qed.

(** ** The claims *)

(** C32.  The name pattern given to the daemon: whenever the parser
    accepts the command line, [MatchName] is the positional argument when
    there is one and empty when there is none.  [cmd.Require(flag.Max, 1)]
    leaves no other case, so the test [cmd.NArg() == 1] of line 47 only
    tells whether there is an argument. *)
Theorem CmdImagesArgs_matchName `{Collab} `{FlagParserOk} args r a :
  ParseFlags imagesFlagSet maxArgs args = Some r →
  MatchName (listOptions (flagsOf r) a) = default "" (head (positional r))
  ∧ length (positional r) ≤ 1.
Proof.
  intros Hr%ParseFlags_Require. split; [|done].
  rewrite /listOptions /matchNameOf /=. rewrite /maxArgs in Hr.
  destruct (positional r) as [|x [|y l]]; simpl in *; [done..|lia].
Qed.

(** [docker images] without any argument: the listing is not quiet, ids
    are shortened, there is no digest column, intermediate images are
    hidden, and no filter and no name pattern is given to the daemon. *)
Theorem CmdImagesArgs_defaults `{Collab} `{FlagParserOk} s :
  CmdImagesArgs [] s = Some (CmdImages fl_default s).
Proof.
  destruct (ParseFlags_nil imagesFlagSet maxArgs) as (r & Hr & Hb & Hl & Hp).
  by rewrite (CmdImagesArgs_parsed [] r) // flagsOf_nil.
Qed.

(** ** Witnesses and evaluation *)

Lemma CmdImagesArgs_matchName_witness :
  ∃ r, ParseFlags imagesFlagSet maxArgs ["-q"; "--filter"; "dangling=true"; "ubuntu"] = Some r
       ∧ @MatchName (@Args tc) (@listOptions tc (flagsOf r) (@NewArgs tc))
         = default "" (head (positional r))
       ∧ length (positional r) ≤ 1.
Proof.
  eexists. split; [reflexivity|].
  by apply (@CmdImagesArgs_matchName tc testParser _
              ["-q"; "--filter"; "dangling=true"; "ubuntu"] _ (@NewArgs tc)).
Defined.

(** No two declarations share a name: the flag set can be built. *)
Example imagesFlagSet_names : NoDup (concat (names <$> imagesFlagSet)).
Proof. apply (bool_decide_unpack _). by vm_compute. Qed.

(** [docker images -q --filter dangling=true ubuntu] on the test parser. *)
Example testParseFlags_flags :
  flagsOf <$> ParseFlags imagesFlagSet maxArgs ["-q"; "--filter"; "dangling=true"; "ubuntu"]
  = Some {| quiet := true; all := false; noTrunc := false; showDigests := false;
            flFilter := ["dangling=true"]; args := ["ubuntu"] |}.
Proof. by vm_compute. Qed.

(** A second positional argument and an unknown flag end the process. *)
Example testParseFlags_exit :
  @CmdImagesArgs tc testParser ["ubuntu"; "debian"] s0 = None
  ∧ @CmdImagesArgs tc testParser ["--format"; "x"] s0 = None.
Proof. by vm_compute. Qed.
