(* ===== verification/Invariants.v ===== *)
(** * The text that goes through the writer

    The writer of the handler splits what it is given into cells and
    lines, and holds them until a flush.  [shown] reads the text back
    from the stream and the writer; the theorems of this file say that it
    is the text the handler wrote, the header and the rows in order,
    nothing lost or reordered by the split into cells, whether the lines
    were flushed one by one, at the end, or not at all.  [run_header] and
    [run_body] are the handler from the header on, for the proofs that
    follow it statement by statement. *)

From Stdlib Require Import Ascii ZArith Lia.
From stdpp Require Import ssreflect base tactics option list strings numbers.
From S2P Require Import Prelude GoString Externals Instances Tabwriter TabwriterText.
From S2P Require Import Reconciler Renderer Images.

Set Warnings "-rewrite-rw,-clear-no-such-hyp".

(** ** Properties of the state *)

(** The text that reached [cli.out] or waits in [w]. *)
Definition shown (s : World) : string := written (tw s, out s).

(** ** The state operations *)

Section operations.
Implicit Types (s : World) (text : string).

Lemma emit_shown text s :
  all_chars textual text = true → shown (emit text s) = shown s +:+ text.
Proof. exact (Write_written text (tw s, out s)). Qed.

Lemma flushW_shown s : shown (flushW s) = shown s.
Proof. exact (Flush_written (tw s, out s)). Qed.

Lemma tick_shown s : shown (tick s) = shown s.
Proof. done. Qed.

(** Tabs and newlines are recorded by the cells. *)
Lemma textual_app (p q : string) :
  all_chars textual (p +:+ q) = all_chars textual p && all_chars textual q.
Proof. apply all_chars_app. Qed.

Lemma plain_textual f : plain f = true → all_chars textual f = true.
Proof.
  apply all_chars_impl. intros a. rewrite /special /textual.
  rewrite !negb_true_iff !orb_false_iff. by intros [[[[_ ->] _] ->] _].
Qed.

Lemma tabline_textual row :
  Forall (λ f, all_chars textual f = true) row → all_chars textual (tabline row) = true.
Proof.
  induction row as [|f [|f' fs] IH]; intros Hrow; [done| |].
  - apply Forall_cons_1 in Hrow as [Hf _].
    by rewrite /tabline textual_app Hf.
  - apply Forall_cons_1 in Hrow as [Hf Hrow].
    change (tabline (f :: f' :: fs)) with (f +:+ \t +:+ tabline (f' :: fs)).
    by rewrite !textual_app Hf IH.
Qed.

Lemma tablines_textual rows :
  Forall (λ row, Forall (λ f, all_chars textual f = true) row) rows →
  all_chars textual (tablines rows) = true.
Proof.
  induction 1 as [|row rows Hrow _ IH]; [done|].
  by rewrite tablines_cons textual_app tabline_textual.
Qed.

Lemma headerFields_textual sd : Forall (λ f, all_chars textual f = true) (headerFields sd).
Proof. destruct sd; by repeat constructor. Qed.

Lemma headerRows_textual fl :
  Forall (λ row, Forall (λ f, all_chars textual f = true) row) (headerRows fl).
Proof.
  rewrite /headerRows. destruct (quiet fl); constructor; [|done].
  apply headerFields_textual.
Qed.

End operations.

#[export] Hint Resolve tabline_textual tablines_textual headerFields_textual headerRows_textual
  plain_textual : go.
#[export] Hint Rewrite emit_shown flushW_shown tick_shown using done : go.

(** ** The statements of the handler *)

Section statements.
Context `{Collab}.
Implicit Types (s : World) (fl : ImagesFlags).

(** The state after the writer was created and the header written. *)
Lemma run_header fl s :
  (newTabWriter ;; writeHeader fl) s =
  (Ok tt, emit (tablines (headerRows fl))
            {| tw := NewWriter 20 1 3 " " 0; out := out s; ticks := ticks s |}).
Proof. by rewrite run_bind /newTabWriter /modify /= run_writeHeader. Qed.

(** The handler from the listing call on, given the records. *)
Lemma run_body fl s a images :
  consolidateFilters (flFilter fl) = Ok a →
  ImageList (listOptions fl a) = Ok images →
  CmdImages fl s =
    match forM_ images (imageRows fl) ((newTabWriter ;; writeHeader fl) s).2 with
    | (Ok _, s') => (Ok tt, (finish fl s').2)
    | (Err e, s') => (Err e, s')
    end.
Proof.
  intros Ha Hi. rewrite /CmdImages Ha run_lift_Ok Hi run_lift_Ok.
  rewrite run_header /= run_bind /newTabWriter /modify /= run_bind run_writeHeader /=.
  rewrite run_bind. destruct (forM_ _ _ _) as [[[]|e] s']; [|done].
  rewrite /finish. by destruct (quiet fl).
Qed.

End statements.

(** ** The claims *)

(** C17.  The text that went through the writer is the text of the header
    and of the rows, in order: whether the rows were flushed one by one,
    all at the end, or stay in the writer because the pass was stopped,
    the cells on the output and in the writer spell exactly the lines that
    were written, as long as no field holds a vertical tab or a form
    feed.  Fields may hold tabs and newlines. *)
Theorem CmdImages_shown `{Collab} fl s a images rows err kend :
  consolidateFilters (flFilter fl) = Ok a →
  ImageList (listOptions fl a) = Ok images →
  listingRows fl (ticks s) images = (rows, err, kend) →
  Forall (λ row, Forall (λ f, all_chars textual f = true) row) rows →
  shown (CmdImages fl s).2 = blocks_text (out s) +:+ tablines (headerRows fl ++ rows).
Proof.
  intros Ha Hi Hrows Htext. rewrite run_CmdImages /listing Ha Hi Hrows /shown.
  assert (written (Write (tablines (headerRows fl ++ rows))
                     (NewWriter 20 1 3 " " 0, out s))
          = blocks_text (out s) +:+ tablines (headerRows fl ++ rows)) as Hw.
  { rewrite Write_written; [|apply tablines_textual, Forall_app; auto with go].
    by rewrite written_NewWriter. }
  destruct err; simpl; [by rewrite -surjective_pairing|].
  destruct (quiet fl); by rewrite -surjective_pairing ?Flush_written.
Qed.

(** C30.  Writing and reading back: a text without vertical tab and form
    feed written on [w], whatever [w] holds and whether a line of one
    cell flushes it on the way or not, extends the text that the output
    and the writer spell by exactly that text, and a Flush moves it to
    the output without changing it. *)
Theorem writes_shown text s :
  all_chars textual text = true →
  shown (emit text s) = shown s +:+ text
  ∧ shown (flushW (emit text s)) = shown s +:+ text.
Proof. intros Htext. by rewrite flushW_shown emit_shown. Qed.

(** ** Witnesses *)

Lemma CmdImages_shown_witness :
  shown (@CmdImages tc_bad fl_quiet s0).2
  = blocks_text (out s0)
    +:+ tablines (headerRows fl_quiet ++
          [["sha256:01234"]; ["sha256:01234"]; ["sha256:01234"]; ["sha256:fedcb"]]).
Proof.
  apply (@CmdImages_shown tc_bad fl_quiet s0 [] [img_foo; img_bad] _
           (Some "invalid reference format") 0); by repeat constructor.
Defined.

Lemma writes_shown_witness :
  shown (emit ("a" +:+ \t +:+ "b" +:+ \n +:+ "c" +:+ \n +:+ "d") s0)
  = shown s0 +:+ ("a" +:+ \t +:+ "b" +:+ \n +:+ "c" +:+ \n +:+ "d")
  ∧ shown (flushW (emit ("a" +:+ \t +:+ "b" +:+ \n +:+ "c" +:+ \n +:+ "d") s0))
    = shown s0 +:+ ("a" +:+ \t +:+ "b" +:+ \n +:+ "c" +:+ \n +:+ "d").
Proof. by apply writes_shown. Defined.

(** An id that holds a tab: the line has two cells and stays in the
    writer, and the text is there. *)
Example CmdImages_shown_tab_id :
  let img := {| ID := "ab" +:+ \t +:+ "cd"; RepoTags := ["foo:v1"]; RepoDigests := [];
                Created := 0; Size := 0 |} in
  shown (@CmdImages (testCollab (λ _, Ok [img]) (tick_clock 0 1))
           {| quiet := true; all := false; noTrunc := true; showDigests := false;
              flFilter := []; args := [] |} s0).2
  = "ab" +:+ \t +:+ "cd" +:+ \n.
Proof. by vm_compute. Qed.
