(* ===== verification/Machine.v ===== *)
(** * The handler as a machine

    [CmdImages] of [Images] is one function of the monad.  This file
    gives the same code as a transition system, one transition per
    iteration of a loop of images.go, so that the order of the calls and
    what holds between them can be stated:

    - a configuration is a program point with the values that are live
      there ([Ctl]) and the state [World];
    - [Step] has one rule per way through a program point: the filter
      loop (lines 38-44), the listing call (lines 46-60), the writer and
      the header (lines 62-69), the head of the loop over the records
      (lines 71-86), one reference of a record (lines 87-117), the end of a
      record, and the final flush and return (lines 120-123); the rules
      that run a statement take it from [Images];
    - [step] is the same as a function, and [run] iterates it;
    - [remaining] bounds the number of transitions left, so that [run]
      with that much fuel reaches the return;
    - [denote] is what the code from a program point on computes; a
      transition keeps it, which gives the agreement with [CmdImages];
    - [hidden] and [rectangular] are what holds at every program point of
      a listing outside quiet mode: the stream is untouched, and the
      writer holds the header and one line per row, each with one cell
      per column ([holds_table]). *)

From Stdlib Require Import Ascii ZArith Lia.
From stdpp Require Import ssreflect base tactics option list strings numbers.
From S2P Require Import Prelude GoString Externals Instances Tabwriter TabwriterText.
From S2P Require Import TabwriterLayout Reconciler Renderer Images Invariants.

Set Warnings "-rewrite-rw,-clear-no-such-hyp".

(** ** Configurations *)

Section machine_defs.
Context `{Collab}.

(** The program points at which a transition starts, with the values the
    code holds there. *)
Inductive Ctl :=
  | AtFilters (rest : list string) (imageFilterArgs : Args)
      (* line 38, the flags still to fold and the criteria so far *)
  | AtHeader (images : list Image)
      (* line 62, the records the daemon returned *)
  | AtImage (images : list Image)
      (* line 71, the records still to show *)
  | AtRef (image : Image) (ID : string) (refs : list string) (images : list Image)
      (* line 87, the references of [image] still to show *)
  | Returned (r : outcome error unit).
      (* after [return] *)

Definition Config : Type := Ctl * World.

(** What a transition does, as seen from outside. *)
Inductive Label :=
  | LParseFlag (f : string)          (* [filters.ParseFlag(f, ...)], line 40 *)
  | LImageList                       (* [cli.client.ImageList], line 57 *)
  | LHeader                          (* the writer and the header, lines 62-69 *)
  | LImage (image : Image)           (* a record is taken up, lines 71-86 *)
  | LRow (repoAndRef : string)       (* one reference, lines 87-116 *)
  | LImageEnd                        (* the references of a record are done *)
  | LFlush.                          (* lines 120-123 *)

(** The first program point: the filter loop with all flags to fold. *)
Definition init (fl : ImagesFlags) : Ctl := AtFilters (flFilter fl) NewArgs.

Definition final (c : Config) : Prop :=
  match c.1 with Returned _ => True | _ => False end.

(** ** Transitions *)

Inductive Step (fl : ImagesFlags) : Config → Label → Config → Prop :=
  | step_filter f rest acc acc' s :
      ParseFlag f acc = Ok acc' →
      Step fl (AtFilters (f :: rest) acc, s) (LParseFlag f) (AtFilters rest acc', s)
  | step_filter_err f rest acc e s :
      ParseFlag f acc = Err e →
      Step fl (AtFilters (f :: rest) acc, s) (LParseFlag f) (Returned (Err e), s)
  | step_list acc images s :
      ImageList (listOptions fl acc) = Ok images →
      Step fl (AtFilters [] acc, s) LImageList (AtHeader images, s)
  | step_list_err acc e s :
      ImageList (listOptions fl acc) = Err e →
      Step fl (AtFilters [] acc, s) LImageList (Returned (Err e), s)
  | step_header images s :
      Step fl (AtHeader images, s) LHeader
        (AtImage images, ((newTabWriter ;; writeHeader fl) s).2)
  | step_image image images s :
      Step fl (AtImage (image :: images), s) (LImage image)
        (AtRef image (displayID (noTrunc fl) (ID image)) (tagsAndDigests image) images, s)
  | step_row image ID r refs images s s' :
      writeRow fl image ID r s = (Ok tt, s') →
      Step fl (AtRef image ID (r :: refs) images, s) (LRow r)
        (AtRef image ID refs images, s')
  | step_row_err image ID r refs images s e s' :
      writeRow fl image ID r s = (Err e, s') →
      Step fl (AtRef image ID (r :: refs) images, s) (LRow r) (Returned (Err e), s')
  | step_image_end image ID images s :
      Step fl (AtRef image ID [] images, s) LImageEnd (AtImage images, s)
  | step_flush s :
      Step fl (AtImage [], s) LFlush (Returned (Ok tt), (finish fl s).2).

(** Zero or more transitions, with the labels in order. *)
Inductive Steps (fl : ImagesFlags) : Config → list Label → Config → Prop :=
  | steps_nil c : Steps fl c [] c
  | steps_cons c l c' tr c'' :
      Step fl c l c' → Steps fl c' tr c'' → Steps fl c (l :: tr) c''.

(** ** The transition function *)

Definition step (fl : ImagesFlags) (c : Config) : option (Label * Config) :=
  let s := c.2 in
  match c.1 with
  | AtFilters (f :: rest) acc =>
      match ParseFlag f acc with
      | Ok acc' => Some (LParseFlag f, (AtFilters rest acc', s))
      | Err e => Some (LParseFlag f, (Returned (Err e), s))
      end
  | AtFilters [] acc =>
      match ImageList (listOptions fl acc) with
      | Ok images => Some (LImageList, (AtHeader images, s))
      | Err e => Some (LImageList, (Returned (Err e), s))
      end
  | AtHeader images =>
      Some (LHeader, (AtImage images, ((newTabWriter ;; writeHeader fl) s).2))
  | AtImage (image :: images) =>
      Some (LImage image,
            (AtRef image (displayID (noTrunc fl) (ID image)) (tagsAndDigests image)
               images, s))
  | AtImage [] => Some (LFlush, (Returned (Ok tt), (finish fl s).2))
  | AtRef image ID (r :: refs) images =>
      match writeRow fl image ID r s with
      | (Ok _, s') => Some (LRow r, (AtRef image ID refs images, s'))
      | (Err e, s') => Some (LRow r, (Returned (Err e), s'))
      end
  | AtRef image ID [] images => Some (LImageEnd, (AtImage images, s))
  | Returned _ => None
  end.

(** [run fl n c]: at most [n] transitions from [c], with their labels. *)
Fixpoint run (fl : ImagesFlags) (n : nat) (c : Config) : list Label * Config :=
  match n with
  | 0 => ([], c)
  | S n' =>
      match step fl c with
      | Some (l, c') => let '(tr, c'') := run fl n' c' in (l :: tr, c'')
      | None => ([], c)
      end
  end.

(** ** The transitions that are left *)

(** The transitions of the loop over the records: per record one to take
    it up, one per reference and one to leave it; one for the flush. *)
Definition size_images (images : list Image) : nat :=
  1 + sum_list_with (λ image, 2 + length (tagsAndDigests image)) images.

(** An upper bound of the number of transitions from a configuration to
    the return.  At the filter loop the bound looks ahead at what the
    remaining calls return. *)
Definition remaining (fl : ImagesFlags) (c : Config) : nat :=
  match c.1 with
  | AtFilters rest acc =>
      1 + length rest +
      match foldM (λ a f, ParseFlag f a) acc rest with
      | Ok a =>
          match ImageList (listOptions fl a) with
          | Ok images => 1 + size_images images
          | Err _ => 0
          end
      | Err _ => 0
      end
  | AtHeader images => 1 + size_images images
  | AtImage images => size_images images
  | AtRef image ID refs images => 1 + length refs + size_images images
  | Returned _ => 0
  end.

(** ** What the code from a program point on computes *)

Definition denote (fl : ImagesFlags) (c : Config) : outcome error unit * World :=
  let s := c.2 in
  match c.1 with
  | AtFilters rest acc =>
      (imageFilterArgs ← lift (foldM (λ a f, ParseFlag f a) acc rest);
       images ← lift (ImageList (listOptions fl imageFilterArgs));
       newTabWriter ;; writeHeader fl ;; forM_ images (imageRows fl) ;;
       finish fl ;; mret tt) s
  | AtHeader images =>
      (newTabWriter ;; writeHeader fl ;; forM_ images (imageRows fl) ;;
       finish fl ;; mret tt) s
  | AtImage images =>
      (forM_ images (imageRows fl) ;; finish fl ;; mret tt) s
  | AtRef image ID refs images =>
      (forM_ refs (writeRow fl image ID) ;; forM_ images (imageRows fl) ;;
       finish fl ;; mret tt) s
  | Returned r => (r, s)
  end.

(** The labels of a pass over the records that is not stopped. *)
Definition image_trace (image : Image) : list Label :=
  LImage image :: (LRow <$> tagsAndDigests image) ++ [LImageEnd].

Definition images_trace (images : list Image) : list Label :=
  concat (image_trace <$> images).

(** The labels of a run that ends with the error [e]: the run stops at
    the call that fails, which is a filter flag after the flags before it
    were accepted, or the listing call after all flags, or a reference of
    a record after the records before it were shown and the references
    before it resolved. *)
Inductive failed_trace (fl : ImagesFlags) (e : error) : list Label → Prop :=
  | failed_filter fs f rest acc :
      flFilter fl = fs ++ f :: rest →
      foldM (λ a f, ParseFlag f a) NewArgs fs = Ok acc →
      ParseFlag f acc = Err e →
      failed_trace fl e (LParseFlag <$> fs ++ [f])
  | failed_list a :
      consolidateFilters (flFilter fl) = Ok a →
      ImageList (listOptions fl a) = Err e →
      failed_trace fl e ((LParseFlag <$> flFilter fl) ++ [LImageList])
  | failed_ref a images shown tss image rest refs ts r refs' :
      consolidateFilters (flFilter fl) = Ok a →
      ImageList (listOptions fl a) = Ok images →
      images = shown ++ image :: rest →
      mapM reconcile shown = Ok tss →
      tagsAndDigests image = refs ++ r :: refs' →
      mapM resolveRef refs = Ok ts →
      resolveRef r = Err e →
      failed_trace fl e
        ((LParseFlag <$> flFilter fl) ++ [LImageList; LHeader] ++ images_trace shown
         ++ LImage image :: (LRow <$> refs ++ [r])).

(** ** Nothing shows before the flush *)

Definition plainIDs (images : list Image) : Prop :=
  Forall (λ image, plain (ID image) = true) images.

(** What holds at each program point of a listing outside quiet mode that
    began in the state [s0]: nothing more reached the output, the writer
    is between two lines, and the ids still to show are plain. *)
Definition hidden (s0 : World) (c : Config) : Prop :=
  match c.1 with
  | AtFilters _ _ => out c.2 = out s0
  | AtHeader images => out c.2 = out s0 ∧ plainIDs images
  | AtImage images => out c.2 = out s0 ∧ at_line_start (tw c.2) ∧ plainIDs images
  | AtRef image ID refs images =>
      out c.2 = out s0 ∧ at_line_start (tw c.2) ∧ plain ID = true ∧ plainIDs images
  | Returned (Err _) => out c.2 = out s0
  | Returned (Ok _) => True
  end.

(** ** The writer holds one table *)

(** The rows that a sequence of transitions wrote or tried to write. *)
Definition is_row (l : Label) : nat := match l with LRow _ => 1 | _ => 0 end.

Definition rows_shown (tr : list Label) : nat := sum_list_with is_row tr.

(** The program points of the loop over the records. *)
Definition in_loop (c : Config) : Prop :=
  match c.1 with AtImage _ | AtRef _ _ _ _ => True | _ => False end.

(** The writer holds the table of a listing with [n] rows: it has the
    parameters of line 62, it is between two lines, it holds the header
    and [n] lines after it, and every line has one cell per column of the
    header. *)
Definition holds_table (fl : ImagesFlags) (n : nat) (w : Writer) : Prop :=
  cfg w = cfg (NewWriter 20 1 3 " " 0)
  ∧ at_line_start w
  ∧ length (ended w) = S n
  ∧ head (ended w) = Some (cells_of (headerFields (showDigests fl)))
  ∧ Forall (λ line, length line = length (headerFields (showDigests fl))) (ended w).

(** What holds at each program point of a listing outside quiet mode
    after [n] rows. *)
Definition rectangular (fl : ImagesFlags) (n : nat) (c : Config) : Prop :=
  match c.1 with
  | AtFilters _ _ => n = 0
  | AtHeader images => n = 0 ∧ plainIDs images
  | AtImage images => holds_table fl n (tw c.2) ∧ plainIDs images
  | AtRef image ID refs images =>
      holds_table fl n (tw c.2) ∧ plain ID = true ∧ plainIDs images
  | Returned _ => True
  end.

End machine_defs.

(** ** The relation and the function *)

Section machine.
Context `{Collab} (fl : ImagesFlags).
Implicit Types (c : Config) (l : Label) (tr : list Label) (s : World).

Lemma step_Step c l c' : step fl c = Some (l, c') ↔ Step fl c l c'.
Proof.
  split.
  - destruct c as [[[|f rest] acc|images|[|image images]|image ID [|r refs] images|r] s];
      rewrite /step /=; try done.
    + destruct (ImageList _) eqn:?; intros [= <- <-]; by constructor.
    + destruct (ParseFlag _ _) eqn:?; intros [= <- <-]; by constructor.
    + intros [= <- <-]. constructor.
    + intros [= <- <-]. constructor.
    + intros [= <- <-]. constructor.
    + intros [= <- <-]. constructor.
    + destruct (writeRow _ _ _ _ _) as [[[]|e] s'] eqn:?; intros [= <- <-];
        by econstructor.
  - intros Hstep. destruct Hstep; rewrite /step /=;
      repeat match goal with Heq : _ = _ |- _ => rewrite Heq end; done.
Qed.

Lemma Step_det c l1 c1 l2 c2 : Step fl c l1 c1 → Step fl c l2 c2 → l1 = l2 ∧ c1 = c2.
Proof. rewrite -!step_Step. intros -> [= <- <-]. done. Qed.

Lemma step_None c : step fl c = None ↔ final c.
Proof.
  destruct c as [[[|f rest] acc|images|[|image images]|image ID [|r refs] images|r] s];
    rewrite /step /final /=; try done.
  - by destruct (ImageList _).
  - by destruct (ParseFlag _ _).
  - by destruct (writeRow _ _ _ _ _) as [[[]|e] s'].
Qed.

Lemma final_stuck c l c' : final c → ¬ Step fl c l c'.
Proof. rewrite -step_None -step_Step. by intros ->. Qed.

Lemma Step_progress c : ¬ final c → ∃ l c', Step fl c l c'.
Proof.
  rewrite -step_None. destruct (step fl c) as [[l c']|] eqn:Hs; [|done].
  intros _. exists l, c'. by apply step_Step.
Qed.

#[export] Instance final_dec c : Decision (final c).
Proof. rewrite /final. destruct c.1; apply _. Defined.

(** ** Every transition uses up the bound *)

Lemma size_images_cons image images :
  size_images (image :: images) = 2 + length (tagsAndDigests image) + size_images images.
Proof. rewrite /size_images /=. lia. Qed.

Lemma Step_remaining c l c' : Step fl c l c' → remaining fl c' < remaining fl c.
Proof.
  intros Hstep. destruct Hstep; rewrite /remaining /= ?size_images_cons;
    repeat match goal with Heq : _ = _ |- _ => rewrite Heq /= end; try lia.
  rewrite /size_images /=. lia.
Qed.

(** ** Every transition keeps what is computed *)

Lemma Step_denote c l c' : Step fl c l c' → denote fl c' = denote fl c.
Proof.
  intros Hstep.
  destruct Hstep as [f rest acc acc' s Hf|f rest acc e s Hf|acc images s Hl|acc e s Hl
    |images s|image images s|image ID r refs images s s' Hr
    |image ID r refs images s e s' Hr|image ID images s|s]; rewrite /denote;
    cbn [fst snd].
  - by rewrite /= Hf.
  - by rewrite /= Hf.
  - by rewrite run_lift_Ok Hl run_lift_Ok.
  - by rewrite run_lift_Ok Hl.
  - by rewrite !run_bind /newTabWriter /modify /= !run_writeHeader run_bind run_writeHeader.
  - rewrite !run_bind forM__cons /imageRows.
    by destruct (forM_ _ _ s) as [[[]|e] s'].
  - by rewrite !run_bind forM__cons Hr.
  - by rewrite !run_bind forM__cons Hr.
  - by rewrite !run_bind forM__nil.
  - rewrite !run_bind forM__nil /finish. by destruct (quiet fl).
Qed.

(** ** Sequences of transitions *)

Lemma Steps_app c tr c' tr' c'' :
  Steps fl c tr c' → Steps fl c' tr' c'' → Steps fl c (tr ++ tr') c''.
Proof. induction 1; [done|]. intros. econstructor; eauto. Qed.

Lemma Steps_one c l c' : Step fl c l c' → Steps fl c [l] c'.
Proof. intros. econstructor; [done|constructor]. Qed.

Lemma Steps_denote c tr c' : Steps fl c tr c' → denote fl c' = denote fl c.
Proof. induction 1 as [|????? Hstep _ IH]; [done|]. by rewrite IH (Step_denote _ _ _ Hstep). Qed.

Lemma Steps_remaining c tr c' :
  Steps fl c tr c' → length tr + remaining fl c' ≤ remaining fl c.
Proof.
  induction 1 as [|????? Hstep%Step_remaining _ IH]; simpl; lia.
Qed.

(** Two sequences from the same configuration to a return are the same. *)
Lemma Steps_det c tr1 c1 tr2 c2 :
  Steps fl c tr1 c1 → final c1 → Steps fl c tr2 c2 → final c2 → tr1 = tr2 ∧ c1 = c2.
Proof.
  intros Hs1. revert tr2 c2. induction Hs1 as [c|c l c' tr c'' Hstep _ IH];
    intros tr2 c2 Hf1 Hs2 Hf2.
  - destruct Hs2 as [|????? Hstep2]; [done|]. by apply final_stuck in Hstep2.
  - destruct Hs2 as [|c l2 c2' tr2 c2'' Hstep2 Hs2]; [by apply final_stuck in Hstep|].
    destruct (Step_det _ _ _ _ _ Hstep Hstep2) as [-> ->].
    destruct (IH _ _ Hf1 Hs2 Hf2) as [-> ->]. done.
Qed.

(** ** The function [run] *)

Lemma run_Steps n c : Steps fl c (run fl n c).1 (run fl n c).2.
Proof.
  revert c. induction n as [|n IH]; intros c; simpl; [constructor|].
  destruct (step fl c) as [[l c']|] eqn:Hs; [|constructor].
  specialize (IH c'). destruct (run fl n c') as [tr c'']. simpl in *.
  econstructor; [by apply step_Step|done].
Qed.

Lemma run_final n c : remaining fl c ≤ n → final (run fl n c).2.
Proof.
  revert c. induction n as [|n IH]; intros c Hn; simpl.
  - destruct (decide (final c)) as [|Hnf]; [done|].
    apply Step_progress in Hnf as (l & c' & Hstep%Step_remaining). lia.
  - destruct (step fl c) as [[l c']|] eqn:Hs; [|by apply step_None].
    apply step_Step, Step_remaining in Hs. specialize (IH c' ltac:(lia)).
    by destruct (run fl n c').
Qed.

(** The denotation of the first program point is the handler. *)
Lemma denote_init s : denote fl (init fl, s) = CmdImages fl s.
Proof. done. Qed.

(** A run with enough fuel ends at the return of the handler. *)
Lemma run_CmdImages_final n s :
  remaining fl (init fl, s) ≤ n →
  (run fl n (init fl, s)).2 = (Returned (CmdImages fl s).1, (CmdImages fl s).2).
Proof.
  intros Hn. pose proof (run_final n _ Hn) as Hf.
  pose proof (Steps_denote _ _ _ (run_Steps n (init fl, s))) as Hd.
  rewrite denote_init in Hd. destruct (run fl n (init fl, s)).2 as [[] s']; try done.
  by rewrite -Hd.
Qed.

End machine.

(** ** Invariants of the transitions *)

Section machine_invariants.
Context `{Collab} (fl : ImagesFlags).
Implicit Types (c : Config) (l : Label) (tr : list Label) (s : World).

(** ** The sequence of a pass that is not stopped *)

Lemma Steps_filters_app fs rest acc s a :
  foldM (λ a f, ParseFlag f a) acc fs = Ok a →
  Steps fl (AtFilters (fs ++ rest) acc, s) (LParseFlag <$> fs) (AtFilters rest a, s).
Proof.
  revert acc. induction fs as [|f fs IH]; intros acc; simpl.
  - intros [= ->]. constructor.
  - destruct (ParseFlag f acc) as [acc'|] eqn:Hf; simpl; [|done]. intros Hrest.
    econstructor; [by constructor|by apply IH].
Qed.

Lemma Steps_filters rest acc s a :
  foldM (λ a f, ParseFlag f a) acc rest = Ok a →
  Steps fl (AtFilters rest acc, s) (LParseFlag <$> rest) (AtFilters [] a, s).
Proof. intros Ha. rewrite -{1}(app_nil_r rest). by apply Steps_filters_app. Qed.

Lemma Steps_refs image ID refs images s s' :
  forM_ refs (writeRow fl image ID) s = (Ok tt, s') →
  Steps fl (AtRef image ID refs images, s) ((LRow <$> refs) ++ [LImageEnd])
    (AtImage images, s').
Proof.
  revert s. induction refs as [|r refs IH]; intros s.
  - rewrite forM__nil. intros [= ->]. apply Steps_one. constructor.
  - rewrite forM__cons. destruct (writeRow fl image ID r s) as [[[]|e] s1] eqn:Hr; [|done].
    intros Hrest. simpl. econstructor; [by constructor|by apply IH].
Qed.

Lemma Steps_images images s s' :
  forM_ images (imageRows fl) s = (Ok tt, s') →
  Steps fl (AtImage images, s) (images_trace images ++ [LFlush])
    (Returned (Ok tt), (finish fl s').2).
Proof.
  revert s. induction images as [|image images IH]; intros s.
  - rewrite forM__nil. intros [= ->]. apply Steps_one. constructor.
  - rewrite forM__cons.
    destruct (imageRows fl image s) as [[[]|e] s1] eqn:Hi; [|done]. intros Hrest.
    rewrite /images_trace /= -/(images_trace images) /image_trace -!app_assoc /=.
    econstructor; [constructor|]. rewrite (cons_middle LImageEnd) app_assoc.
    eapply Steps_app; [by apply Steps_refs|by apply IH].
Qed.

Lemma Steps_listing s a images s' :
  consolidateFilters (flFilter fl) = Ok a →
  ImageList (listOptions fl a) = Ok images →
  forM_ images (imageRows fl) ((newTabWriter ;; writeHeader fl) s).2 = (Ok tt, s') →
  Steps fl (init fl, s)
    ((LParseFlag <$> flFilter fl) ++ [LImageList; LHeader] ++ images_trace images ++ [LFlush])
    (Returned (Ok tt), (finish fl s').2).
Proof.
  intros Ha Hi Hrows. eapply Steps_app; [by apply Steps_filters|].
  econstructor; [by constructor|]. econstructor; [constructor|].
  by apply Steps_images.
Qed.

(** ** The sequence of a pass that is stopped *)

(** References that resolve are shown one after the other. *)
Lemma Steps_refs_app image ID refs rest images s ts :
  mapM resolveRef refs = Ok ts →
  ∃ s', Steps fl (AtRef image ID (refs ++ rest) images, s) (LRow <$> refs)
          (AtRef image ID rest images, s').
Proof.
  revert s ts. induction refs as [|r refs IH]; intros s ts; simpl.
  - intros _. eexists. constructor.
  - destruct (resolveRef r) as [t|] eqn:Hr; simpl; [|done].
    destruct (mapM resolveRef refs) as [ts'|] eqn:Hrefs; simpl; [|done]. intros _.
    pose proof (run_writeRow fl image ID r s) as Hw. rewrite Hr in Hw.
    destruct (IH (writeRow fl image ID r s).2 ts' eq_refl) as [s' Hs'].
    exists s'. econstructor; [|done]. rewrite Hw. by constructor.
Qed.

(** Records that reconcile are shown one after the other. *)
Lemma Steps_images_app shown rest s tss :
  mapM reconcile shown = Ok tss →
  ∃ s', Steps fl (AtImage (shown ++ rest), s) (images_trace shown) (AtImage rest, s').
Proof.
  revert s tss. induction shown as [|image shown IH]; intros s tss; simpl.
  - intros _. eexists. constructor.
  - destruct (reconcile image) as [ts|] eqn:Hts; simpl; [|done].
    destruct (mapM reconcile shown) as [tss'|] eqn:Hshown; simpl; [|done]. intros _.
    destruct (Steps_refs_app image (displayID (noTrunc fl) (ID image))
                (tagsAndDigests image) [] (shown ++ rest) s ts Hts) as [s1 Hs1].
    rewrite app_nil_r in Hs1. destruct (IH s1 tss' eq_refl) as [s' Hs'].
    exists s'. rewrite /images_trace /= -/(images_trace shown) /image_trace.
    econstructor; [constructor|]. rewrite -app_assoc.
    eapply Steps_app; [done|]. econstructor; [constructor|done].
Qed.

(** The run that a failure describes. *)
Lemma failed_trace_Steps s e tr :
  failed_trace fl e tr → ∃ s', Steps fl (init fl, s) tr (Returned (Err e), s').
Proof.
  intros [fs f rest acc Hfl Hfs Hf|a Ha Hi
         |a images shown tss image rest refs ts r refs' Ha Hi -> Hshown Htd Hrefs Hr].
  - exists s. rewrite /init Hfl fmap_app.
    eapply Steps_app; [by apply Steps_filters_app|]. apply Steps_one. by constructor.
  - exists s. eapply Steps_app; [by apply Steps_filters|]. apply Steps_one. by constructor.
  - destruct (Steps_images_app shown (image :: rest)
                ((newTabWriter ;; writeHeader fl) s).2 tss Hshown) as [s1 Hs1].
    destruct (Steps_refs_app image (displayID (noTrunc fl) (ID image)) refs (r :: refs')
                rest s1 ts Hrefs) as [s2 Hs2].
    exists s2. eapply Steps_app; [by apply Steps_filters|].
    econstructor; [by constructor|]. econstructor; [constructor|].
    eapply Steps_app; [done|]. econstructor; [constructor|]. rewrite Htd fmap_app.
    eapply Steps_app; [done|]. apply Steps_one. constructor.
    by rewrite run_writeRow Hr.
Qed.

(** The failure that an error of the handler comes from. *)
Lemma CmdImages_Err_failed s e :
  (CmdImages fl s).1 = Err e → ∃ tr, failed_trace fl e tr.
Proof.
  intros [Hf|(a & Ha & [Hi|(images & Hi & Hts)])]%CmdImages_Err_cases.
  - apply foldM_Err_iff in Hf as (fs & f & rest & acc & Hfl & Hfs & Hf).
    eexists. by eapply failed_filter.
  - eexists. by eapply failed_list.
  - apply mapM_Err_iff in Hts as (shown & image & rest & tss & -> & Hshown & Himage).
    apply mapM_Err_iff in Himage as (refs & r & refs' & ts & Htd & Hrefs & Hr).
    eexists. by eapply failed_ref.
Qed.

(** ** Nothing shows before the flush *)

Context `{!CollabPlain}.

(** A line of two or more plain fields written at the start of a line
    stays in the writer. *)
Lemma emit_buffered row s :
  at_line_start (tw s) → Forall (λ f, plain f = true) row → 2 ≤ length row →
  out (emit (tabline row) s) = out s ∧ at_line_start (tw (emit (tabline row) s)).
Proof.
  intros Hw Hrow Hlen. by rewrite /emit /set_writer /= Write_tabline_buffered.
Qed.

Lemma header_hidden s :
  quiet fl = false →
  out ((newTabWriter ;; writeHeader fl) s).2 = out s
  ∧ at_line_start (tw ((newTabWriter ;; writeHeader fl) s).2).
Proof.
  intros Hq. rewrite run_header /headerRows Hq /tablines /= str_app_nil_r.
  apply (emit_buffered _ {| tw := NewWriter 20 1 3 " " 0; out := out s; ticks := ticks s |});
    [done|apply headerFields_plain|].
  rewrite length_headerFields. destruct (showDigests fl); lia.
Qed.

Lemma writeRow_hidden image ID r s s' :
  quiet fl = false → plain ID = true → at_line_start (tw s) →
  writeRow fl image ID r s = (Ok tt, s') →
  out s' = out s ∧ at_line_start (tw s').
Proof.
  intros Hq HID Hw. rewrite run_writeRow Hq.
  destruct (resolveRef r) as [t|] eqn:Hr; [|done]. intros [= <-].
  apply (emit_buffered _ (tick s)); [done|by eapply fieldsOfRow_plain|].
  rewrite length_fieldsOfRow Hq length_headerFields. destruct (showDigests fl); lia.
Qed.

Lemma writeRow_Err image ID r s e s' : writeRow fl image ID r s = (Err e, s') → s' = s.
Proof. rewrite run_writeRow. destruct (resolveRef r); [done|]. by intros [= _ <-]. Qed.

Lemma Step_hidden s0 c l c' :
  quiet fl = false →
  (∀ a images, ImageList (listOptions fl a) = Ok images → plainIDs images) →
  Step fl c l c' → hidden s0 c → hidden s0 c'.
Proof.
  intros Hq Hdaemon Hstep.
  destruct Hstep as [| |acc images s Hl| |images s|image images s
    |image ID r refs images s s' Hr|image ID r refs images s e s' Hr| |s];
    rewrite /hidden /=; try done.
  - intros Hout. split; [done|]. by eapply Hdaemon.
  - intros [Hout Hids]. destruct (header_hidden s Hq) as [-> ?]. done.
  - intros (Hout & Hw & [HID Hids]%Forall_cons_1).
    split; [done|]. split; [done|]. split; [by apply displayID_plain|done].
  - intros (Hout & Hw & HID & Hids).
    destruct (writeRow_hidden _ _ _ _ _ Hq HID Hw Hr) as [-> ?]. done.
  - intros (Hout & _). by rewrite (writeRow_Err _ _ _ _ _ _ Hr).
  - naive_solver.
Qed.

Lemma Steps_hidden s0 c tr c' :
  quiet fl = false →
  (∀ a images, ImageList (listOptions fl a) = Ok images → plainIDs images) →
  Steps fl c tr c' → hidden s0 c → hidden s0 c'.
Proof.
  intros Hq Hdaemon. induction 1 as [|????? Hstep _ IH]; [done|].
  intros Hc. eapply IH, Step_hidden; eauto.
Qed.

(** ** The writer holds one table *)

Lemma emit_line row s :
  at_line_start (tw s) → Forall (λ f, plain f = true) row → 2 ≤ length row →
  tw (emit (tabline row) s)
  = with_text (tw s) "" false [] (ended (tw s) ++ [cells_of row]).
Proof.
  intros Hw Hrow Hlen. by rewrite /emit /set_writer /= Write_tabline_buffered.
Qed.

Lemma columns_ge_2 : 2 ≤ length (headerFields (showDigests fl)).
Proof. rewrite length_headerFields. destruct (showDigests fl); lia. Qed.

Lemma holds_table_snoc n w row :
  holds_table fl n w → length row = length (headerFields (showDigests fl)) →
  holds_table fl (S n) (with_text w "" false [] (ended w ++ [cells_of row])).
Proof.
  intros (Hcfg & Hw & Hlen & Hhead & Hall) Hrow. pose proof columns_ge_2.
  repeat split; [done| |by destruct (ended w)|].
  - rewrite /= length_app /=. lia.
  - apply Forall_app. split; [done|]. constructor; [|done]. rewrite length_cells_of. lia.
Qed.

Lemma header_table s :
  quiet fl = false → holds_table fl 0 (tw ((newTabWriter ;; writeHeader fl) s).2).
Proof.
  intros Hq. pose proof columns_ge_2.
  rewrite run_header /headerRows Hq /tablines /= str_app_nil_r.
  rewrite Write_tabline_buffered; [|apply headerFields_plain|done..].
  repeat split. constructor; [|done]. rewrite length_cells_of. lia.
Qed.

Lemma writeRow_table n image ID r s s' :
  quiet fl = false → plain ID = true → holds_table fl n (tw s) →
  writeRow fl image ID r s = (Ok tt, s') → holds_table fl (S n) (tw s').
Proof.
  intros Hq HID Ht. rewrite run_writeRow Hq.
  destruct (resolveRef r) as [t|] eqn:Hr; [|done]. intros [= <-].
  assert (length (fieldsOfRow fl image ID t (Now (ticks s)))
          = length (headerFields (showDigests fl))) as Hlen
    by by rewrite length_fieldsOfRow Hq.
  pose proof columns_ge_2.
  rewrite (emit_line _ (tick s)); [|apply Ht|by eapply fieldsOfRow_plain|lia].
  by apply holds_table_snoc.
Qed.

Lemma Step_rectangular n c l c' :
  quiet fl = false →
  (∀ a images, ImageList (listOptions fl a) = Ok images → plainIDs images) →
  Step fl c l c' → rectangular fl n c → rectangular fl (n + is_row l) c'.
Proof.
  intros Hq Hdaemon Hstep.
  destruct Hstep as [| |acc images s Hl| |images s|image images s
    |image ID r refs images s s' Hr|image ID r refs images s e s' Hr| |s];
    rewrite /rectangular /= ?Nat.add_0_r ?Nat.add_1_r; try done.
  - intros ->. split; [done|]. by eapply Hdaemon.
  - intros [-> Hids]. split; [by apply header_table|done].
  - intros (Ht & [HID Hids]%Forall_cons_1).
    split; [done|]. split; [by apply displayID_plain|done].
  - intros (Ht & HID & Hids). split; [by eapply writeRow_table|done].
  - naive_solver.
Qed.

Lemma Steps_rectangular n c tr c' :
  quiet fl = false →
  (∀ a images, ImageList (listOptions fl a) = Ok images → plainIDs images) →
  Steps fl c tr c' → rectangular fl n c → rectangular fl (n + rows_shown tr) c'.
Proof.
  intros Hq Hdaemon Hsteps. revert n.
  induction Hsteps as [|c l c' tr c'' Hstep _ IH]; intros n Hc.
  - by rewrite /rows_shown /= Nat.add_0_r.
  - rewrite /rows_shown /= Nat.add_assoc. eapply IH, Step_rectangular; eauto.
Qed.

End machine_invariants.

(** ** The claims on the machine *)

(** C11.  The machine and the handler agree: the machine started at the
    first program point in the state [s] can reach the return with the
    result [r] in the state [s'] exactly when [CmdImages] returns [r] and
    leaves [s']. *)
Theorem machine_CmdImages `{Collab} fl s r s' :
  (∃ tr, Steps fl (init fl, s) tr (Returned r, s')) ↔ CmdImages fl s = (r, s').
Proof.
  split.
  - intros [tr Hsteps%Steps_denote]. by rewrite denote_init in Hsteps.
  - intros Hcmd. exists (run fl (remaining fl (init fl, s)) (init fl, s)).1.
    pose proof (run_Steps fl (remaining fl (init fl, s)) (init fl, s)) as Hrun.
    by rewrite run_CmdImages_final // Hcmd in Hrun.
Qed.

(** C12.  Termination.  From every program point the machine reaches a
    return: [run] with at least [remaining] transitions of fuel ends in a
    final configuration, and it took no more than [remaining]
    transitions.  For the first program point that is one transition per
    filter flag, one for the listing call, one for the header, and per
    record one to take it up, one per reference and one to leave it, and
    one for the flush. *)
Theorem run_terminates `{Collab} fl n c :
  remaining fl c ≤ n →
  final (run fl n c).2 ∧ length (run fl n c).1 ≤ remaining fl c.
Proof.
  intros Hn. split; [by apply run_final|].
  pose proof (Steps_remaining fl _ _ _ (run_Steps fl n c)). lia.
Qed.

(** The transition function computes the transition relation. *)
Theorem step_iff_Step `{Collab} fl c l c' : step fl c = Some (l, c') ↔ Step fl c l c'.
Proof. apply step_Step. Qed.

(** C15.  Outside quiet mode nothing reaches the output stream before the
    final flush: when the daemon returns records with plain ids, at every
    configuration the machine reaches other than the successful return,
    failures included, the output stream is what it was at the start. *)
Theorem reachable_hidden `{Collab} `{!CollabPlain} fl s tr c :
  quiet fl = false →
  (∀ a images, ImageList (listOptions fl a) = Ok images → plainIDs images) →
  Steps fl (init fl, s) tr c →
  c.1 ≠ Returned (Ok tt) →
  out c.2 = out s.
Proof.
  intros Hq Hdaemon Hsteps Hc.
  pose proof (Steps_hidden fl s _ _ _ Hq Hdaemon Hsteps eq_refl) as Hh.
  rewrite /hidden in Hh. destruct c.1 as [| | | |[[]|]]; naive_solver.
Qed.

(** C18.  Outside quiet mode the writer holds one table while the records
    are shown: when the daemon returns records with plain ids, at every
    configuration the machine reaches in the loop over the records the
    writer has the parameters of line 62 and is between two lines, and it
    holds the header followed by one line per reference shown so far, each
    with one cell per column of the header, five or six.  No row is lost,
    split in two or short of a column before the flush lays the table
    out. *)
Theorem reachable_rectangular `{Collab} `{!CollabPlain} fl s tr c :
  quiet fl = false →
  (∀ a images, ImageList (listOptions fl a) = Ok images → plainIDs images) →
  Steps fl (init fl, s) tr c →
  in_loop c →
  holds_table fl (rows_shown tr) (tw c.2).
Proof.
  intros Hq Hdaemon Hsteps Hc.
  pose proof (Steps_rectangular fl 0 _ _ _ Hq Hdaemon Hsteps eq_refl) as Hr.
  rewrite /rectangular /in_loop in Hr Hc. destruct c.1; naive_solver.
Qed.

(** C19.  The order of the calls of a listing that succeeds: the filter
    flags are parsed in the order given, then the daemon is asked once,
    then the header is written, then for each record in the order
    returned its references are shown in the order of [tagsAndDigests],
    and the flush comes last. *)
Theorem run_trace `{Collab} fl s tr s' :
  Steps fl (init fl, s) tr (Returned (Ok tt), s') →
  ∃ a images,
    consolidateFilters (flFilter fl) = Ok a
    ∧ ImageList (listOptions fl a) = Ok images
    ∧ tr = (LParseFlag <$> flFilter fl) ++ [LImageList; LHeader]
           ++ images_trace images ++ [LFlush].
Proof.
  intros Hsteps. pose proof (Steps_denote fl _ _ _ Hsteps) as Hd.
  rewrite denote_init /= in Hd.
  destruct (consolidateFilters (flFilter fl)) as [a|e] eqn:Ha;
    [|by rewrite /CmdImages Ha in Hd].
  destruct (ImageList (listOptions fl a)) as [images|e] eqn:Hi;
    [|by rewrite /CmdImages Ha run_lift_Ok Hi in Hd].
  exists a, images. split; [done|]. split; [done|].
  rewrite (run_body _ _ a images) // in Hd.
  destruct (forM_ _ _ _) as [[[]|e] s1] eqn:Hrows; [|done].
  by destruct (Steps_det fl _ _ _ _ _ Hsteps I (Steps_listing fl s a images s1 Ha Hi Hrows) I).
Qed.

(** C20.  The order of the calls of a listing that fails: the run stops
    at the call that failed and makes no call after it.  A run from the
    first program point ends with the error [e] exactly when its labels
    are those of a failure with [e]: the filter flags up to the first one
    refused, the listing call not made; or all filter flags and the
    listing call that failed, nothing written; or the flags, the listing
    call, the header, the records that reconcile before the first one
    that does not, and the references of that one up to the first that
    does not parse, the flush not made. *)
Theorem run_trace_failed `{Collab} fl s tr e :
  (∃ s', Steps fl (init fl, s) tr (Returned (Err e), s')) ↔ failed_trace fl e tr.
Proof.
  split; [|apply failed_trace_Steps].
  intros [s' Hsteps]. pose proof (Steps_denote fl _ _ _ Hsteps) as Hd.
  rewrite denote_init /= in Hd.
  destruct (CmdImages_Err_failed fl s e) as [tr' Htr']; [by rewrite -Hd|].
  destruct (failed_trace_Steps fl s e tr' Htr') as [s'' Hsteps'].
  by destruct (Steps_det fl _ _ _ _ _ Hsteps I Hsteps' I) as [-> _].
Qed.

(** ** Witnesses *)

Lemma run_terminates_witness :
  final (@run tc fl_default 9 (@init tc fl_default, s0)).2
  ∧ length (@run tc fl_default 9 (@init tc fl_default, s0)).1
    ≤ @remaining tc fl_default (@init tc fl_default, s0).
Proof. apply (@run_terminates tc). vm_compute; lia. Defined.

Lemma reachable_hidden_witness :
  out (@run tc_bad fl_default 12 (@init tc_bad fl_default, s0)).2.2 = out s0.
Proof.
  apply (@reachable_hidden tc_bad _ fl_default s0
           (@run tc_bad fl_default 12 (@init tc_bad fl_default, s0)).1);
    [done| |apply run_Steps|done].
  intros a images [= <-]. by repeat constructor.
Defined.

Lemma reachable_rectangular_witness :
  holds_table fl_default
    (rows_shown (@run tc_bad fl_default 9 (@init tc_bad fl_default, s0)).1)
    (tw (@run tc_bad fl_default 9 (@init tc_bad fl_default, s0)).2.2).
Proof.
  apply (@reachable_rectangular tc_bad _ fl_default s0
           (@run tc_bad fl_default 9 (@init tc_bad fl_default, s0)).1);
    [done| |apply run_Steps|done].
  intros a images [= <-]. by repeat constructor.
Defined.

Lemma run_trace_witness :
  ∃ a images,
    @consolidateFilters tc (flFilter fl_default) = Ok a
    ∧ @ImageList tc (listOptions fl_default a) = Ok images
    ∧ (@run tc fl_default 9 (@init tc fl_default, s0)).1
      = (LParseFlag <$> flFilter fl_default) ++ [LImageList; LHeader]
        ++ images_trace images ++ [LFlush].
Proof.
  apply (@run_trace tc fl_default s0 _ (@CmdImages tc fl_default s0).2).
  pose proof (@run_Steps tc fl_default 9 (@init tc fl_default, s0)) as Hrun.
  by rewrite run_CmdImages_final in Hrun; [|vm_compute; lia].
Defined.

(** The run of the listing in which the second tag of the second record
    does not parse stops at that tag. *)
Lemma run_trace_failed_witness :
  @failed_trace tc_bad fl_default "invalid reference format"
    (@run tc_bad fl_default 100 (@init tc_bad fl_default, s0)).1.
Proof.
  apply (@run_trace_failed tc_bad fl_default s0). eexists.
  pose proof (@run_Steps tc_bad fl_default 100 (@init tc_bad fl_default, s0)) as Hrun.
  by rewrite run_CmdImages_final in Hrun; [|vm_compute; lia].
Defined.

(** ** Evaluations *)

(** The transitions of the listing of [img_foo] with the default flags. *)
Example run_default_trace :
  (@run tc fl_default 100 (@init tc fl_default, s0)).1
  = [LImageList; LHeader; LImage img_foo; LRow "library/foo:latest"; LRow "foo:v1";
     LRow "foo@sha256:aa11"; LImageEnd; LFlush].
Proof. by vm_compute. Qed.

(** The second record fails at its second tag: the machine returns from
    inside the inner loop, and the flush is not reached. *)
Example run_bad_trace :
  (@run tc_bad fl_default 100 (@init tc_bad fl_default, s0)).1
  = [LImageList; LHeader; LImage img_foo; LRow "library/foo:latest"; LRow "foo:v1";
     LRow "foo@sha256:aa11"; LImageEnd; LImage img_bad; LRow "ok:v1"; LRow ":latest"].
Proof. by vm_compute. Qed.

(** After nine transitions of that run the machine is in the inner loop,
    and the writer holds the header and the four rows shown so far. *)
Example run_bad_rows :
  let r := @run tc_bad fl_default 9 (@init tc_bad fl_default, s0) in
  rows_shown r.1 = 4 ∧ length (ended (tw r.2.2)) = 5 ∧ out r.2.2 = [].
Proof. by vm_compute. Qed.
